(** * vse-sim: the election simulator of [br.py]

    A shallow embedding of the voter, electorate-model and election-method
    code of [br.py], and the properties of it that the specification
    states.

    Conventions of the embedding.
    - Python floats are idealised as real numbers ([R]); rounding, [inf] and
      [nan] are outside the model.  A division whose divisor is zero raises
      [ZeroDivisionError], as it does on Python floats.
    - Python integers are [Z]; list indices and lengths are [nat].
    - An exception is a value of [PyError]; code that can raise returns a
      [result].
    - The module [random] is an explicit state: two tapes of draws, one read
      by [random.gauss], one by [random.randrange] and [random.choice].
    - The attributes that the code attaches to a voter ([setattr]) are a
      finite map from attribute names to Python values. *)

From Stdlib Require Import Reals Lra Lia ZArith List String.
From stdpp Require Import base option list gmap strings sorting.
From Equations Require Import Equations.
Import ListNotations.

Local Open Scope string_scope.
Local Open Scope list_scope.

(** ** Exceptions and the two monads *)

Inductive PyError : Set :=
| AssertionError
| TypeError
| ValueError
| IndexError
| AttributeError
| NameError
| ZeroDivisionError.

Inductive result (A : Type) : Type :=
| Ok (a : A)
| Raise (e : PyError).
Arguments Ok {A} a.
Arguments Raise {A} e.

#[global] Instance result_ret : MRet result := fun _ a => Ok a.
#[global] Instance result_bind : MBind result := fun _ _ f m =>
  match m with
  | Ok a => f a
  | Raise e => Raise e
  end.

Definition is_ok {A} (r : result A) : bool :=
  match r with Ok _ => true | Raise _ => false end.

(** [[f(x) for x in l]] where [f] can raise: left to right, the first
    exception aborts the comprehension. *)
Fixpoint mapR {A B} (f : A -> result B) (l : list A) : result (list B) :=
  match l with
  | [] => Ok []
  | x :: l' => y ← f x; ys ← mapR f l'; Ok (y :: ys)
  end.

(** ** Numbers *)

(** Python's [==], [<], [<=] on floats, as booleans. *)
Definition Reqb (x y : R) : bool := if Req_dec_T x y then true else false.
Definition Rltb (x y : R) : bool := if Rlt_dec x y then true else false.
Definition Rleb (x y : R) : bool := if Rle_dec x y then true else false.

(** [x / y] on floats. *)
Definition py_div (x y : R) : result R :=
  if Reqb y 0 then Raise ZeroDivisionError else Ok (x / y)%R.

(** [numpy.floor]. *)
Definition floor (x : R) : R := IZR (Int_part x).

(** The builtins [max] and [min] on a sequence; [ValueError] when empty. *)
Definition py_max (l : list R) : result R :=
  match l with
  | [] => Raise ValueError
  | x :: l' => Ok (fold_left Rmax l' x)
  end.

Definition py_min (l : list R) : result R :=
  match l with
  | [] => Raise ValueError
  | x :: l' => Ok (fold_left Rmin l' x)
  end.

Definition Rsum (l : list R) : R := fold_right Rplus 0%R l.

(** [numpy.mean].  The program only calls it on non-empty sequences (the
    columns of a [zip], and a vector whose [max] was taken just before). *)
Definition mean (l : list R) : R := (Rsum l / INR (length l))%R.

(** [zip] of the unpacked [rows]: the columns, as many as the shortest row
    has entries. *)
Fixpoint zip_star (rows : list (list R)) : list (list R) :=
  match rows with
  | [] => []
  | [r] => map (fun x => [x]) r
  | r :: rs => zip_with cons r (zip_star rs)
  end.

(** [enumerate]. *)
Definition enumerate {A} (l : list A) : list (nat * A) :=
  combine (seq 0 (length l)) l.

(** ** The random source *)

Record Rng : Type := mkRng {
  gauss_tape : nat -> R;
  int_tape : nat -> nat
}.

(** What the program can mutate outside the objects it is handed: the state
    of [random] and the class attribute [PersonalityVoter.cluster_count]. *)
Record World : Type := mkWorld {
  rng : Rng;
  cluster_count : Z
}.

Definition M (A : Type) : Type := World -> result (A * World).

#[global] Instance M_ret : MRet M := fun _ a w => Ok (a, w).
#[global] Instance M_bind : MBind M := fun _ _ f m w =>
  match m w with
  | Ok (a, w') => f a w'
  | Raise e => Raise e
  end.

Definition lift {A} (r : result A) : M A := fun w =>
  match r with
  | Ok a => Ok (a, w)
  | Raise e => Raise e
  end.

(** [random.gauss(0,1)]: the next entry of the gauss tape. *)
Definition random_gauss : M R := fun w =>
  let g := rng w in
  Ok (gauss_tape g 0%nat,
      mkWorld (mkRng (fun n => gauss_tape g (S n)) (int_tape g))
              (cluster_count w)).

(** The next integer draw below [n], for [0 < n]. *)
Definition randbelow (n : nat) : M nat := fun w =>
  let g := rng w in
  Ok ((int_tape g 0 mod n)%nat,
      mkWorld (mkRng (gauss_tape g) (fun k => int_tape g (S k)))
              (cluster_count w)).

(** [random.randrange(n)]. *)
Definition random_randrange (n : Z) : M Z :=
  if (n <=? 0)%Z then lift (Raise ValueError)
  else i ← randbelow (Z.to_nat n); mret (Z.of_nat i).

(** [random.choice(seq)]. *)
Definition random_choice {A} (l : list A) : M A :=
  match l with
  | [] => lift (Raise IndexError)
  | x :: _ => i ← randbelow (length l); mret (nth i l x)
  end.

(** ** Voters *)

Inductive PyVal : Type :=
| VBool (b : bool)
| VInt (n : Z)
| VFloat (x : R)
| VList (l : list R).

Inductive VoterClass : Set := VoterCls | PersonalityVoterCls.

Record Voter : Type := mkVoter {
  vclass : VoterClass;
  utils : list R;
  attrs : gmap string PyVal
}.

Definition setattr (v : Voter) (name : string) (x : PyVal) : Voter :=
  mkVoter (vclass v) (utils v) (<[name := x]> (attrs v)).

Definition getattr (v : Voter) (name : string) : result PyVal :=
  match attrs v !! name with
  | Some x => Ok x
  | None => Raise AttributeError
  end.

Definition getattr_default (v : Voter) (name : string) (d : PyVal) : PyVal :=
  match attrs v !! name with
  | Some x => x
  | None => d
  end.

(** [cls(utils)]: a new object of class [cls], without attributes. *)
Definition new_voter (cls : VoterClass) (us : list R) : Voter :=
  mkVoter cls us ∅.

(** [n] draws of [random.gauss(0,1)], in order. *)
Fixpoint gauss_draws (n : nat) : M (list R) :=
  match n with
  | O => mret []
  | S n' => x ← random_gauss; xs ← gauss_draws n'; mret (x :: xs)
  end.

(** [Voter.rand(cls, ncand)]. *)
Definition Voter_rand (cls : VoterClass) (ncand : Z) : M Voter :=
  us ← gauss_draws (Z.to_nat ncand); mret (new_voter cls us).

(** Reading and writing the class attribute [cluster_count]. *)
Definition get_cluster_count : M Z := fun w => Ok (cluster_count w, w).
Definition set_cluster_count (c : Z) : M unit := fun w =>
  Ok (tt, mkWorld (rng w) c).

(** [PersonalityVoter.rand(cls, ncand)]. *)
Definition PersonalityVoter_rand (cls : VoterClass) (ncand : Z) : M Voter :=
  voter ← Voter_rand cls ncand;
  c ← get_cluster_count;
  let voter := setattr voter "cluster" (VInt c) in
  _ ← set_cluster_count (c + 1);
  p ← random_gauss;
  mret (setattr voter "personality" (VFloat p)).

(** [vType.rand(ncand)], by the class it is called on. *)
Definition rand (vType : VoterClass) (ncand : Z) : M Voter :=
  match vType with
  | VoterCls => Voter_rand vType ncand
  | PersonalityVoterCls => PersonalityVoter_rand vType ncand
  end.

(** [Voter.copyWithUtils(self, utils)]. *)
Definition Voter_copyWithUtils (self : Voter) (us : list R) : Voter :=
  new_voter (vclass self) us.

(** A positional argument of a call: a voter or an iterable of utilities.
    Iterating a voter gives its utilities. *)
Inductive PyArg : Type :=
| ArgVoter (v : Voter)
| ArgUtils (us : list R).

Definition arg_iter (a : PyArg) : list R :=
  match a with
  | ArgVoter v => utils v
  | ArgUtils us => us
  end.

(** A call of the bound method [super().copyWithUtils] with the positional
    arguments [args]: the method has one parameter besides [self], any other
    number of arguments is a [TypeError]. *)
Definition call_super_copyWithUtils (self : Voter) (args : list PyArg)
  : result Voter :=
  match args with
  | [a] => Ok (Voter_copyWithUtils self (arg_iter a))
  | _ => Raise TypeError
  end.

(** [PersonalityVoter.copyWithUtils(self, utils)]. *)
Definition PersonalityVoter_copyWithUtils (self : Voter) (us : list R)
  : result Voter :=
  voter ← call_super_copyWithUtils self [ArgVoter self; ArgUtils us];
  p ← getattr self "personality";
  let voter := setattr voter "personality" p in
  c ← getattr self "cluster";
  Ok (setattr voter "cluster" c).

(** [self.copyWithUtils(utils)], by the class of [self]. *)
Definition copyWithUtils (self : Voter) (us : list R) : result Voter :=
  match vclass self with
  | VoterCls => Ok (Voter_copyWithUtils self us)
  | PersonalityVoterCls => PersonalityVoter_copyWithUtils self us
  end.

(** The [i]-th utility of the blend of [hybridWith]. *)
Definition hybrid_util (self v2 : list R) (w2 : R) (i : nat) : R :=
  (nth i self 0 / sqrt (1 + w2 ^ 2) + w2 * nth i v2 0 / sqrt (1 + w2 ^ 2))%R.

(** [Voter.hybridWith(self, v2, w2)]. *)
Definition hybridWith (self v2 : Voter) (w2 : R) : result Voter :=
  if (length (utils self) =? length (utils v2))%nat
  then copyWithUtils self
         (map (hybrid_util (utils self) (utils v2) w2)
              (seq 0 (length (utils self))))
  else Raise AssertionError.

(** [Voter.mutantChild(self, muteWeight)]. *)
Definition mutantChild (self : Voter) (muteWeight : R) : M Voter :=
  other ← rand (vclass self) (Z.of_nat (length (utils self)));
  lift (hybridWith self other muteWeight).

(** ** Electorates and the models that generate them *)

Definition Electorate : Type := list Voter.

(** [Electorate.socUtils]. *)
Definition socUtils (e : Electorate) : list R :=
  map mean (zip_star (map utils e)).

(** [l[i]] for an index [0 <= i]. *)
Definition list_item {A} (l : list A) (i : nat) : result A :=
  match l !! i with
  | Some x => Ok x
  | None => Raise IndexError
  end.

(** [[body for i in range(n)]] for a [body] that reads the world. *)
Fixpoint repeatM {A} (n : nat) (body : M A) : M (list A) :=
  match n with
  | O => mret []
  | S n' => x ← body; xs ← repeatM n' body; mret (x :: xs)
  end.

(** [RandomModel.__call__]. *)
Definition RandomModel_call (nvot ncand : Z) (vType : VoterClass)
  : M Electorate :=
  repeatM (Z.to_nat nvot) (rand vType ncand).

(** [ReverseModel.__call__]. *)
Definition ReverseModel_call (nvot ncand : Z) (vType : VoterClass)
  : M Electorate :=
  if negb (nvot mod 2 =? 0)%Z then lift (Raise ValueError)
  else
    basevoter ← rand vType ncand;
    mret (replicate (Z.to_nat (nvot / 2)) basevoter ++
          replicate (Z.to_nat (nvot / 2))
            (new_voter vType (map Ropp (utils basevoter)))).

(** The body of the [while] loop of [PolyaModel.__call__]: the voter that
    the iteration appends. *)
Definition polya_draw (alpha : Z) (mutantFactor : R) (ncand : Z)
    (vType : VoterClass) (election : Electorate) : M Voter :=
  i ← random_randrange (Z.of_nat (length election) + alpha);
  if (i <? Z.of_nat (length election))%Z
  then v ← lift (list_item election (Z.to_nat i)); mutantChild v mutantFactor
  else rand vType ncand.

(** The [while len(election) < nvot] loop of [PolyaModel.__call__]. *)
Equations? polya_loop (alpha : Z) (mutantFactor : R) (nvot ncand : Z)
    (vType : VoterClass) (election : Electorate) (w : World)
  : result (Electorate * World)
  by wf (Z.to_nat (nvot - Z.of_nat (length election))) lt :=
polya_loop alpha mutantFactor nvot ncand vType election w
  with Z_lt_dec (Z.of_nat (length election)) nvot := {
  | right _ => Ok (election, w)
  | left Hlt =>
      match polya_draw alpha mutantFactor ncand vType election w with
      | Raise e => Raise e
      | Ok (child, w') =>
          polya_loop alpha mutantFactor nvot ncand vType
            (election ++ [child]) w'
      end
  }.
Proof.
  rewrite length_app; simpl; lia.
Qed.

Inductive Model : Type :=
| RandomModel
| ReverseModel
| QModel (qWeight : R) (baseModel : Model)
| PolyaModel (seedVoters alpha : Z) (seedModel : Model) (mutantFactor : R).

(** The defaults of the constructors: [QModel()] and [PolyaModel()]. *)
Definition QModel_default : Model := QModel 1 ReverseModel.
Definition PolyaModel_default : Model :=
  PolyaModel 2 1 QModel_default (2 / 10)%R.

(** [model(nvot, ncand, vType)], by the class of [model]. *)
Fixpoint Model_call (model : Model) (nvot ncand : Z) (vType : VoterClass)
  : M Electorate :=
  match model with
  | RandomModel => RandomModel_call nvot ncand vType
  | ReverseModel => ReverseModel_call nvot ncand vType
  | QModel qWeight baseModel =>
      qualities ← rand vType ncand;
      base ← Model_call baseModel nvot ncand vType;
      lift (mapR (fun v => hybridWith v qualities qWeight) base)
  | PolyaModel seedVoters alpha seedModel mutantFactor =>
      election ← Model_call seedModel seedVoters ncand vType;
      polya_loop alpha mutantFactor nvot ncand vType election
  end.

(** ** Ballots and their memo *)

(** A ballot function [xxxBallot(cls, voter)]: it is handed the name of the
    method's class and a voter, and returns a ballot and the voter as its
    attributes are afterwards. *)
Definition BallotFun : Type := string -> Voter -> result (PyVal * Voter).

(** The slice [s[:-n]]. *)
Definition drop_last (n : nat) (s : string) : string :=
  substring 0 (String.length s - n) s.

(** The decorator [rememberBallot], applied to a function named [fun_name]. *)
Definition rememberBallot (fun_name : string) (f : BallotFun) : BallotFun :=
  fun cls voter =>
    '(ballot, voter) ← f cls voter;
    Ok (ballot,
        setattr voter ((cls +:+ "_") +:+ drop_last 6 fun_name) ballot).

(** Truth value of a Python value in an [if]. *)
Definition truthy (x : PyVal) : bool :=
  match x with
  | VBool b => b
  | VInt n => negb (n =? 0)%Z
  | VFloat x => negb (Reqb x 0)
  | VList l => negb (bool_decide (l = []))
  end.

(** [Method.ossBallot(cls, voter)]. *)
Definition ossBallot : BallotFun := fun cls voter =>
  if truthy (getattr_default voter (cls +:+ "_isStrat") (VBool false))
  then res ← getattr voter (cls +:+ "_strat"); Ok (res, voter)
  else res ← getattr voter (cls +:+ "_hon"); Ok (res, voter).

(** ** Score voting *)

(** The vote [floor(10.99 * (util - lo) / span)] of both Score ballots. *)
Definition score_vote (lo span util : R) : result R :=
  q ← py_div (1099 / 100 * (util - lo)) span; Ok (floor q).

(** The body of [Score.honBallot], before decoration. *)
Definition Score_honBallot_body : BallotFun := fun cls voter =>
  bot ← py_min (utils voter);
  top ← py_max (utils voter);
  let scale := (top - bot)%R in
  ballot ← mapR (score_vote bot scale) (utils voter);
  Ok (VList ballot, voter).

Definition Score_honBallot : BallotFun :=
  rememberBallot "honBallot" Score_honBallot_body.

(** [sorted(l, key=key)] for keys that are indices: a stable insertion
    sort. *)
Fixpoint insert_by {A} (key : A -> nat) (x : A) (l : list A) : list A :=
  match l with
  | [] => [x]
  | y :: l' => if (key x <=? key y)%nat then x :: l else y :: insert_by key x l'
  end.

Definition sorted_by {A} (key : A -> nat) (l : list A) : list A :=
  fold_right (insert_by key) [] l.

(** [places] of both [stratBallotFor]: the poll, sorted with the key
    [lambda x: x[0]]. *)
Definition places (info : list R) : list (nat * R) :=
  sorted_by fst (enumerate info).

(** [frontrunners] of [Score.stratBallotFor]. *)
Definition Score_frontrunners (info : list R) : result (nat * nat) :=
  p0 ← list_item (places info) 0;
  p1 ← list_item (places info) 1;
  Ok (p0.1, p1.1).

(** [frontrunners] of [Mav.stratBallotFor]. *)
Definition Mav_frontrunners (info : list R) : result (nat * nat * R * R) :=
  p0 ← list_item (places info) 0;
  p1 ← list_item (places info) 1;
  Ok (p0.1, p1.1, p0.2, p1.2).

(** The inner function [stratBallot] of [Score.stratBallotFor], before
    decoration, with its default argument [front]. *)
Definition Score_stratBallot_body (front : nat * nat) : BallotFun :=
  fun cls voter =>
    c0 ← list_item (utils voter) front.1;
    c1 ← list_item (utils voter) front.2;
    if Reqb c0 c1
    then Ok (VList (map (fun util => if Rleb c0 util then 10%R else 0%R)
                        (utils voter)), voter)
    else
      let strat := negb (Rltb c1 c0) in
      let cuts := if Rltb c1 c0 then (c0, c1) else (c1, c0) in
      let voter := setattr voter (cls +:+ "_isStrat") (VBool strat) in
      ballot ← mapR (fun util =>
                       x ← score_vote cuts.2 (cuts.1 - cuts.2) util;
                       Ok (Rmax 0 (Rmin 10 x)))
                    (utils voter);
      Ok (VList ballot, voter).

(** [Score.stratBallotFor(self, info)]. *)
Definition Score_stratBallotFor (info : list R) : result BallotFun :=
  front ← Score_frontrunners info;
  Ok (rememberBallot "stratBallot" (Score_stratBallot_body front)).

(** ** The method framework *)

(** What a subclass of [Method] provides. *)
Record Method : Type := mkMethod {
  class_name : string;
  candScore : list R -> R;
  honBallot : BallotFun;
  stratBallotFor : list R -> result BallotFun
}.

Definition Score : Method :=
  mkMethod "Score" mean Score_honBallot Score_stratBallotFor.

(** A ballot handed to [zip]: it has to be iterable. *)
Definition as_row (b : PyVal) : result (list R) :=
  match b with
  | VList l => Ok l
  | _ => Raise TypeError
  end.

(** [Method.results(self, ballots)], the ballots already evaluated. *)
Definition results (self : Method) (ballots : list PyVal) : result (list R) :=
  rows ← mapR as_row ballots;
  Ok (map (candScore self) (zip_star rows)).

(** The generator [makeBallot(cls, voter) for voter in voters], run to its
    end: the ballots, and the voters as the calls leave them.  (Voters that
    are one object get the same attributes written at every occurrence, as
    the ballots depend only on the utilities and the poll.) *)
Definition make_ballots (cls : string) (makeBallot : BallotFun)
    (voters : Electorate) : result (list PyVal * Electorate) :=
  bvs ← mapR (makeBallot cls) voters;
  Ok (map fst bvs, map snd bvs).

(** [Method.resultsFor(self, voters, makeBallot)]. *)
Definition resultsFor (self : Method) (voters : Electorate)
    (makeBallot : BallotFun) : result (list R * Electorate) :=
  '(ballots, voters) ← make_ballots (class_name self) makeBallot voters;
  res ← results self ballots;
  Ok (res, voters).

(** [Method.multiResults(self, voters, media)]. *)
Definition multiResults (self : Method) (voters : Electorate)
    (media : list R -> list R)
  : result (list R * list R * list R * Electorate) :=
  '(hon, voters) ← resultsFor self voters (honBallot self);
  let info := media hon in
  stratBallot ← stratBallotFor self info;
  '(strat, voters) ← resultsFor self voters stratBallot;
  '(oss, voters) ← resultsFor self voters ossBallot;
  Ok (hon, strat, oss, voters).

(** The candidates whose score is [m] when they are numbered from [k] on,
    as [enumerate(res, k)] numbers them. *)
Definition winners_from (k : nat) (res : list R) (m : R) : list nat :=
  map fst (List.filter (fun cs => Reqb cs.2 m)
             (combine (seq k (length res)) res)).

(** The candidates whose score is [winScore]. *)
Definition winners (res : list R) (winScore : R) : list nat :=
  map fst (List.filter (fun cs => Reqb cs.2 winScore) (enumerate res)).

(** [Method.winner(self, results)]. *)
Definition winner (res : list R) : M nat :=
  winScore ← lift (py_max res);
  random_choice (winners res winScore).

(** ** The VSE evaluator *)

(** The objects that [vseOn] handles. *)
Inductive PyObj : Type :=
| ObjMethod (m : Method)
| ObjElectorate (e : Electorate)
| ObjResults (hon strat oss : list R)
| ObjVector (l : list R)
| ObjFloat (x : R)
| ObjGenerator (items : list (M R))
| ObjTuple (items : list (M R)) (names : list string)
| ObjModuleLevel.

(** The names bound at the top level of [br.py]. *)
Definition module_names : list string :=
  ["autoassign"; "cached_property"; "curried"; "random"; "sqrt"; "mean";
   "std"; "median"; "floor"; "Voter"; "PersonalityVoter"; "Electorate";
   "RandomModel"; "ReverseModel"; "QModel"; "PolyaModel"; "Method";
   "rememberBallot"; "Score"; "toVote"; "Mav"; "Mj"; "Bucklin"; "doVse";
   "printVse"; "saveResults"].

(** Reading the name [x] in a function body: the local variables, then the
    module's; the builtins have none of the names looked up here. *)
Definition resolve_name (locals : list (string * PyObj)) (x : string)
  : result PyObj :=
  match List.find (fun kv => String.eqb kv.1 x) locals with
  | Some kv => Ok kv.2
  | None =>
      if existsb (String.eqb x) module_names then Ok ObjModuleLevel
      else Raise NameError
  end.

(** What a [for] clause can iterate over: the three results of a
    [multiResults], or nothing else that occurs here. *)
Definition iter_results (o : PyObj) : result (list (list R)) :=
  match o with
  | ObjResults hon strat oss => Ok [hon; strat; oss]
  | _ => Raise TypeError
  end.

(** The operator [+]: it concatenates two tuples, and is not defined on a
    generator. *)
Definition py_add (a b : PyObj) : result PyObj :=
  match a, b with
  | ObjTuple xs ns, ObjTuple ys ms => Ok (ObjTuple (xs ++ ys) (ns ++ ms))
  | _, _ => Raise TypeError
  end.

(** The element of the generator of [vseOn] for one result. *)
Definition vse_item (utils : list R) (best rand : R) (res : list R) : M R :=
  w ← winner res;
  u ← lift (list_item utils w);
  lift (py_div (u - rand) (best - rand)).

(** [Method.vseOn(self, voters)]. *)
Definition vseOn (self : Method) (voters : Electorate) : result PyObj :=
  '(hon, strat, oss, voters) ← multiResults self voters (fun x => x);
  let utils := socUtils voters in
  best ← py_max utils;
  let rand := mean utils in
  let locals :=
    [("self", ObjMethod self); ("voters", ObjElectorate voters);
     ("multiResults", ObjResults hon strat oss); ("utils", ObjVector utils);
     ("best", ObjFloat best); ("rand", ObjFloat rand)] in
  iterable ← resolve_name locals "results";
  rs ← iter_results iterable;
  py_add (ObjGenerator (map (vse_item utils best rand) rs))
         (ObjTuple [] [class_name self]).

(** ** The grade methods: Mav, Mj, Bucklin *)

(** [sorted(scores)] on floats: a stable insertion sort. *)
Fixpoint insert_R (x : R) (l : list R) : list R :=
  match l with
  | [] => [x]
  | y :: l' => if Rleb x y then x :: l else y :: insert_R x l'
  end.

Definition sorted_R (l : list R) : list R := fold_right insert_R [] l.

(** The [for] loop of [toVote], at the candidate vote [k] with the cutoffs
    [cs] still to visit; [last] is the loop variable [vote] as the turns so
    far left it, unbound before the first turn.  Reading the unbound
    variable after the loop is an [UnboundLocalError], which is a
    [NameError]. *)
Fixpoint toVote_loop (last : option nat) (k : nat) (cs : list R) (util : R)
  : result nat :=
  match cs with
  | [] =>
      match last with
      | Some vote => Ok (vote + 1)%nat
      | None => Raise NameError
      end
  | c :: cs' =>
      if Rleb util c then Ok k else toVote_loop (Some k) (S k) cs' util
  end.

(** [toVote(cutoffs, util)]. *)
Definition toVote (cutoffs : list R) (util : R) : result nat :=
  toVote_loop None 0 cutoffs util.

(** [[toVote(cutoffs, util) for util in voter]], the votes as numbers. *)
Definition grade_ballot (cutoffs : list R) (us : list R) : result (list R) :=
  mapR (fun util => vote ← toVote cutoffs util; Ok (INR vote)) us.

(** The class attribute [baseCuts] as the class named [cls] has it: [Mav]
    defines it, [Mj] inherits it from [Mav], [Method], [Score] and
    [Bucklin] have none. *)
Definition class_baseCuts (cls : string) : result (list R) :=
  if (String.eqb cls "Mav" || String.eqb cls "Mj")%bool
  then Ok [- (8 / 10); 0; 8 / 10; 16 / 10]%R
  else Raise AttributeError.

(** The body of [Mav.honBallot] (and, word for word, of
    [Bucklin.honBallot]), before decoration. *)
Definition Mav_honBallot_body : BallotFun := fun cls voter =>
  baseCuts ← class_baseCuts cls;
  top ← py_max (utils voter);
  let cutoffs := take 3 baseCuts ++ [top] in
  ballot ← grade_ballot cutoffs (utils voter);
  Ok (VList ballot, voter).

Definition Mav_honBallot : BallotFun :=
  rememberBallot "honBallot" Mav_honBallot_body.

(** The cutoff number [i] of the strategic ballot of [Mav]. *)
Definition Mav_strat_cutoff (self_cls : string) (front : nat * nat * R * R)
    (hi lo top : R) (i : nat) : result R :=
  if Rltb (INR i) (floor front.2 - 1)
  then baseCuts ← class_baseCuts self_cls;
       c ← list_item baseCuts i; Ok (Rmin hi c)
  else if Rltb (INR i) (floor front.1.2 + 1)
  then Ok lo
  else baseCuts ← class_baseCuts self_cls;
       c ← list_item baseCuts i; Ok (Rmin top c).

(** The inner function [stratBallot] of [Mav.stratBallotFor] (and of
    [Bucklin.stratBallotFor]), before decoration; [self_cls] names the class
    of the method object [self] that the closure reads [baseCuts] from. *)
Definition Mav_stratBallot_body (self_cls : string)
    (front : nat * nat * R * R) : BallotFun :=
  fun cls voter =>
    f0 ← list_item (utils voter) front.1.1.1;
    f1 ← list_item (utils voter) front.1.1.2;
    if Reqb f0 f1
    then Ok (VList (map (fun util => if Rleb f0 util then 4%R else 0%R)
                        (utils voter)), voter)
    else
      let strat := negb (Rltb f1 f0) in
      let frontUtils := if Rltb f1 f0 then (f0, f1) else (f1, f0) in
      let voter := setattr voter (cls +:+ "_isStrat") (VBool strat) in
      top ← py_max (utils voter);
      cutoffs ← mapR (Mav_strat_cutoff self_cls front
                        frontUtils.1 frontUtils.2 top) (seq 0 4);
      ballot ← grade_ballot cutoffs (utils voter);
      Ok (VList ballot, voter).

(** [Mav.stratBallotFor(self, info)]. *)
Definition Mav_stratBallotFor (self_cls : string) (info : list R)
  : result BallotFun :=
  front ← Mav_frontrunners info;
  Ok (rememberBallot "stratBallot" (Mav_stratBallot_body self_cls front)).

(** The loop [while (i < nvot and scores[i] == base): i += 1] of
    [Mav.candScore] and [Mj.candScore], from [i] on; its result is the final
    [i]. *)
Equations? scan_up (scores : list R) (base : R) (i : nat) : result nat
  by wf (length scores - i)%nat lt :=
scan_up scores base i with lt_dec i (length scores) := {
  | right _ => Ok i
  | left Hlt =>
      match list_item scores i with
      | Raise e => Raise e
      | Ok x => if Reqb x base then scan_up scores base (S i) else Ok i
      end
  }.
Proof. lia. Qed.

(** The loop [while (lo > 0 and scores[lo] == base): lo -= 1] of
    [Mj.candScore]. *)
Fixpoint scan_down (scores : list R) (base : R) (lo : nat) : result nat :=
  match lo with
  | O => Ok O
  | S lo' =>
      x ← list_item scores lo;
      if Reqb x base then scan_down scores base lo' else Ok lo
  end.

(** The last lines of [Mav.candScore] and [Bucklin.candScore], with the
    loop's final [i]. *)
Definition median_score (mid i : nat) (base : R) : result R :=
  mod_ ← py_div (INR mid * (base + 1 / 2)) (INR i - 1 / 2);
  if Rltb base mod_ then Ok mod_
  else q ← py_div (base - mod_) (base + 1 / 2); Ok (base - q)%R.

(** [Mav.candScore(self, scores)]. *)
Definition Mav_candScore (scores : list R) : result R :=
  let scores := sorted_R scores in
  let nvot := length scores in
  let mid := (nvot / 2)%nat in
  base ← list_item scores mid;
  i ← scan_up scores base mid;
  median_score mid i base.

(** [Mj.candScore(self, scores)]. *)
Definition Mj_candScore (scores : list R) : result R :=
  let scores := sorted_R scores in
  let nvot := length scores in
  let mid := (nvot / 2)%nat in
  base ← list_item scores mid;
  hi ← scan_up scores base mid;
  lo ← scan_down scores base mid;
  let above := (Z.of_nat hi - Z.of_nat mid)%Z in
  let below := (Z.of_nat mid - Z.of_nat lo)%Z in
  if (above =? below)%Z then Ok base
  else if (above <? below)%Z
  then q ← py_div (IZR above) (INR nvot); Ok (base + q)%R
  else q ← py_div (IZR below) (INR nvot); Ok (base - q)%R.

(** [scores[-i]] for [0 < i]. *)
Definition list_item_from_end {A} (l : list A) (i : nat) : result A :=
  if (i <=? length l)%nat then list_item l (length l - i) else Raise IndexError.

(** A value together with the equation that it is the value of the term
    inspected. *)
Definition inspect {A} (a : A) : {b : A | a = b} := exist _ a eq_refl.

(** The loop [while (i > nvot and scores[-i] == base): i += 1] of
    [Bucklin.candScore]. *)
Equations? bucklin_scan (scores : list R) (base : R) (i : nat) : result nat
  by wf (length scores - i)%nat lt :=
bucklin_scan scores base i with lt_dec (length scores) i := {
  | right _ => Ok i
  | left Hgt with inspect (list_item_from_end scores i) := {
      | exist _ (Raise e) _ => Raise e
      | exist _ (Ok x) Hx =>
          if Reqb x base then bucklin_scan scores base (S i) else Ok i
    }
  }.
Proof.
  unfold list_item_from_end in Hx.
  destruct (Nat.leb_spec i (length scores)); [lia | discriminate].
Qed.

(** [Bucklin.candScore(self, scores)]. *)
Definition Bucklin_candScore (scores : list R) : result R :=
  let scores := sorted_R scores in
  let nvot := length scores in
  let mid := (nvot / 2)%nat in
  base ← list_item scores mid;
  i ← bucklin_scan scores base mid;
  median_score mid i base.

(** ** What the specification's words mean, for the statements below *)

(** The pair [(a, b)] is "the two highest-scoring candidates" of a poll, in
    that order: [a] has the maximum score, [b] the maximum among the
    others. *)
Definition is_top_two (info : list R) (a b : nat) : Prop :=
  (a < length info)%nat /\ (b < length info)%nat /\ a <> b /\
  (forall j, (j < length info)%nat -> (nth j info 0 <= nth a info 0)%R) /\
  (forall j, (j < length info)%nat -> j <> a ->
             (nth j info 0 <= nth b info 0)%R).

(** Candidate [i] has the maximum score of [res]. *)
Definition is_top (res : list R) (i : nat) : Prop :=
  (i < length res)%nat /\
  forall j, (j < length res)%nat -> (nth j res 0 <= nth i res 0)%R.

(** The attribute states that the ballot code of a class named [cls] with
    Score's strategic ballot can leave on a voter with utilities [us]: it
    starts without the flag [cls_isStrat]; any other attribute may be
    written (the ballot memos of this and of other methods, [cluster],
    [personality]); the flag changes only through a strategic ballot, for
    any poll. *)
Inductive memo_reachable (cls : string) (us : list R)
  : gmap string PyVal -> Prop :=
| reach_fresh a :
    a !! (cls +:+ "_isStrat") = None ->
    memo_reachable cls us a
| reach_other_attr a k x :
    memo_reachable cls us a ->
    k <> cls +:+ "_isStrat" ->
    memo_reachable cls us (<[k := x]> a)
| reach_strat a c info stratBallot b v' :
    memo_reachable cls us a ->
    Score_stratBallotFor info = Ok stratBallot ->
    stratBallot cls (mkVoter c us a) = Ok (b, v') ->
    memo_reachable cls us (attrs v').

(** What the flag [cls_isStrat], when it is set, says about the voter: the
    invariant of [memo_reachable]. *)
Definition flag_sound (cls : string) (us : list R) (a : gmap string PyVal)
  : Prop :=
  match a !! (cls +:+ "_isStrat") with
  | None | Some (VBool false) => True
  | Some (VBool true) =>
      exists c0 c1,
        list_item us 0 = Ok c0 /\ list_item us 1 = Ok c1 /\ (c0 < c1)%R
  | Some _ => False
  end.

(** Every voter of the electorate is of the plain class [Voter]. *)
Definition all_plain (e : Electorate) : Prop :=
  List.Forall (fun v => vclass v = VoterCls) e.

(** The voters are of the class [vType] and have [n] utilities each. *)
Definition uniform (vType : VoterClass) (n : nat) (e : Electorate) : Prop :=
  List.Forall (fun v => vclass v = vType /\ length (utils v) = n) e.

(** A random source whose tapes are constant, and the world at the start of
    a process with it. *)
Definition const_world (g : R) (k : nat) : World :=
  mkWorld (mkRng (fun _ => g) (fun _ => k)) 0.

(** The voter [Voter([1, 2])] as [Score.honBallot] leaves it: the honest
    ballot is memoized, nothing else is. *)
Definition hon_only_voter : Voter :=
  setattr (new_voter VoterCls [1; 2]%R) "Score_hon" (VList [0; 10]%R).

(** The voter [Voter([2, 2, 1])], for whom candidates 0 and 1 are equal,
    after [Score.honBallot]. *)
Definition tied_voter : Voter :=
  setattr (new_voter VoterCls [2; 2; 1]%R) "Score_hon" (VList [10; 10; 0]%R).

(** ** Numbers: basic facts *)

Section Numbers.
Local Open Scope R_scope.

Lemma Reqb_true x y : x = y -> Reqb x y = true.
Proof. intros H. unfold Reqb. destruct (Req_dec_T x y); congruence. Qed.

Lemma Reqb_false x y : x <> y -> Reqb x y = false.
Proof. intros H. unfold Reqb. destruct (Req_dec_T x y); congruence. Qed.

Lemma Reqb_eq x y : Reqb x y = true <-> x = y.
Proof. unfold Reqb. destruct (Req_dec_T x y); split; congruence. Qed.

Lemma Rltb_false x y : y <= x -> Rltb x y = false.
Proof. intros H. unfold Rltb. destruct (Rlt_dec x y); [lra | reflexivity]. Qed.

Lemma py_div_ok x y : y <> 0 -> py_div x y = Ok (x / y).
Proof. intros H. unfold py_div. now rewrite Reqb_false. Qed.

Lemma py_div_zero x : py_div x 0 = Raise ZeroDivisionError.
Proof. unfold py_div. now rewrite Reqb_true. Qed.

Lemma floor_unique (z : Z) x : IZR z <= x < IZR z + 1 -> floor x = IZR z.
Proof.
  intros H. unfold floor. f_equal. symmetry. apply Int_part_spec. lra.
Qed.

Lemma floor_mono x y : x <= y -> floor x <= floor y.
Proof.
  intros H. unfold floor. apply IZR_le.
  destruct (Z_lt_le_dec (Int_part y) (Int_part x)) as [Hlt|]; [|assumption].
  exfalso. assert (Int_part y + 1 <= Int_part x)%Z as Hz by lia.
  apply IZR_le in Hz. rewrite plus_IZR in Hz.
  pose proof (base_Int_part x). pose proof (base_Int_part y). lra.
Qed.

Lemma sqrt_blend_pos w : 0 < sqrt (1 + w ^ 2).
Proof. apply sqrt_lt_R0. nra. Qed.

Lemma fold_left_Rmax_ge l a : a <= fold_left Rmax l a.
Proof.
  revert a. induction l as [|x l IH]; intros a; simpl; [lra|].
  etransitivity; [apply (Rmax_l a x) | apply IH].
Qed.

Lemma fold_left_Rmax_upper l a x :
  In x (a :: l) -> x <= fold_left Rmax l a.
Proof.
  revert a. induction l as [|y l IH]; intros a Hin; simpl in *.
  - destruct Hin as [->|[]]. lra.
  - destruct Hin as [->|[->|Hin]].
    + etransitivity; [apply (Rmax_l x y) | apply fold_left_Rmax_ge].
    + etransitivity; [apply (Rmax_r a x) | apply fold_left_Rmax_ge].
    + apply IH. now right.
Qed.

Lemma fold_left_Rmax_In l a : In (fold_left Rmax l a) (a :: l).
Proof.
  revert a. induction l as [|y l IH]; intros a; simpl; [now left|].
  destruct (IH (Rmax a y)) as [H|H].
  - rewrite <- H. unfold Rmax. destruct (Rle_dec a y); auto.
  - right. now right.
Qed.

Lemma fold_left_Rmin_le l a : fold_left Rmin l a <= a.
Proof.
  revert a. induction l as [|x l IH]; intros a; simpl; [lra|].
  etransitivity; [apply IH | apply Rmin_l].
Qed.

Lemma fold_left_Rmin_lower l a x :
  In x (a :: l) -> fold_left Rmin l a <= x.
Proof.
  revert a. induction l as [|y l IH]; intros a Hin; simpl in *.
  - destruct Hin as [->|[]]. lra.
  - destruct Hin as [->|[->|Hin]].
    + etransitivity; [apply fold_left_Rmin_le | apply Rmin_l].
    + etransitivity; [apply fold_left_Rmin_le | apply Rmin_r].
    + apply IH. now right.
Qed.

Lemma fold_left_Rmin_In l a : In (fold_left Rmin l a) (a :: l).
Proof.
  revert a. induction l as [|y l IH]; intros a; simpl; [now left|].
  destruct (IH (Rmin a y)) as [H|H].
  - rewrite <- H. unfold Rmin. destruct (Rle_dec a y); auto.
  - right. now right.
Qed.

End Numbers.

(** ** Blending voters *)

Section Blending.
Local Open Scope R_scope.

Lemma hybridWith_Voter self v2 w2 :
  vclass self = VoterCls ->
  length (utils self) = length (utils v2) ->
  hybridWith self v2 w2 =
    Ok (new_voter VoterCls
          (map (hybrid_util (utils self) (utils v2) w2)
               (seq 0 (length (utils self))))).
Proof.
  intros Hcls Hlen. unfold hybridWith, copyWithUtils, Voter_copyWithUtils.
  rewrite <- Hlen, Nat.eqb_refl, Hcls. reflexivity.
Qed.

Lemma hybridWith_length_mismatch self v2 w2 :
  length (utils self) <> length (utils v2) ->
  hybridWith self v2 w2 = Raise AssertionError.
Proof.
  intros Hlen. unfold hybridWith.
  destruct (Nat.eqb_spec (length (utils self)) (length (utils v2)));
    [contradiction | reflexivity].
Qed.

Lemma hybridWith_Personality self v2 w2 :
  vclass self = PersonalityVoterCls ->
  length (utils self) = length (utils v2) ->
  hybridWith self v2 w2 = Raise TypeError.
Proof.
  intros Hcls Hlen. unfold hybridWith, copyWithUtils.
  rewrite <- Hlen, Nat.eqb_refl, Hcls. reflexivity.
Qed.

Lemma sqrt_blend_3_4 : sqrt (1 + (3 / 4) ^ 2) = 5 / 4.
Proof. apply sqrt_lem_1; lra. Qed.

(** C3. For voters of equal length [n] (of the plain class [Voter]) and any
    weight [w2], [hybridWith] returns a new voter of length [n] whose [i]-th
    utility is [self[i]/sqrt(1+w2^2) + w2*v2[i]/sqrt(1+w2^2)]; and
    [Voter([1,2,5]).hybridWith(Voter([-0.5,-1,0]), 0.75)] is
    [(0.5, 1.0, 4.0)]. *)
Theorem hybridWith_blend :
  (forall (self v2 : Voter) (w2 : R),
      vclass self = VoterCls ->
      length (utils self) = length (utils v2) ->
      exists v : Voter,
        hybridWith self v2 w2 = Ok v /\
        vclass v = VoterCls /\
        attrs v = ∅ /\
        length (utils v) = length (utils self) /\
        forall i : nat, (i < length (utils self))%nat ->
          nth i (utils v) 0 =
            nth i (utils self) 0 / sqrt (1 + w2 ^ 2) +
            w2 * nth i (utils v2) 0 / sqrt (1 + w2 ^ 2)) /\
  hybridWith (new_voter VoterCls [1; 2; 5])
             (new_voter VoterCls [- (1 / 2); - 1; 0]) (3 / 4) =
    Ok (new_voter VoterCls [1 / 2; 1; 4]).
Proof.
  split.
  - intros self v2 w2 Hcls Hlen. eexists. split.
    { apply hybridWith_Voter; assumption. }
    simpl. repeat split.
    + now rewrite length_map, length_seq.
    + intros i Hi.
      rewrite (nth_indep _ 0 (hybrid_util (utils self) (utils v2) w2 0)).
      2:{ now rewrite length_map, length_seq. }
      rewrite map_nth, seq_nth by assumption. reflexivity.
  - rewrite hybridWith_Voter by reflexivity. simpl.
    unfold hybrid_util. simpl nth. rewrite sqrt_blend_3_4.
    unfold new_voter. do 2 f_equal.
    repeat (apply (f_equal2 cons); [lra|]). reflexivity.
Qed.

Lemma hybridWith_blend_witness :
  vclass (new_voter VoterCls [3; 4]) = VoterCls /\
  length (utils (new_voter VoterCls [3; 4])) =
    length (utils (new_voter VoterCls [0; 0])) /\
  exists v : Voter,
    hybridWith (new_voter VoterCls [3; 4]) (new_voter VoterCls [0; 0]) 0
      = Ok v /\
    vclass v = VoterCls /\ attrs v = ∅ /\ length (utils v) = 2%nat /\
    forall i : nat, (i < 2)%nat ->
      nth i (utils v) 0 =
        nth i [3; 4] 0 / sqrt (1 + 0 ^ 2) + 0 * nth i [0; 0] 0 / sqrt (1 + 0 ^ 2).
Proof.
  split; [reflexivity|]. split; [reflexivity|].
  exact (proj1 hybridWith_blend (new_voter VoterCls [3; 4])
           (new_voter VoterCls [0; 0]) 0 eq_refl eq_refl).
Defined.

End Blending.

(** ** Random voters *)

Lemma M_bind_ok {A B} (m : M A) (f : A -> M B) w a w' :
  m w = Ok (a, w') -> (m ≫= f) w = f a w'.
Proof. intros H. unfold mbind, M_bind. now rewrite H. Qed.

Lemma gauss_draws_ok n w :
  exists us w', gauss_draws n w = Ok (us, w') /\ length us = n /\
                cluster_count w' = cluster_count w.
Proof.
  revert w. induction n as [|n IH]; intros w; simpl.
  - exists [], w. auto.
  - set (w1 := mkWorld (mkRng (fun k => gauss_tape (rng w) (S k))
                              (int_tape (rng w))) (cluster_count w)).
    destruct (IH w1) as (us & w' & Hd & Hlen & Hc).
    exists (gauss_tape (rng w) 0%nat :: us), w'.
    split; [|split; [simpl; congruence | exact Hc]].
    erewrite M_bind_ok by reflexivity. fold w1.
    erewrite M_bind_ok by exact Hd. reflexivity.
Qed.

Lemma Voter_rand_ok cls ncand w :
  exists us w', Voter_rand cls ncand w = Ok (new_voter cls us, w') /\
                length us = Z.to_nat ncand /\
                cluster_count w' = cluster_count w.
Proof.
  destruct (gauss_draws_ok (Z.to_nat ncand) w) as (us & w' & Hd & Hlen & Hc).
  exists us, w'. split; [|auto]. unfold Voter_rand.
  erewrite M_bind_ok by exact Hd. reflexivity.
Qed.

Lemma PersonalityVoter_rand_ok cls ncand w :
  exists us w' p,
    PersonalityVoter_rand cls ncand w =
      Ok (setattr (setattr (new_voter cls us) "cluster"
                     (VInt (cluster_count w))) "personality" (VFloat p), w') /\
    length us = Z.to_nat ncand /\
    cluster_count w' = (cluster_count w + 1)%Z.
Proof.
  destruct (Voter_rand_ok cls ncand w) as (us & w1 & Hv & Hlen & Hc).
  rewrite <- Hc.
  exists us. eexists. eexists. split; [|split; [exact Hlen|]].
  - unfold PersonalityVoter_rand. erewrite M_bind_ok by exact Hv.
    erewrite M_bind_ok by reflexivity. erewrite M_bind_ok by reflexivity.
    erewrite M_bind_ok by reflexivity. reflexivity.
  - reflexivity.
Qed.

Lemma rand_ok vType ncand w :
  exists v w', rand vType ncand w = Ok (v, w') /\ vclass v = vType /\
               length (utils v) = Z.to_nat ncand.
Proof.
  destruct vType; simpl.
  - destruct (Voter_rand_ok VoterCls ncand w) as (us & w' & H & Hlen & _).
    exists (new_voter VoterCls us), w'. auto.
  - destruct (PersonalityVoter_rand_ok PersonalityVoterCls ncand w)
      as (us & w' & p & H & Hlen & _).
    eexists. exists w'. split; [exact H|]. auto.
Qed.

Lemma mutantChild_Voter self mw w :
  vclass self = VoterCls ->
  exists v w', mutantChild self mw w = Ok (v, w') /\ vclass v = VoterCls /\
               length (utils v) = length (utils self).
Proof.
  intros Hcls.
  destruct (rand_ok (vclass self) (Z.of_nat (length (utils self))) w)
    as (other & w' & Hr & _ & Hlen).
  rewrite Nat2Z.id in Hlen.
  eexists. exists w'. split.
  - unfold mutantChild. erewrite M_bind_ok by exact Hr.
    rewrite hybridWith_Voter by auto. reflexivity.
  - simpl. now rewrite length_map, length_seq.
Qed.

Lemma mutantChild_Personality self mw w :
  vclass self = PersonalityVoterCls ->
  mutantChild self mw w = Raise TypeError.
Proof.
  intros Hcls.
  destruct (rand_ok (vclass self) (Z.of_nat (length (utils self))) w)
    as (other & w' & Hr & _ & Hlen).
  rewrite Nat2Z.id in Hlen.
  unfold mutantChild. erewrite M_bind_ok by exact Hr.
  rewrite hybridWith_Personality by auto. reflexivity.
Qed.

(** C4. A [PersonalityVoter] made by [rand] carries a cluster id (the
    counter's value) and a personality, yet no voter can be derived from it
    by blending: [hybridWith] on it raises for every other voter and weight
    ([TypeError] when the lengths agree, from the call of
    [super().copyWithUtils] with one argument too many), and so does
    [mutantChild].  Nothing is created that the attributes could be carried
    to. *)
Theorem PersonalityVoter_blend_raises (ncand : Z) (w : World) :
  exists (v : Voter) (w' : World) (p : R),
    rand PersonalityVoterCls ncand w = Ok (v, w') /\
    vclass v = PersonalityVoterCls /\
    attrs v !! "cluster" = Some (VInt (cluster_count w)) /\
    attrs v !! "personality" = Some (VFloat p) /\
    (forall v2 w2, is_ok (hybridWith v v2 w2) = false) /\
    (forall w2, hybridWith v v w2 = Raise TypeError) /\
    (forall mw w1, mutantChild v mw w1 = Raise TypeError).
Proof.
  destruct (PersonalityVoter_rand_ok PersonalityVoterCls ncand w)
    as (us & w' & p & H & Hlen & _).
  eexists. exists w', p. split; [exact H|].
  split; [reflexivity|]. split; [reflexivity|]. split; [reflexivity|].
  split; [|split].
  - intros v2 w2.
    destruct (Nat.eq_dec (length us) (length (utils v2))) as [He|Hne].
    + rewrite hybridWith_Personality; auto.
    + rewrite hybridWith_length_mismatch; auto.
  - intros w2. apply hybridWith_Personality; reflexivity.
  - intros mw w1. apply mutantChild_Personality. reflexivity.
Qed.

(** ** The mirrored-polarization model *)

Section Mirror.
Local Open Scope R_scope.

Lemma hybrid_util_mirror us i : hybrid_util us (map Ropp us) 1 i = 0.
Proof.
  unfold hybrid_util. replace 0 with (- 0) at 2 by lra.
  rewrite map_nth. pose proof (sqrt_blend_pos 1). field. lra.
Qed.

Lemma hybridWith_mirror base :
  hybridWith (new_voter VoterCls (utils base))
             (new_voter VoterCls (map Ropp (utils base))) 1 =
    Ok (new_voter VoterCls (map (fun _ => 0) (utils base))).
Proof.
  rewrite hybridWith_Voter; simpl; [|reflexivity | now rewrite length_map].
  do 2 f_equal.
  transitivity (map (fun _ : nat => 0) (seq 0 (length (utils base)))).
  - apply map_ext. intros i. apply hybrid_util_mirror.
  - generalize 0%nat. induction (utils base) as [|u us IH]; intros k;
      simpl; [reflexivity|]. now rewrite IH.
Qed.

(** C8. For an even [nvot] and any [ncand], [ReverseModel] returns
    [nvot/2] copies of one base voter followed by [nvot/2] copies of its
    negation, and the blend at weight 1 of any member of the first camp with
    any member of the second is a voter whose utilities are all zero. *)
Theorem ReverseModel_camps (nvot ncand : Z) (w : World) :
  (nvot mod 2 = 0)%Z ->
  exists (base : Voter) (w' : World),
    let half := Z.to_nat (nvot / 2) in
    let mirror := new_voter VoterCls (map Ropp (utils base)) in
    Model_call ReverseModel nvot ncand VoterCls w =
      Ok (replicate half base ++ replicate half mirror, w') /\
    length (replicate half base) = half /\
    length (replicate half mirror) = half /\
    length (utils base) = Z.to_nat ncand /\
    forall a b : Voter,
      In a (replicate half base) -> In b (replicate half mirror) ->
      exists z : Voter,
        hybridWith a b 1 = Ok z /\
        length (utils z) = Z.to_nat ncand /\
        Forall (fun u => u = 0) (utils z).
Proof.
  intros Heven.
  destruct (Voter_rand_ok VoterCls ncand w) as (us & w' & Hr & Hlen & _).
  exists (new_voter VoterCls us), w'. simpl.
  split; [|split; [|split; [|split]]].
  - unfold ReverseModel_call. rewrite Heven. simpl.
    erewrite M_bind_ok by exact Hr. reflexivity.
  - apply length_replicate.
  - apply length_replicate.
  - exact Hlen.
  - intros a b Ha Hb.
    apply list_elem_of_In, elem_of_replicate in Ha.
    apply list_elem_of_In, elem_of_replicate in Hb.
    destruct Ha as [-> _], Hb as [-> _].
    exists (new_voter VoterCls (map (fun _ => 0) us)).
    split; [apply (hybridWith_mirror (new_voter VoterCls us))|].
    simpl. split; [now rewrite length_map|].
    apply List.Forall_forall. intros u Hu. apply in_map_iff in Hu.
    now destruct Hu as (? & <- & _).
Qed.

Lemma ReverseModel_camps_witness :
  (4 mod 2 = 0)%Z /\
  exists (base : Voter) (w' : World),
    Model_call ReverseModel 4 3 VoterCls (const_world 1 0) =
      Ok (replicate 2 base ++
          replicate 2 (new_voter VoterCls (map Ropp (utils base))), w') /\
    length (utils base) = 3%nat.
Proof.
  split; [reflexivity|].
  destruct (ReverseModel_camps 4 3 (const_world 1 0) eq_refl)
    as (base & w' & H & _ & _ & Hlen & _).
  exists base, w'. split; [exact H | exact Hlen].
Defined.

End Mirror.

(** ** The reinforcing-urn model *)

Lemma random_randrange_ok n w :
  (0 < n)%Z ->
  exists i w', random_randrange n w = Ok (i, w') /\ (0 <= i < n)%Z.
Proof.
  intros Hn. unfold random_randrange.
  destruct (Z.leb_spec n 0) as [|_]; [lia|].
  eexists. eexists. split.
  - erewrite M_bind_ok by reflexivity. reflexivity.
  - pose proof (Nat.mod_upper_bound (int_tape (rng w) 0) (Z.to_nat n)). lia.
Qed.

Lemma polya_draw_ok alpha mutantFactor ncand election w :
  (0 < alpha)%Z -> all_plain election ->
  exists child w',
    polya_draw alpha mutantFactor ncand VoterCls election w = Ok (child, w') /\
    vclass child = VoterCls.
Proof.
  intros Halpha Hplain.
  destruct (random_randrange_ok (Z.of_nat (length election) + alpha) w)
    as (i & w1 & Hi & Hrange); [lia|].
  unfold polya_draw. erewrite M_bind_ok by exact Hi.
  destruct (Z.ltb_spec i (Z.of_nat (length election))) as [Hlt|Hge].
  - destruct (lookup_lt_is_Some_2 election (Z.to_nat i)) as [v Hv]; [lia|].
    assert (vclass v = VoterCls) as Hcls.
    { unfold all_plain in Hplain. rewrite List.Forall_forall in Hplain.
      apply Hplain. eapply list_elem_of_In, list_elem_of_lookup_2, Hv. }
    destruct (mutantChild_Voter v mutantFactor w1 Hcls)
      as (child & w' & Hm & Hc & _).
    exists child, w'. split; [|exact Hc].
    erewrite M_bind_ok; [exact Hm|]. unfold list_item. now rewrite Hv.
  - destruct (rand_ok VoterCls ncand w1) as (child & w' & Hr & Hc & _).
    exists child, w'. auto.
Qed.

Lemma polya_loop_grows alpha mutantFactor nvot ncand election w :
  (0 < alpha)%Z -> all_plain election ->
  exists extra w',
    polya_loop alpha mutantFactor nvot ncand VoterCls election w =
      Ok (election ++ extra, w') /\
    length extra = (Z.to_nat nvot - length election)%nat /\
    all_plain (election ++ extra).
Proof.
  intros Halpha.
  remember (Z.to_nat nvot - length election)%nat as n eqn:Hn.
  revert election w Hn.
  induction n as [|n IH]; intros election w Hn Hplain; simp polya_loop;
    destruct (Z_lt_dec (Z.of_nat (length election)) nvot) as [Hlt|Hge];
    simpl; try lia.
  - exists [], w. rewrite app_nil_r. auto.
  - destruct (polya_draw_ok alpha mutantFactor ncand election w Halpha Hplain)
      as (child & w1 & Hd & Hc).
    rewrite Hd.
    destruct (IH (election ++ [child]) w1) as (extra & w' & Hl & Hlen & Hp).
    { rewrite length_app. simpl. lia. }
    { apply Forall_app. split; [exact Hplain|]. now constructor. }
    exists (child :: extra), w'. rewrite <- app_assoc in Hl, Hp.
    split; [exact Hl|]. split; [|exact Hp]. simpl. now rewrite Hlen.
Qed.

Lemma M_bind_inv {A B} (m : M A) (f : A -> M B) w r :
  (m ≫= f) w = Ok r -> exists a w1, m w = Ok (a, w1) /\ f a w1 = Ok r.
Proof.
  unfold mbind, M_bind. destruct (m w) as [[a w1]|e]; [|discriminate].
  intros H. exists a, w1. auto.
Qed.

Lemma lift_inv {A} (r : result A) w a w' :
  lift r w = Ok (a, w') -> r = Ok a /\ w' = w.
Proof. unfold lift. destruct r; [|discriminate]. now intros [= -> ->]. Qed.

Lemma list_item_inv {A} (l : list A) i x :
  list_item l i = Ok x -> l !! i = Some x.
Proof.
  unfold list_item. destruct (l !! i); [|discriminate]. now intros [= ->].
Qed.

Lemma hybridWith_class self v2 w2 v :
  hybridWith self v2 w2 = Ok v -> vclass v = vclass self.
Proof.
  unfold hybridWith, copyWithUtils.
  destruct (length (utils self) =? length (utils v2))%nat; [|discriminate].
  destruct (vclass self) eqn:Hcls; [|discriminate].
  intros [= <-]. simpl. now rewrite Hcls.
Qed.

Lemma rand_class vType ncand w v w' :
  rand vType ncand w = Ok (v, w') -> vclass v = vType.
Proof.
  intros H. destruct (rand_ok vType ncand w) as (v0 & w0 & H0 & Hc & _).
  congruence.
Qed.

Lemma polya_draw_plain alpha mutantFactor ncand election w child w' :
  all_plain election ->
  polya_draw alpha mutantFactor ncand VoterCls election w = Ok (child, w') ->
  vclass child = VoterCls.
Proof.
  intros Hplain H. unfold polya_draw in H.
  apply M_bind_inv in H. destruct H as (i & w1 & _ & H).
  destruct (i <? Z.of_nat (length election))%Z.
  - apply M_bind_inv in H. destruct H as (v & w2 & Hv & H).
    apply lift_inv in Hv. destruct Hv as [Hl ->].
    apply list_item_inv in Hl.
    assert (vclass v = VoterCls) as Hcls.
    { unfold all_plain in Hplain. rewrite List.Forall_forall in Hplain.
      apply Hplain. eapply list_elem_of_In, list_elem_of_lookup_2, Hl. }
    unfold mutantChild in H. apply M_bind_inv in H.
    destruct H as (other & w3 & _ & H).
    apply lift_inv in H. destruct H as [Hh _].
    apply hybridWith_class in Hh. congruence.
  - eapply rand_class, H.
Qed.

Lemma polya_loop_plain alpha mutantFactor nvot ncand election w e w' :
  all_plain election ->
  polya_loop alpha mutantFactor nvot ncand VoterCls election w = Ok (e, w') ->
  all_plain e.
Proof.
  remember (Z.to_nat nvot - length election)%nat as n eqn:Hn.
  revert election w Hn.
  induction n as [|n IH]; intros election w Hn Hplain; simp polya_loop;
    destruct (Z_lt_dec (Z.of_nat (length election)) nvot) as [Hlt|Hge];
    simpl; try lia; try (now intros [= <- <-]).
  destruct (polya_draw alpha mutantFactor ncand VoterCls election w)
    as [[child w1]|] eqn:Hd; [|discriminate].
  apply IH.
  - rewrite length_app. simpl. lia.
  - apply Forall_app. split; [exact Hplain|]. constructor; [|constructor].
    eapply polya_draw_plain; eauto.
Qed.

Lemma repeatM_rand_plain n ncand w e w' :
  repeatM n (rand VoterCls ncand) w = Ok (e, w') -> all_plain e.
Proof.
  revert w e. induction n as [|n IH]; intros w e H; simpl in H.
  - injection H as <- <-. constructor.
  - apply M_bind_inv in H. destruct H as (v & w1 & Hv & H).
    apply M_bind_inv in H. destruct H as (vs & w2 & Hvs & H).
    injection H as <- <-. constructor; [eapply rand_class, Hv|].
    eapply IH, Hvs.
Qed.

Lemma mapR_hybridWith_plain q qWeight base e :
  all_plain base ->
  mapR (fun v => hybridWith v q qWeight) base = Ok e -> all_plain e.
Proof.
  revert e. induction base as [|v base IH]; intros e Hplain H; simpl in H.
  - injection H as <-. constructor.
  - inversion Hplain as [|? ? Hv Hrest]; subst.
    destruct (hybridWith v q qWeight) as [v'|] eqn:Hh; [|discriminate H].
    simpl in H.
    destruct (mapR (fun v => hybridWith v q qWeight) base) as [vs|];
      [|discriminate H].
    simpl in H. injection H as <-. constructor.
    + apply hybridWith_class in Hh. congruence.
    + now apply IH.
Qed.

Lemma Model_call_plain model nvot ncand w e w' :
  Model_call model nvot ncand VoterCls w = Ok (e, w') -> all_plain e.
Proof.
  revert nvot w e w'.
  induction model as [| |qWeight base IH|seedVoters alpha seed IH mf];
    intros nvot w e w' H; simpl in H.
  - eapply repeatM_rand_plain, H.
  - unfold ReverseModel_call in H.
    destruct (negb (nvot mod 2 =? 0)%Z); [discriminate H|].
    apply M_bind_inv in H. destruct H as (b & w1 & Hb & H).
    injection H as <- <-. apply rand_class in Hb.
    apply Forall_app. split; apply List.Forall_forall; intros v Hv;
      apply list_elem_of_In, elem_of_replicate in Hv; destruct Hv as [-> _];
      auto.
  - apply M_bind_inv in H. destruct H as (q & w1 & _ & H).
    apply M_bind_inv in H. destruct H as (b & w2 & Hb & H).
    apply lift_inv in H. destruct H as [Hm _].
    eapply mapR_hybridWith_plain; eauto.
  - apply M_bind_inv in H. destruct H as (s & w1 & Hs & H).
    eapply polya_loop_plain; eauto.
Qed.

(** One turn of the loop: below [nvot], the loop continues on the electorate
    with the drawn voter appended, which is one voter larger. *)
Lemma polya_loop_step alpha mutantFactor nvot ncand vType election w child w1 :
  (Z.of_nat (length election) < nvot)%Z ->
  polya_draw alpha mutantFactor ncand vType election w = Ok (child, w1) ->
  polya_loop alpha mutantFactor nvot ncand vType election w =
    polya_loop alpha mutantFactor nvot ncand vType (election ++ [child]) w1 /\
  length (election ++ [child]) = S (length election).
Proof.
  intros Hlt Hd. split.
  - rewrite polya_loop_equation_1.
    destruct (Z_lt_dec (Z.of_nat (length election)) nvot); [|lia].
    simpl. now rewrite Hd.
  - rewrite length_app. simpl. lia.
Qed.

(** C7 (amended). With a positive [alpha] and a seed electorate returned by
    the seed model, the loop of [PolyaModel] ends without raising after
    exactly [max(0, nvot - len(seed))] turns, each appending one voter to
    the seed electorate.  The final size is [max(len(seed), nvot)]: it is
    [nvot] when the seed electorate is no larger than [nvot]; a larger seed
    electorate is returned as it is. *)
Theorem PolyaModel_size (seedVoters alpha : Z) (seedModel : Model)
    (mutantFactor : R) (nvot ncand : Z) (w w1 : World) (seed : Electorate) :
  (0 < alpha)%Z ->
  Model_call seedModel seedVoters ncand VoterCls w = Ok (seed, w1) ->
  exists (extra : list Voter) (w' : World),
    Model_call (PolyaModel seedVoters alpha seedModel mutantFactor)
               nvot ncand VoterCls w = Ok (seed ++ extra, w') /\
    length extra = (Z.to_nat nvot - length seed)%nat /\
    length (seed ++ extra) = Nat.max (length seed) (Z.to_nat nvot) /\
    ((length seed <= Z.to_nat nvot)%nat ->
     length (seed ++ extra) = Z.to_nat nvot).
Proof.
  intros Halpha Hseed.
  destruct (polya_loop_grows alpha mutantFactor nvot ncand seed w1 Halpha)
    as (extra & w' & Hl & Hlen & _).
  { eapply Model_call_plain, Hseed. }
  exists extra, w'. simpl. erewrite M_bind_ok by exact Hseed.
  split; [exact Hl|]. split; [exact Hlen|].
  rewrite length_app, Hlen. lia.
Qed.

Lemma PolyaModel_size_witness :
  (0 < 1)%Z /\
  exists seed w1 extra w',
    Model_call RandomModel 1 2 VoterCls (const_world 1 0) = Ok (seed, w1) /\
    Model_call (PolyaModel 1 1 RandomModel (1 / 5)) 3 2 VoterCls
               (const_world 1 0) = Ok (seed ++ extra, w') /\
    length (seed ++ extra) = 3%nat.
Proof.
  split; [reflexivity|].
  eexists. eexists.
  destruct (PolyaModel_size 1 1 RandomModel (1 / 5) 3 2 (const_world 1 0)
              _ _ eq_refl eq_refl) as (extra & w' & H & _ & _ & Hlen).
  exists extra, w'. split; [reflexivity|]. split; [exact H|].
  apply Hlen. simpl. lia.
Defined.

(** C7 (as stated) fails: with all the defaults, [PolyaModel()(1, 1)]
    returns the two seed voters, one more than the voter requested. *)
Lemma PolyaModel_default_exceeds_nvot :
  match Model_call PolyaModel_default 1 1 VoterCls (const_world 0 0) with
  | Ok (e, _) => length e = 2%nat /\ length e <> Z.to_nat 1
  | Raise _ => False
  end.
Proof.
  assert (exists v1 v2 w1,
             Model_call QModel_default 2 1 VoterCls (const_world 0 0) =
               Ok ([v1; v2], w1)) as (v1 & v2 & w1 & Hseed).
  { eexists. eexists. eexists. reflexivity. }
  destruct (polya_loop_grows 1 (2 / 10) 1 1 [v1; v2] w1)
    as (extra & w' & Hl & Hlen & _); [lia | |].
  { eapply Model_call_plain, Hseed. }
  unfold PolyaModel_default. simpl Model_call.
  erewrite M_bind_ok by exact Hseed. rewrite Hl.
  destruct extra; [|discriminate Hlen].
  simpl. split; [reflexivity | lia].
Qed.

(** ** The winner *)

Section Winner.
Local Open Scope R_scope.

Lemma winners_from_cons k x res m :
  winners_from k (x :: res) m =
    if Reqb x m then k :: winners_from (S k) res m
    else winners_from (S k) res m.
Proof. unfold winners_from. simpl. now destruct (Reqb x m). Qed.

Lemma winners_from_In k res m i :
  In i (winners_from k res m) <->
  (k <= i < k + length res)%nat /\ nth (i - k) res 0 = m.
Proof.
  revert k. induction res as [|x res IH]; intros k.
  - unfold winners_from. simpl. split; [tauto | lia].
  - rewrite winners_from_cons.
    assert (In i (winners_from (S k) res m) <->
            (k < i < k + length (x :: res))%nat /\
            nth (i - k) (x :: res) 0 = m) as Htail.
    { rewrite IH. simpl length. split; intros [Hr Hn]; (split; [lia|]).
      - replace (i - k)%nat with (S (i - S k)) by lia. exact Hn.
      - replace (i - k)%nat with (S (i - S k)) in Hn by lia. exact Hn. }
    destruct (Reqb x m) eqn:Hx.
    + apply Reqb_eq in Hx. simpl In. rewrite Htail. simpl length.
      split.
      * intros [<-|[Hr Hn]]; [|split; [lia | exact Hn]].
        split; [lia|]. now rewrite Nat.sub_diag.
      * intros [Hr Hn]. destruct (Nat.eq_dec k i); [now left|right].
        split; [lia | exact Hn].
    + rewrite Htail. simpl length. split; intros [Hr Hn].
      * split; [lia | exact Hn].
      * split; [|exact Hn].
        destruct (Nat.eq_dec k i) as [<-|]; [|lia].
        rewrite Nat.sub_diag in Hn. simpl in Hn.
        rewrite Reqb_true in Hx by exact Hn. discriminate.
Qed.

Lemma winners_from_NoDup k res m : List.NoDup (winners_from k res m).
Proof.
  revert k. induction res as [|x res IH]; intros k.
  - apply List.NoDup_nil.
  - rewrite winners_from_cons. destruct (Reqb x m); [|apply IH].
    apply List.NoDup_cons; [|apply IH].
    rewrite winners_from_In. lia.
Qed.

Lemma winners_In res m i :
  In i (winners res m) <-> (i < length res)%nat /\ nth i res 0 = m.
Proof.
  change (winners res m) with (winners_from 0 res m).
  rewrite winners_from_In, Nat.sub_0_r. intuition lia.
Qed.

Lemma py_max_spec res :
  res <> [] ->
  exists m, py_max res = Ok m /\ In m res /\ forall x, In x res -> x <= m.
Proof.
  destruct res as [|x res]; [congruence|]. intros _.
  exists (fold_left Rmax res x). split; [reflexivity|]. split.
  - apply fold_left_Rmax_In.
  - intros y Hy. now apply fold_left_Rmax_upper.
Qed.

Lemma winners_top res m :
  In m res -> (forall x, In x res -> x <= m) ->
  forall i, In i (winners res m) <-> is_top res i.
Proof.
  intros Hin Hmax i. rewrite winners_In. unfold is_top.
  split; intros [Hi H]; (split; [exact Hi|]).
  - intros j Hj. rewrite H. apply Hmax, nth_In, Hj.
  - apply (In_nth _ _ 0) in Hin. destruct Hin as (j & Hj & <-).
    apply Rle_antisym; [apply Hmax, nth_In, Hi | apply H, Hj].
Qed.

Lemma random_choice_nth {A} (l : list A) (d : A) w :
  l <> [] ->
  exists w',
    random_choice l w = Ok (nth (int_tape (rng w) 0 mod length l) l d, w').
Proof.
  destruct l as [|x l]; [congruence|]. intros _.
  eexists. unfold random_choice. erewrite M_bind_ok by reflexivity.
  unfold mret, M_ret. do 2 f_equal. apply nth_indep.
  apply Nat.mod_upper_bound. discriminate.
Qed.

Lemma winner_draw res :
  res <> [] ->
  exists m,
    py_max res = Ok m /\ winners res m <> [] /\
    (forall i, In i (winners res m) <-> is_top res i) /\
    forall w, exists w',
      winner res w =
        Ok (nth (int_tape (rng w) 0 mod length (winners res m))
                (winners res m) 0%nat, w').
Proof.
  intros Hne. destruct (py_max_spec res Hne) as (m & Hm & Hin & Hmax).
  exists m. split; [exact Hm|].
  assert (winners res m <> []) as Hws.
  { apply (In_nth _ _ 0) in Hin. destruct Hin as (j & Hj & Hnth).
    assert (In j (winners res m)) as Hjw by (apply winners_In; auto).
    intros E. rewrite E in Hjw. destruct Hjw. }
  split; [exact Hws|]. split; [now apply winners_top|].
  intros w. destruct (random_choice_nth (winners res m) 0%nat w Hws) as [w' Hc].
  exists w'. unfold winner. rewrite Hm.
  erewrite M_bind_ok by reflexivity. exact Hc.
Qed.

End Winner.

Section WinnerSpec.
Local Open Scope R_scope.

(** Settles [is_top] and its negation on a list of numerals. *)
Ltac nth_cases j :=
  repeat (destruct j as [|j];
          [simpl in *; try lia; try lra; try (exfalso; lra)
          |try (exfalso; simpl in *; lia)]).

(** C6. On a non-empty results vector, [winner] returns a candidate whose
    score is the maximum.  The candidates it can return are exactly those
    with the maximum score: they form a duplicate-free list [ws], and the
    call returns the entry of [ws] at the position given by the draw of
    [random.choice] (an integer below [len(ws)]), so that every tied
    candidate is returned for some draw, each for one value of the draw, and
    no other candidate ever is.  A candidate that alone has the maximum is
    always returned; [winner([1,2,3,2,-100])] is [2]. *)
Theorem winner_top_uniform :
  (forall res : list R, res <> [] ->
     exists ws : list nat,
       ws <> [] /\ List.NoDup ws /\
       (forall i, In i ws <-> is_top res i) /\
       (forall w, exists w',
           winner res w =
             Ok (nth (int_tape (rng w) 0 mod length ws) ws 0%nat, w')) /\
       (forall w i w', winner res w = Ok (i, w') -> is_top res i) /\
       (forall i, is_top res i -> exists w w', winner res w = Ok (i, w')) /\
       (forall i, is_top res i -> (forall j, is_top res j -> j = i) ->
                  forall w, exists w', winner res w = Ok (i, w'))) /\
  (forall w, exists w', winner [1; 2; 3; 2; -100] w = Ok (2%nat, w')).
Proof.
  assert (forall res : list R, res <> [] ->
     exists ws : list nat,
       ws <> [] /\ List.NoDup ws /\
       (forall i, In i ws <-> is_top res i) /\
       (forall w, exists w',
           winner res w =
             Ok (nth (int_tape (rng w) 0 mod length ws) ws 0%nat, w')) /\
       (forall w i w', winner res w = Ok (i, w') -> is_top res i) /\
       (forall i, is_top res i -> exists w w', winner res w = Ok (i, w')) /\
       (forall i, is_top res i -> (forall j, is_top res j -> j = i) ->
                  forall w, exists w', winner res w = Ok (i, w'))) as General.
  { intros res Hne.
    destruct (winner_draw res Hne) as (m & Hm & Hws & Htop & Hdraw).
    exists (winners res m).
    assert (forall w, In (nth (int_tape (rng w) 0 mod length (winners res m))
                              (winners res m) 0%nat) (winners res m)) as Hin.
    { intros w. apply nth_In, Nat.mod_upper_bound.
      destruct (winners res m); [congruence | discriminate]. }
    split; [exact Hws|]. split; [apply winners_from_NoDup|].
    split; [exact Htop|]. split; [exact Hdraw|]. split; [|split].
    - intros w i w' H. destruct (Hdraw w) as [w0 H0].
      rewrite H0 in H. injection H as <- _. apply Htop, Hin.
    - intros i Hi. apply Htop in Hi.
      apply (In_nth _ _ 0%nat) in Hi. destruct Hi as (k & Hk & Hnth).
      exists (const_world 0 k). destruct (Hdraw (const_world 0 k)) as [w' H].
      exists w'. rewrite H. simpl. rewrite Nat.mod_small by exact Hk.
      now rewrite Hnth.
    - intros i Hi Huniq w. destruct (Hdraw w) as [w' H]. exists w'.
      rewrite H. do 2 f_equal. apply Huniq, Htop, Hin. }
  split; [exact General|].
  intros w.
  destruct (General [1; 2; 3; 2; -100]) as (ws & _ & _ & _ & _ & _ & _ & Hu);
    [discriminate|].
  apply Hu.
  - split; [simpl; lia|]. intros j Hj. nth_cases j.
  - intros j [Hj Hmax]. specialize (Hmax 2%nat ltac:(simpl; lia)).
    nth_cases j.
Qed.

Lemma winner_top_uniform_witness :
  [1; 2; 1; 3; 3; 3; 2; 1; 2] <> [] /\
  (exists w w', winner [1; 2; 1; 3; 3; 3; 2; 1; 2] w = Ok (3%nat, w')) /\
  (exists w w', winner [1; 2; 1; 3; 3; 3; 2; 1; 2] w = Ok (4%nat, w')) /\
  (exists w w', winner [1; 2; 1; 3; 3; 3; 2; 1; 2] w = Ok (5%nat, w')) /\
  (forall w i w', winner [1; 2; 1; 3; 3; 3; 2; 1; 2] w = Ok (i, w') ->
                  (2 < i < 6)%nat).
Proof.
  assert ([1; 2; 1; 3; 3; 3; 2; 1; 2] <> []) as Hne by discriminate.
  split; [exact Hne|].
  destruct (proj1 winner_top_uniform _ Hne)
    as (ws & _ & _ & _ & _ & Hsound & Hall & _).
  split; [|split; [|split]].
  - apply Hall. split; [simpl; lia|]. intros j Hj. nth_cases j.
  - apply Hall. split; [simpl; lia|]. intros j Hj. nth_cases j.
  - apply Hall. split; [simpl; lia|]. intros j Hj. nth_cases j.
  - intros w i w' H. apply Hsound in H. destruct H as [Hi Hmax].
    specialize (Hmax 3%nat ltac:(simpl; lia)). simpl in Hmax.
    nth_cases i.
Defined.

End WinnerSpec.

(** ** Attribute names *)

Lemma append_inj_l (s a b : string) : s +:+ a = s +:+ b -> a = b.
Proof. induction s as [|c s IH]; simpl; [auto|]. intros [= H]. auto. Qed.

Lemma append_assoc (s a b : string) : (s +:+ a) +:+ b = s +:+ (a +:+ b).
Proof.
  induction s as [|c s IH]; [reflexivity|].
  change (String c ((s +:+ a) +:+ b) = String c (s +:+ (a +:+ b))).
  now f_equal.
Qed.

Lemma hon_key cls : (cls +:+ "_") +:+ drop_last 6 "honBallot" = cls +:+ "_hon".
Proof. apply append_assoc. Qed.

Lemma strat_key cls :
  (cls +:+ "_") +:+ drop_last 6 "stratBallot" = cls +:+ "_strat".
Proof. apply append_assoc. Qed.

Lemma strat_key_not_flag cls : cls +:+ "_strat" <> cls +:+ "_isStrat".
Proof. intros H. apply append_inj_l in H. discriminate. Qed.

Lemma strat_key_not_hon cls : cls +:+ "_strat" <> cls +:+ "_hon".
Proof. intros H. apply append_inj_l in H. discriminate. Qed.

Lemma mapR_ok {A B} (f : A -> result B) (g : A -> B) (l : list A) :
  (forall x, In x l -> f x = Ok (g x)) -> mapR f l = Ok (map g l).
Proof.
  induction l as [|x l IH]; intros H; simpl; [reflexivity|].
  rewrite H by now left. simpl. rewrite IH; [reflexivity|].
  intros y Hy. apply H. now right.
Qed.

(** ** The frontrunners *)

Lemma insert_by_head {A} (key : A -> nat) x (l : list A) :
  (forall y, head l = Some y -> (key x <= key y)%nat) ->
  insert_by key x l = x :: l.
Proof.
  destruct l as [|y l]; simpl; [reflexivity|]. intros H.
  destruct (Nat.leb_spec (key x) (key y)) as [|Hlt]; [reflexivity|].
  specialize (H y eq_refl). lia.
Qed.

Lemma sorted_by_enumerate (k : nat) (l : list R) :
  sorted_by fst (combine (seq k (length l)) l) = combine (seq k (length l)) l.
Proof.
  revert k. induction l as [|x l IH]; intros k; simpl; [reflexivity|].
  unfold sorted_by in *. simpl. rewrite IH. apply insert_by_head.
  destruct l; simpl; [discriminate|]. intros y [= <-]. simpl. lia.
Qed.

Lemma places_enumerate info : places info = enumerate info.
Proof. apply sorted_by_enumerate. Qed.

Lemma Score_frontrunners_first_two x y info :
  Score_frontrunners (x :: y :: info) = Ok (0%nat, 1%nat).
Proof. unfold Score_frontrunners. rewrite places_enumerate. reflexivity. Qed.

Lemma Score_frontrunners_inv info front :
  Score_frontrunners info = Ok front -> front = (0%nat, 1%nat).
Proof.
  destruct info as [|x [|y info]]; [discriminate | discriminate |].
  rewrite Score_frontrunners_first_two. now intros [= <-].
Qed.

Section Frontrunners.
Local Open Scope R_scope.

(** C2. The frontrunners that [stratBallotFor] computes are candidates 0
    and 1 for every poll with two candidates or more (the poll is sorted by
    the candidate's index, which leaves it as it is), for Score and for Mav
    alike.  On the poll [[1, 2, 3]] the two highest-scoring candidates are 2
    and 1, and the code's pair (0, 1) is not the two highest-scoring. *)
Theorem frontrunners_first_two :
  (forall (x y : R) (info : list R),
      Score_frontrunners (x :: y :: info) = Ok (0%nat, 1%nat) /\
      Mav_frontrunners (x :: y :: info) = Ok (0%nat, 1%nat, x, y)) /\
  Score_frontrunners [1; 2; 3] = Ok (0%nat, 1%nat) /\
  is_top_two [1; 2; 3] 2 1 /\
  ~ is_top_two [1; 2; 3] 0 1.
Proof.
  split; [|split; [|split]].
  - intros x y info. split; [apply Score_frontrunners_first_two|].
    unfold Mav_frontrunners. rewrite places_enumerate. reflexivity.
  - apply Score_frontrunners_first_two.
  - unfold is_top_two. simpl. repeat split; try lia.
    + intros j Hj. do 3 (destruct j as [|j]; [simpl; lra|]). lia.
    + intros j Hj Hne.
      do 3 (destruct j as [|j]; [simpl; try lra; lia|]). lia.
  - intros (_ & _ & _ & H & _). specialize (H 2%nat ltac:(simpl; lia)).
    simpl in H. lra.
Qed.

End Frontrunners.

(** ** Score's honest ballot *)

Section ScoreHonest.
Local Open Scope R_scope.

Lemma py_min_spec l lo :
  py_min l = Ok lo -> In lo l /\ forall x, In x l -> lo <= x.
Proof.
  destruct l as [|a l]; [discriminate|]. intros [= <-]. split.
  - apply fold_left_Rmin_In.
  - intros x Hx. now apply fold_left_Rmin_lower.
Qed.

Lemma py_max_inv l hi :
  py_max l = Ok hi -> In hi l /\ forall x, In x l -> x <= hi.
Proof.
  destruct l as [|a l]; [discriminate|]. intros [= <-]. split.
  - apply fold_left_Rmax_In.
  - intros x Hx. now apply fold_left_Rmax_upper.
Qed.

Lemma score_vote_ok lo span util :
  span <> 0 ->
  score_vote lo span util = Ok (floor (1099 / 100 * (util - lo) / span)).
Proof. intros H. unfold score_vote. now rewrite py_div_ok. Qed.

Lemma floor_0 : floor 0 = 0.
Proof. apply (floor_unique 0). lra. Qed.

Lemma floor_1099 : floor (1099 / 100) = 10.
Proof. apply (floor_unique 10). lra. Qed.

Lemma Score_honBallot_value cls voter lo hi :
  py_min (utils voter) = Ok lo -> py_max (utils voter) = Ok hi -> lo <> hi ->
  let ballot :=
    map (fun u => floor (1099 / 100 * (u - lo) / (hi - lo))) (utils voter) in
  Score_honBallot cls voter =
    Ok (VList ballot, setattr voter (cls +:+ "_hon") (VList ballot)).
Proof.
  intros Hlo Hhi Hne ballot.
  unfold Score_honBallot, rememberBallot, Score_honBallot_body.
  rewrite Hlo, Hhi. simpl.
  rewrite (mapR_ok _ (fun u => floor (1099 / 100 * (u - lo) / (hi - lo)))).
  - simpl. now rewrite hon_key.
  - intros u _. apply score_vote_ok. lra.
Qed.

Lemma Score_honBallot_flat cls voter u us :
  utils voter = u :: us -> py_min (utils voter) = py_max (utils voter) ->
  Score_honBallot cls voter = Raise ZeroDivisionError.
Proof.
  intros Hus Heq.
  unfold Score_honBallot, rememberBallot, Score_honBallot_body.
  rewrite Heq, Hus. simpl.
  unfold score_vote. now rewrite Rminus_diag, py_div_zero.
Qed.

Lemma scaled_vote_bounds lo hi u :
  lo < hi -> lo <= u <= hi ->
  0 <= floor (1099 / 100 * (u - lo) / (hi - lo)) <= 10.
Proof.
  intros Hlt Hu.
  assert (0 <= (u - lo) / (hi - lo) <= 1) as Ht.
  { assert ((u - lo) / (hi - lo) * (hi - lo) = u - lo) as Ht by (field; lra).
    split; nra. }
  replace (1099 / 100 * (u - lo) / (hi - lo))
    with (1099 / 100 * ((u - lo) / (hi - lo))) by (field; lra).
  rewrite <- floor_0, <- floor_1099. split; apply floor_mono; nra.
Qed.

End ScoreHonest.

Section ScoreHonestSpec.
Local Open Scope R_scope.

(** C9 (amended). For every voter with two different utilities, Score's
    honest ballot is returned (and memoized as [cls_hon]); with [lo] and
    [hi] the voter's own minimum and maximum utility, the entry for utility
    [u] is [floor(10.99 * (u - lo) / (hi - lo))]: it lies in [0, 10], is 0
    for every candidate at [lo] and 10 for every candidate at [hi], and
    grows with the utility. *)
Theorem Score_honBallot_scale (cls : string) (voter : Voter) (x y : R) :
  In x (utils voter) -> In y (utils voter) -> x <> y ->
  exists (lo hi : R) (ballot : list R),
    py_min (utils voter) = Ok lo /\ py_max (utils voter) = Ok hi /\
    lo < hi /\
    Score_honBallot cls voter =
      Ok (VList ballot, setattr voter (cls +:+ "_hon") (VList ballot)) /\
    ballot =
      map (fun u => floor (1099 / 100 * (u - lo) / (hi - lo))) (utils voter) /\
    length ballot = length (utils voter) /\
    (forall i : nat, (i < length (utils voter))%nat ->
       0 <= nth i ballot 0 <= 10 /\
       (nth i (utils voter) 0 = lo -> nth i ballot 0 = 0) /\
       (nth i (utils voter) 0 = hi -> nth i ballot 0 = 10)) /\
    (forall i j : nat,
       (i < length (utils voter))%nat -> (j < length (utils voter))%nat ->
       nth i (utils voter) 0 <= nth j (utils voter) 0 ->
       nth i ballot 0 <= nth j ballot 0).
Proof.
  intros Hx Hy Hxy.
  destruct (py_min (utils voter)) as [lo|] eqn:Hlo.
  2:{ destruct (utils voter); [destruct Hx | discriminate]. }
  destruct (py_max (utils voter)) as [hi|] eqn:Hhi.
  2:{ destruct (utils voter); [destruct Hx | discriminate]. }
  destruct (py_min_spec _ _ Hlo) as [_ Hmin].
  destruct (py_max_inv _ _ Hhi) as [_ Hmax].
  assert (lo < hi) as Hlt.
  { pose proof (Hmin x Hx). pose proof (Hmin y Hy).
    pose proof (Hmax x Hx). pose proof (Hmax y Hy).
    destruct (Rlt_dec lo hi); [assumption | exfalso; apply Hxy; lra]. }
  set (vote := fun u => floor (1099 / 100 * (u - lo) / (hi - lo))).
  assert (forall i, (i < length (utils voter))%nat ->
            nth i (map vote (utils voter)) 0 = vote (nth i (utils voter) 0))
    as Hnth.
  { intros i Hi. rewrite (nth_indep _ 0 (vote 0)) by now rewrite length_map.
    apply map_nth. }
  exists lo, hi, (map vote (utils voter)).
  split; [reflexivity|]. split; [reflexivity|]. split; [exact Hlt|].
  split; [apply Score_honBallot_value; auto; lra|].
  split; [reflexivity|]. split; [apply length_map|]. split.
  - intros i Hi. rewrite Hnth by exact Hi. unfold vote.
    assert (In (nth i (utils voter) 0) (utils voter)) as Hin
      by (apply nth_In, Hi).
    split; [|split].
    + apply scaled_vote_bounds; [exact Hlt|]. split; [apply Hmin | apply Hmax];
        exact Hin.
    + intros ->. rewrite <- floor_0. f_equal. field. lra.
    + intros ->. rewrite <- floor_1099. f_equal. field. lra.
  - intros i j Hi Hj Hle. rewrite !Hnth by assumption. unfold vote.
    apply floor_mono.
    assert (/ (hi - lo) > 0) by (apply Rinv_0_lt_compat; lra).
    unfold Rdiv. nra.
Qed.

Lemma Score_honBallot_scale_witness :
  In 1 (utils (new_voter VoterCls [1; 2])) /\
  In 2 (utils (new_voter VoterCls [1; 2])) /\ 1 <> 2 /\
  exists ballot : list R,
    Score_honBallot "Score" (new_voter VoterCls [1; 2]) =
      Ok (VList ballot,
          setattr (new_voter VoterCls [1; 2]) "Score_hon" (VList ballot)) /\
    length ballot = 2%nat.
Proof.
  assert (In 1 (utils (new_voter VoterCls [1; 2]))) as H1 by (simpl; auto).
  assert (In 2 (utils (new_voter VoterCls [1; 2]))) as H2 by (simpl; auto).
  assert (1 <> 2) as Hne by lra.
  split; [exact H1|]. split; [exact H2|]. split; [exact Hne|].
  destruct (Score_honBallot_scale "Score" (new_voter VoterCls [1; 2]) 1 2
              H1 H2 Hne) as (lo & hi & ballot & _ & _ & _ & H & _ & Hlen & _).
  exists ballot. split; [exact H | exact Hlen].
Defined.

(** C9 (as stated) fails on a voter for whom all candidates are equal:
    [Score.honBallot] on [Voter([1, 1])] divides by the zero scale and
    returns no ballot. *)
Lemma Score_honBallot_flat_voter :
  Score_honBallot "Score" (new_voter VoterCls [1; 1]) =
    Raise ZeroDivisionError.
Proof.
  apply (Score_honBallot_flat _ _ 1 [1]); [reflexivity|].
  simpl. now rewrite Rmin_left, Rmax_left by lra.
Qed.

End ScoreHonestSpec.

(** ** The one-sided ballot *)

Section OneSided.
Local Open Scope R_scope.

Lemma ossBallot_flagged cls voter :
  attrs voter !! (cls +:+ "_isStrat") = Some (VBool true) ->
  ossBallot cls voter =
    match attrs voter !! (cls +:+ "_strat") with
    | Some s => Ok (s, voter)
    | None => Raise AttributeError
    end.
Proof.
  intros Hflag. unfold ossBallot, getattr_default, getattr.
  rewrite Hflag. simpl. now destruct (attrs voter !! (cls +:+ "_strat")).
Qed.

Lemma ossBallot_unflagged cls voter :
  attrs voter !! (cls +:+ "_isStrat") = None \/
  attrs voter !! (cls +:+ "_isStrat") = Some (VBool false) ->
  ossBallot cls voter =
    match attrs voter !! (cls +:+ "_hon") with
    | Some h => Ok (h, voter)
    | None => Raise AttributeError
    end.
Proof.
  intros Hflag. unfold ossBallot, getattr_default, getattr.
  destruct Hflag as [-> | ->]; simpl;
    now destruct (attrs voter !! (cls +:+ "_hon")).
Qed.

(** C5 (amended). [ossBallot] returns the memoized strategic ballot when
    the voter's flag [cls_isStrat] is set and true, and the memoized honest
    ballot when the flag is false or was never set; it leaves the voter as
    it is.  It fails (with [AttributeError]) exactly when the one ballot it
    selects was not memoized: the other ballot is not looked at, and its
    absence is no error. *)
Theorem ossBallot_selects (cls : string) (voter : Voter) :
  let flag := attrs voter !! (cls +:+ "_isStrat") in
  let strat := attrs voter !! (cls +:+ "_strat") in
  let hon := attrs voter !! (cls +:+ "_hon") in
  (forall s, flag = Some (VBool true) -> strat = Some s ->
             ossBallot cls voter = Ok (s, voter)) /\
  (forall h, flag = None \/ flag = Some (VBool false) -> hon = Some h ->
             ossBallot cls voter = Ok (h, voter)) /\
  (flag = Some (VBool true) -> strat = None ->
   ossBallot cls voter = Raise AttributeError) /\
  (flag = None \/ flag = Some (VBool false) -> hon = None ->
   ossBallot cls voter = Raise AttributeError).
Proof.
  simpl. repeat split.
  - intros s Hf Hs. now rewrite ossBallot_flagged, Hs.
  - intros h Hf Hh. now rewrite ossBallot_unflagged, Hh.
  - intros Hf Hs. now rewrite ossBallot_flagged, Hs.
  - intros Hf Hh. now rewrite ossBallot_unflagged, Hh.
Qed.

Lemma hon_only_voter_attrs :
  attrs hon_only_voter !! "Score_isStrat" = None /\
  attrs hon_only_voter !! "Score_strat" = None /\
  attrs hon_only_voter !! "Score_hon" = Some (VList [0; 10]).
Proof.
  unfold hon_only_voter, setattr, new_voter. simpl.
  split; [|split]; reflexivity.
Qed.

Lemma ossBallot_selects_witness :
  (attrs hon_only_voter !! ("Score" +:+ "_isStrat") = None \/
   attrs hon_only_voter !! ("Score" +:+ "_isStrat") = Some (VBool false)) /\
  attrs hon_only_voter !! ("Score" +:+ "_hon") = Some (VList [0; 10]) /\
  ossBallot "Score" hon_only_voter = Ok (VList [0; 10], hon_only_voter).
Proof.
  destruct hon_only_voter_attrs as (Hf & _ & Hh).
  split; [left; exact Hf|]. split; [exact Hh|].
  exact (proj1 (proj2 (ossBallot_selects "Score" hon_only_voter))
           (VList [0; 10]) (or_introl Hf) Hh).
Defined.

Lemma Score_honBallot_1_2 :
  Score_honBallot "Score" (new_voter VoterCls [1; 2]) =
    Ok (VList [0; 10], hon_only_voter).
Proof.
  rewrite (Score_honBallot_value _ _ 1 2); simpl.
  - replace (1099 / 100 * (1 - 1) / (2 - 1)) with 0 by lra.
    replace (1099 / 100 * (2 - 1) / (2 - 1)) with (1099 / 100) by lra.
    rewrite floor_0, floor_1099. reflexivity.
  - now rewrite Rmin_left by lra.
  - now rewrite Rmax_right by lra.
  - lra.
Qed.

(** C5 (as stated) fails on a voter for whom only the honest ballot was
    computed: after [Score.honBallot] on [Voter([1, 2])] no strategic ballot
    is memoized, yet [ossBallot] does not fail; it returns the honest
    ballot. *)
Lemma ossBallot_without_strat :
  Score_honBallot "Score" (new_voter VoterCls [1; 2]) =
    Ok (VList [0; 10], hon_only_voter) /\
  getattr hon_only_voter "Score_strat" = Raise AttributeError /\
  ossBallot "Score" hon_only_voter = Ok (VList [0; 10], hon_only_voter).
Proof.
  destruct hon_only_voter_attrs as (Hf & Hs & Hh).
  split; [exact Score_honBallot_1_2|]. split.
  - unfold getattr. now rewrite Hs.
  - rewrite ossBallot_unflagged by (left; exact Hf).
    change ("Score" +:+ "_hon") with "Score_hon". now rewrite Hh.
Qed.

End OneSided.

(** ** Tied frontrunners *)

Section Tied.
Local Open Scope R_scope.

Lemma Rltb_nlt x y : Rltb x y = false -> y <= x.
Proof. unfold Rltb. destruct (Rlt_dec x y); [discriminate | lra]. Qed.

Lemma Reqb_neq x y : Reqb x y = false -> x <> y.
Proof. unfold Reqb. destruct (Req_dec_T x y); [discriminate | auto]. Qed.

Lemma stratBallot_tied cls voter c :
  list_item (utils voter) 0 = Ok c -> list_item (utils voter) 1 = Ok c ->
  let degenerate :=
    VList (map (fun util => if Rleb c util then 10 else 0) (utils voter)) in
  rememberBallot "stratBallot" (Score_stratBallot_body (0%nat, 1%nat))
                 cls voter =
    Ok (degenerate, setattr voter (cls +:+ "_strat") degenerate).
Proof.
  intros H0 H1 degenerate.
  unfold rememberBallot, Score_stratBallot_body. simpl fst. simpl snd.
  rewrite H0, H1. simpl. rewrite Reqb_true by reflexivity. simpl.
  now rewrite strat_key.
Qed.

Lemma stratBallot_flag cls c us a b v' :
  rememberBallot "stratBallot" (Score_stratBallot_body (0%nat, 1%nat))
                 cls (mkVoter c us a) = Ok (b, v') ->
  flag_sound cls us a -> flag_sound cls us (attrs v').
Proof.
  unfold rememberBallot, Score_stratBallot_body. simpl fst. simpl snd.
  simpl utils.
  destruct (list_item us 0) as [c0|] eqn:H0; [|discriminate].
  destruct (list_item us 1) as [c1|] eqn:H1; [|discriminate].
  simpl. destruct (Reqb c0 c1) eqn:Heq; simpl.
  - intros [= _ <-] Hs. unfold flag_sound in *. simpl.
    rewrite strat_key, lookup_insert_ne by apply strat_key_not_flag.
    exact Hs.
  - match goal with |- context [mapR ?f us] => destruct (mapR f us) end;
      [|discriminate].
    simpl. intros [= _ <-] _. unfold flag_sound. simpl.
    rewrite strat_key, lookup_insert_ne by apply strat_key_not_flag.
    rewrite lookup_insert_eq.
    destruct (Rltb c1 c0) eqn:Hlt; simpl; [exact I|].
    exists c0, c1. split; [exact H0|]. split; [exact H1|].
    apply Rltb_nlt in Hlt. apply Reqb_neq in Heq. lra.
Qed.

Lemma memo_reachable_flag_sound cls us a :
  memo_reachable cls us a -> flag_sound cls us a.
Proof.
  induction 1 as [a Hnone | a k x Hr IH Hk | a c info sb b v' Hr IH Hsb Hrun].
  - unfold flag_sound. now rewrite Hnone.
  - unfold flag_sound in *. now rewrite lookup_insert_ne.
  - unfold Score_stratBallotFor in Hsb.
    destruct (Score_frontrunners info) as [front|] eqn:Hf; [|discriminate].
    apply Score_frontrunners_inv in Hf. subst front.
    simpl in Hsb. injection Hsb as <-.
    eapply stratBallot_flag; eauto.
Qed.

(** C10. Let a voter's utilities for the two frontrunners of the poll be
    equal, the voter's attributes be as this ballot code leaves them, and
    the honest ballot be memoized.  Then the strategic ballot is the
    all-or-nothing ballot (10 for the candidates at or above that utility, 0
    for the others); it is memoized as [cls_strat], the flag [cls_isStrat]
    is not written and is not true; and the one-sided ballot that follows is
    the memoized honest ballot. *)
Theorem tied_frontrunners_keep_honest (cls : string) (info : list R)
    (stratBallot : BallotFun) (front : nat * nat) (voter : Voter)
    (c : R) (h : PyVal) :
  Score_stratBallotFor info = Ok stratBallot ->
  Score_frontrunners info = Ok front ->
  list_item (utils voter) front.1 = Ok c ->
  list_item (utils voter) front.2 = Ok c ->
  memo_reachable cls (utils voter) (attrs voter) ->
  getattr voter (cls +:+ "_hon") = Ok h ->
  exists voter' : Voter,
    let degenerate :=
      VList (map (fun util => if Rleb c util then 10 else 0) (utils voter)) in
    stratBallot cls voter = Ok (degenerate, voter') /\
    voter' = setattr voter (cls +:+ "_strat") degenerate /\
    attrs voter' !! (cls +:+ "_isStrat") =
      attrs voter !! (cls +:+ "_isStrat") /\
    attrs voter' !! (cls +:+ "_isStrat") <> Some (VBool true) /\
    getattr voter' (cls +:+ "_hon") = Ok h /\
    ossBallot cls voter' = Ok (h, voter').
Proof.
  intros Hsb Hfront H0 H1 Hreach Hhon.
  pose proof (Score_frontrunners_inv _ _ Hfront) as ->. simpl in H0, H1.
  unfold Score_stratBallotFor in Hsb. rewrite Hfront in Hsb.
  simpl in Hsb. injection Hsb as <-.
  eexists. cbv zeta.
  split; [apply stratBallot_tied; assumption|].
  split; [reflexivity|]. simpl.
  rewrite !lookup_insert_ne by (apply strat_key_not_flag).
  apply memo_reachable_flag_sound in Hreach. unfold flag_sound in Hreach.
  assert (attrs voter !! (cls +:+ "_isStrat") = None \/
          attrs voter !! (cls +:+ "_isStrat") = Some (VBool false)) as Hflag.
  { destruct (attrs voter !! (cls +:+ "_isStrat")) as [[[|]| | |]|]; auto;
      try contradiction.
    destruct Hreach as (c0 & c1 & Hc0 & Hc1 & Hlt).
    rewrite H0 in Hc0. rewrite H1 in Hc1.
    injection Hc0 as <-. injection Hc1 as <-. lra. }
  assert (attrs (setattr voter (cls +:+ "_strat")
                   (VList (map (fun util => if Rleb c util then 10 else 0)
                               (utils voter)))) !! (cls +:+ "_hon") = Some h)
    as Hhon'.
  { simpl. rewrite lookup_insert_ne by apply strat_key_not_hon.
    unfold getattr in Hhon.
    destruct (attrs voter !! (cls +:+ "_hon")); [|discriminate].
    now injection Hhon as ->. }
  split; [reflexivity|]. split; [|split].
  - destruct Hflag as [-> | ->]; discriminate.
  - unfold getattr. now rewrite Hhon'.
  - rewrite ossBallot_unflagged.
    + now rewrite Hhon'.
    + simpl. now rewrite lookup_insert_ne by apply strat_key_not_flag.
Qed.

End Tied.

Section TiedWitness.
Local Open Scope R_scope.

Lemma Score_honBallot_2_2_1 :
  Score_honBallot "Score" (new_voter VoterCls [2; 2; 1]) =
    Ok (VList [10; 10; 0], tied_voter).
Proof.
  rewrite (Score_honBallot_value _ _ 1 2); simpl.
  - replace (1099 / 100 * (2 - 1) / (2 - 1)) with (1099 / 100) by lra.
    replace (1099 / 100 * (1 - 1) / (2 - 1)) with 0 by lra.
    rewrite floor_0, floor_1099. reflexivity.
  - now rewrite (Rmin_left 2 2), (Rmin_right 2 1) by lra.
  - now rewrite (Rmax_left 2 2), (Rmax_left 2 1) by lra.
  - lra.
Qed.

Lemma tied_frontrunners_keep_honest_witness :
  exists stratBallot voter',
    Score_stratBallotFor [1; 2; 3] = Ok stratBallot /\
    Score_frontrunners [1; 2; 3] = Ok (0%nat, 1%nat) /\
    list_item (utils tied_voter) 0 = Ok 2 /\
    list_item (utils tied_voter) 1 = Ok 2 /\
    memo_reachable "Score" (utils tied_voter) (attrs tied_voter) /\
    getattr tied_voter "Score_hon" = Ok (VList [10; 10; 0]) /\
    stratBallot "Score" tied_voter =
      Ok (VList (map (fun util => if Rleb 2 util then 10 else 0) [2; 2; 1]),
          voter') /\
    ossBallot "Score" voter' = Ok (VList [10; 10; 0], voter').
Proof.
  assert (memo_reachable "Score" (utils tied_voter) (attrs tied_voter))
    as Hreach.
  { apply reach_other_attr; [|discriminate]. apply reach_fresh. reflexivity. }
  destruct (tied_frontrunners_keep_honest "Score" [1; 2; 3] _ (0%nat, 1%nat)
              tied_voter 2 (VList [10; 10; 0])
              eq_refl eq_refl eq_refl eq_refl Hreach eq_refl)
    as (voter' & Hs & _ & _ & _ & _ & Ho).
  eexists. exists voter'.
  split; [reflexivity|]. split; [reflexivity|]. split; [reflexivity|].
  split; [reflexivity|]. split; [exact Hreach|]. split; [reflexivity|].
  split; [exact Hs | exact Ho].
Defined.

End TiedWitness.

(** ** The VSE evaluator *)

Section Vse.
Local Open Scope R_scope.

Lemma stratBallot_untied cls voter c0 c1 :
  list_item (utils voter) 0 = Ok c0 -> list_item (utils voter) 1 = Ok c1 ->
  c0 <> c1 ->
  exists ballot,
    rememberBallot "stratBallot" (Score_stratBallot_body (0%nat, 1%nat))
                   cls voter =
      Ok (VList ballot,
          setattr (setattr voter (cls +:+ "_isStrat")
                           (VBool (negb (Rltb c1 c0))))
                  (cls +:+ "_strat") (VList ballot)) /\
    length ballot = length (utils voter).
Proof.
  intros H0 H1 Hne.
  set (cuts := if Rltb c1 c0 then (c0, c1) else (c1, c0)).
  assert (cuts.1 - cuts.2 <> 0) as Hspan.
  { unfold cuts. destruct (Rltb c1 c0); simpl; lra. }
  exists (map (fun util =>
                 Rmax 0 (Rmin 10 (floor (1099 / 100 * (util - cuts.2) /
                                         (cuts.1 - cuts.2)))))
              (utils voter)).
  split; [|apply length_map].
  unfold rememberBallot, Score_stratBallot_body. simpl fst. simpl snd.
  rewrite H0, H1. simpl. rewrite Reqb_false by exact Hne. fold cuts. simpl.
  erewrite mapR_ok.
  - simpl. rewrite strat_key. reflexivity.
  - intros u _. simpl. now rewrite score_vote_ok by exact Hspan.
Qed.

Lemma resultsFor_one self (makeBallot : BallotFun) v l v' :
  makeBallot (class_name self) v = Ok (VList l, v') ->
  resultsFor self [v] makeBallot =
    Ok (map (candScore self) (zip_star [l]), [v']).
Proof.
  intros H. unfold resultsFor, make_ballots. simpl. now rewrite H.
Qed.

Lemma vseOn_unbound_name self voters hon strat oss voters' best :
  multiResults self voters (fun x => x) = Ok (hon, strat, oss, voters') ->
  py_max (socUtils voters') = Ok best ->
  vseOn self voters = Raise NameError.
Proof.
  intros Hm Hb. unfold vseOn. rewrite Hm. simpl. rewrite Hb. reflexivity.
Qed.

(** C1. [vseOn] returns nothing, on any method and electorate: whenever
    [multiResults] and the social utilities are computed, reading the name
    [results], which the function never binds, raises [NameError] (and the
    sum of a generator and a tuple that follows is not defined either).  So
    it is for Score on the electorate of the one voter [Voter([1, 2])]. *)
Theorem vseOn_raises :
  (forall (self : Method) (voters : Electorate),
      is_ok (vseOn self voters) = false) /\
  vseOn Score [new_voter VoterCls [1; 2]] = Raise NameError.
Proof.
  split.
  - intros self voters. unfold vseOn.
    destruct (multiResults self voters (fun x => x))
      as [[[[hon strat] oss] voters']|]; [|reflexivity].
    simpl. destruct (py_max (socUtils voters')); reflexivity.
  - destruct (stratBallot_untied "Score" hon_only_voter 1 2 eq_refl eq_refl)
      as (ballot & Hs & Hlen); [lra|].
    rewrite Rltb_false in Hs by lra. simpl negb in Hs.
    set (flagged := setattr hon_only_voter ("Score" +:+ "_isStrat")
                            (VBool true)) in Hs.
    set (voter2 := setattr flagged ("Score" +:+ "_strat") (VList ballot))
      in Hs.
    assert (ossBallot "Score" voter2 = Ok (VList ballot, voter2)) as Ho.
    { rewrite ossBallot_flagged.
      - unfold voter2. simpl. now rewrite lookup_insert_eq.
      - unfold voter2, flagged. simpl.
        rewrite lookup_insert_ne by apply strat_key_not_flag.
        apply lookup_insert_eq. }
    eapply (vseOn_unbound_name _ _ _ _ _ _ (Rmax (mean [1]) (mean [2]))).
    + unfold multiResults.
      change (honBallot Score) with Score_honBallot.
      change (stratBallotFor Score) with Score_stratBallotFor.
      rewrite (resultsFor_one Score _ _ _ _ Score_honBallot_1_2).
      simpl.
      rewrite (resultsFor_one Score _ _ _ _ Hs). simpl.
      rewrite (resultsFor_one Score _ _ _ _ Ho). simpl. reflexivity.
    + reflexivity.
Qed.

End Vse.

(** * Further properties of the code *)

(** ** Random voters and blending *)

Section RandomVoters.
Local Open Scope R_scope.

Lemma gauss_draws_tape n w :
  exists w',
    gauss_draws n w = Ok (map (gauss_tape (rng w)) (seq 0 n), w') /\
    cluster_count w' = cluster_count w /\
    (forall k, gauss_tape (rng w') k = gauss_tape (rng w) (n + k)%nat) /\
    int_tape (rng w') = int_tape (rng w).
Proof.
  revert w. induction n as [|n IH]; intros w.
  - exists w. simpl. auto.
  - set (w1 := mkWorld (mkRng (fun k => gauss_tape (rng w) (S k))
                              (int_tape (rng w))) (cluster_count w)).
    destruct (IH w1) as (w' & Hd & Hc & Hg & Hi).
    exists w'. split; [|split; [exact Hc | split; [|exact Hi]]].
    + simpl gauss_draws. erewrite M_bind_ok by reflexivity. fold w1.
      erewrite M_bind_ok by exact Hd. simpl.
      now rewrite <- seq_shift, map_map.
    + intros k. rewrite Hg. reflexivity.
Qed.

Lemma rand_spec (vType : VoterClass) (ncand : Z) (w : World) :
  exists (v : Voter) (w' : World),
    rand vType ncand w = Ok (v, w') /\
    vclass v = vType /\
    utils v = map (gauss_tape (rng w)) (seq 0 (Z.to_nat ncand)) /\
    length (utils v) = Z.to_nat ncand /\
    match vType with
    | VoterCls => attrs v = ∅ /\ cluster_count w' = cluster_count w
    | PersonalityVoterCls =>
        attrs v !! "cluster" = Some (VInt (cluster_count w)) /\
        attrs v !! "personality" =
          Some (VFloat (gauss_tape (rng w) (Z.to_nat ncand))) /\
        cluster_count w' = (cluster_count w + 1)%Z
    end.
Proof.
  destruct (gauss_draws_tape (Z.to_nat ncand) w) as (w1 & Hd & Hc & Hg & _).
  destruct vType; simpl rand.
  - exists (new_voter VoterCls (map (gauss_tape (rng w))
                                     (seq 0 (Z.to_nat ncand)))), w1.
    split; [|simpl; rewrite length_map, length_seq; auto].
    unfold Voter_rand. erewrite M_bind_ok by exact Hd. reflexivity.
  - eexists. eexists. split.
    + unfold PersonalityVoter_rand, Voter_rand.
      erewrite M_bind_ok.
      2:{ erewrite M_bind_ok by exact Hd. reflexivity. }
      erewrite M_bind_ok by reflexivity. erewrite M_bind_ok by reflexivity.
      erewrite M_bind_ok by reflexivity. reflexivity.
    + simpl. rewrite length_map, length_seq, Hc, Hg, Nat.add_0_r.
      repeat split; reflexivity.
Qed.

(** X1. [rand] never raises.  On either class it returns a voter of that
    class with [max(0, ncand)] utilities, which are the next draws of
    [random.gauss] in order.  A plain [Voter] has no attributes and leaves
    the cluster counter alone; a [PersonalityVoter] is stamped with the
    counter's value as its cluster and with the draw after its utilities as
    its personality, and the counter moves on by one. *)
Theorem rand_draws_and_stamps (vType : VoterClass) (ncand : Z) (w : World) :
  exists (v : Voter) (w' : World),
    rand vType ncand w = Ok (v, w') /\
    vclass v = vType /\
    utils v = map (gauss_tape (rng w)) (seq 0 (Z.to_nat ncand)) /\
    length (utils v) = Z.to_nat ncand /\
    match vType with
    | VoterCls => attrs v = ∅ /\ cluster_count w' = cluster_count w
    | PersonalityVoterCls =>
        attrs v !! "cluster" = Some (VInt (cluster_count w)) /\
        attrs v !! "personality" =
          Some (VFloat (gauss_tape (rng w) (Z.to_nat ncand))) /\
        cluster_count w' = (cluster_count w + 1)%Z
    end.
Proof. apply rand_spec. Qed.

(** X2. [hybridWith] on voters of different lengths raises
    [AssertionError], whatever the classes and the weight: the assertion
    comes before anything else. *)
Theorem hybridWith_length_assert (self v2 : Voter) (w2 : R) :
  length (utils self) <> length (utils v2) ->
  hybridWith self v2 w2 = Raise AssertionError.
Proof. apply hybridWith_length_mismatch. Qed.

Lemma hybridWith_length_assert_witness :
  length (utils (new_voter VoterCls [1; 2])) <>
    length (utils (new_voter VoterCls [1; 2; 3])) /\
  hybridWith (new_voter VoterCls [1; 2]) (new_voter VoterCls [1; 2; 3]) 1 =
    Raise AssertionError.
Proof.
  assert (length (utils (new_voter VoterCls [1; 2])) <>
          length (utils (new_voter VoterCls [1; 2; 3]))) as H
    by (simpl; lia).
  split; [exact H|]. exact (hybridWith_length_assert _ _ 1 H).
Defined.

Lemma map_seq_nth (f : nat -> R) (l : list R) :
  (forall i, (i < length l)%nat -> f i = nth i l 0) ->
  map f (seq 0 (length l)) = l.
Proof.
  intros H. apply (nth_ext _ _ 0 0).
  - now rewrite length_map, length_seq.
  - intros i Hi. rewrite length_map, length_seq in Hi.
    rewrite (nth_indep _ 0 (f 0%nat)) by now rewrite length_map, length_seq.
    rewrite map_nth, seq_nth by exact Hi. now apply H.
Qed.

Lemma sqrt_1 : sqrt (1 + 0 ^ 2) = 1.
Proof. apply sqrt_lem_1; lra. Qed.

(** X3. The two coefficients of the blend, [1/sqrt(1+w^2)] for [self] and
    [w/sqrt(1+w^2)] for the other voter, have squares that sum to 1 (which
    is what keeps a blend of independent standard normal utilities standard
    normal); with weight 0 the blend has the utilities of [self], and the
    blend of a voter with itself is that voter scaled by
    [(1+w)/sqrt(1+w^2)]. *)
Theorem hybridWith_coefficients (self v2 : Voter) (w2 : R) :
  vclass self = VoterCls ->
  length (utils self) = length (utils v2) ->
  let a := / sqrt (1 + w2 ^ 2) in
  let b := w2 / sqrt (1 + w2 ^ 2) in
  a ^ 2 + b ^ 2 = 1 /\
  hybridWith self v2 w2 =
    Ok (new_voter VoterCls
          (map (fun i => a * nth i (utils self) 0 + b * nth i (utils v2) 0)
               (seq 0 (length (utils self))))) /\
  hybridWith self v2 0 = Ok (new_voter VoterCls (utils self)) /\
  hybridWith self self w2 =
    Ok (new_voter VoterCls
          (map (fun u => (1 + w2) / sqrt (1 + w2 ^ 2) * u) (utils self))).
Proof.
  intros Hcls Hlen a b.
  pose proof (sqrt_blend_pos w2) as Hpos.
  assert (sqrt (1 + w2 ^ 2) * sqrt (1 + w2 ^ 2) = 1 + w2 ^ 2) as Hsq
    by (apply sqrt_sqrt; nra).
  split; [|split; [|split]].
  - unfold a, b.
    replace ((/ sqrt (1 + w2 ^ 2)) ^ 2 + (w2 / sqrt (1 + w2 ^ 2)) ^ 2)
      with ((1 + w2 ^ 2) / (sqrt (1 + w2 ^ 2) * sqrt (1 + w2 ^ 2)))
      by (field; lra).
    rewrite Hsq. field. nra.
  - rewrite hybridWith_Voter by assumption. do 2 f_equal.
    apply map_ext. intros i. unfold hybrid_util, a, b. field. lra.
  - rewrite hybridWith_Voter by assumption. do 2 f_equal.
    apply map_seq_nth. intros i _. unfold hybrid_util. rewrite sqrt_1. lra.
  - rewrite hybridWith_Voter by auto. do 2 f_equal.
    apply (nth_ext _ _ 0 0).
    + now rewrite !length_map, length_seq.
    + intros i Hi. rewrite length_map, length_seq in Hi.
      rewrite (nth_indep _ 0 (hybrid_util (utils self) (utils self) w2 0))
        by now rewrite length_map, length_seq.
      rewrite map_nth, seq_nth by exact Hi.
      rewrite (nth_indep _ 0 ((1 + w2) / sqrt (1 + w2 ^ 2) * 0))
        by now rewrite length_map.
      rewrite (map_nth (fun u => (1 + w2) / sqrt (1 + w2 ^ 2) * u)).
      unfold hybrid_util. cbn [Nat.add]. field. lra.
Qed.

Lemma hybridWith_coefficients_witness :
  vclass (new_voter VoterCls [1; 2]) = VoterCls /\
  length (utils (new_voter VoterCls [1; 2])) =
    length (utils (new_voter VoterCls [3; 2])) /\
  hybridWith (new_voter VoterCls [1; 2]) (new_voter VoterCls [3; 2]) 0 =
    Ok (new_voter VoterCls [1; 2]).
Proof.
  split; [reflexivity|]. split; [reflexivity|].
  exact (proj1 (proj2 (proj2
    (hybridWith_coefficients (new_voter VoterCls [1; 2])
       (new_voter VoterCls [3; 2]) 1 eq_refl eq_refl)))).
Defined.

(** X4. [mutantChild] on a plain [Voter] never raises: it returns a plain
    voter of the same length whose [i]-th utility is the blend of the
    parent's with the [i]-th next draw of [random.gauss], at the given
    weight; the parent's attributes are not passed on. *)
Theorem mutantChild_blends_draws (self : Voter) (mw : R) (w : World) :
  vclass self = VoterCls ->
  exists (child : Voter) (w' : World),
    mutantChild self mw w = Ok (child, w') /\
    vclass child = VoterCls /\ attrs child = ∅ /\
    length (utils child) = length (utils self) /\
    forall i : nat, (i < length (utils self))%nat ->
      nth i (utils child) 0 =
        nth i (utils self) 0 / sqrt (1 + mw ^ 2) +
        mw * gauss_tape (rng w) i / sqrt (1 + mw ^ 2).
Proof.
  intros Hcls.
  destruct (rand_spec VoterCls (Z.of_nat (length (utils self))) w)
    as (other & w' & Hr & _ & Hus & Hlen & _).
  rewrite Nat2Z.id in Hus, Hlen.
  eexists. exists w'. split.
  { unfold mutantChild. rewrite Hcls. erewrite M_bind_ok by exact Hr.
    rewrite hybridWith_Voter by auto. reflexivity. }
  simpl. split; [reflexivity|]. split; [reflexivity|].
  split; [now rewrite length_map, length_seq|].
  intros i Hi.
  rewrite (nth_indep _ 0 (hybrid_util (utils self) (utils other) mw 0))
    by now rewrite length_map, length_seq.
  rewrite map_nth, seq_nth by exact Hi. unfold hybrid_util. simpl.
  rewrite Hus.
  rewrite (nth_indep (map (gauss_tape (rng w)) (seq 0 (length (utils self))))
             0 (gauss_tape (rng w) 0%nat))
    by now rewrite length_map, length_seq.
  now rewrite map_nth, seq_nth by exact Hi.
Qed.

Lemma mutantChild_blends_draws_witness :
  vclass (new_voter VoterCls [1; 2]) = VoterCls /\
  exists child w',
    mutantChild (new_voter VoterCls [1; 2]) (1 / 5) (const_world 1 0) =
      Ok (child, w') /\
    length (utils child) = 2%nat.
Proof.
  split; [reflexivity|].
  destruct (mutantChild_blends_draws (new_voter VoterCls [1; 2]) (1 / 5)
              (const_world 1 0) eq_refl) as (child & w' & H & _ & _ & Hl & _).
  exists child, w'. split; [exact H | exact Hl].
Defined.

End RandomVoters.

(** ** Columns, social utilities and results *)

Section Columns.
Local Open Scope R_scope.

Lemma zip_with_map_seq {A B C} (h : A -> B -> C) (f : nat -> A)
    (g : nat -> B) (l : list nat) :
  zip_with h (map f l) (map g l) = map (fun j => h (f j) (g j)) l.
Proof. induction l as [|j l IH]; simpl; [reflexivity|]. now rewrite IH. Qed.

(** The columns of rows that all have [n] entries. *)
Lemma zip_star_columns (rows : list (list R)) (n : nat) :
  rows <> [] -> (forall r, In r rows -> length r = n) ->
  zip_star rows = map (fun j => map (fun r => nth j r 0) rows) (seq 0 n).
Proof.
  induction rows as [|r rows IH]; [congruence|]. intros _ Hlen.
  assert (length r = n) as Hr by (apply Hlen; now left).
  assert (r = map (fun j => nth j r 0) (seq 0 n)) as Er.
  { subst n. symmetry. now apply map_seq_nth. }
  destruct rows as [|r' rows].
  - simpl. rewrite Er at 1. rewrite map_map. reflexivity.
  - change (zip_star (r :: r' :: rows))
      with (zip_with cons r (zip_star (r' :: rows))).
    rewrite IH; [|discriminate | intros x Hx; apply Hlen; now right].
    rewrite Er at 1. rewrite zip_with_map_seq. reflexivity.
Qed.

(** X5. The social utilities of a non-empty electorate whose voters all
    have [n] utilities are [n] numbers, the [j]-th being the sum of the
    voters' utilities for candidate [j] divided by the number of voters;
    the empty electorate has none. *)
Theorem socUtils_means (e : Electorate) (n : nat) :
  e <> [] -> (forall v, In v e -> length (utils v) = n) ->
  socUtils [] = [] /\
  length (socUtils e) = n /\
  forall j : nat, (j < n)%nat ->
    nth j (socUtils e) 0 =
      Rsum (map (fun v => nth j (utils v) 0) e) / INR (length e).
Proof.
  intros Hne Hlen. split; [reflexivity|].
  assert (socUtils e =
          map (fun j => mean (map (fun v => nth j (utils v) 0) e)) (seq 0 n))
    as Hs.
  { unfold socUtils. rewrite (zip_star_columns _ n).
    - rewrite map_map. apply map_ext. intros j. now rewrite map_map.
    - destruct e; [congruence | discriminate].
    - intros r Hr. apply in_map_iff in Hr. destruct Hr as (v & <- & Hv).
      now apply Hlen. }
  rewrite Hs. split; [now rewrite length_map, length_seq|].
  intros j Hj.
  rewrite (nth_indep _ 0 (mean (map (fun v => nth 0 (utils v) 0) e)))
    by now rewrite length_map, length_seq.
  rewrite (map_nth (fun j => mean (map (fun v => nth j (utils v) 0) e))).
  rewrite seq_nth by exact Hj. unfold mean. now rewrite length_map.
Qed.

Lemma socUtils_means_witness :
  [new_voter VoterCls [1; 2]; new_voter VoterCls [3; 4]] <> [] /\
  socUtils [new_voter VoterCls [1; 2]; new_voter VoterCls [3; 4]] = [2; 3].
Proof.
  assert ([new_voter VoterCls [1; 2]; new_voter VoterCls [3; 4]] <> [])
    as Hne by discriminate.
  split; [exact Hne|].
  destruct (socUtils_means
              [new_voter VoterCls [1; 2]; new_voter VoterCls [3; 4]] 2 Hne)
    as (_ & Hlen & Hnth).
  { intros v [<-|[<-|[]]]; reflexivity. }
  apply (nth_ext _ _ 0 0); [exact Hlen|].
  intros j Hj. rewrite Hlen in Hj. rewrite Hnth by exact Hj.
  destruct j as [|[|j]]; simpl; [lra | lra | lia].
Defined.

Lemma mapR_inv {A B} (f : A -> result B) (l : list A) (l' : list B) :
  mapR f l = Ok l' -> Forall2 (fun x y => f x = Ok y) l l'.
Proof.
  revert l'. induction l as [|x l IH]; intros l' H; simpl in H.
  - injection H as <-. constructor.
  - destruct (f x) as [y|] eqn:Hx; [|discriminate H]. simpl in H.
    destruct (mapR f l) as [ys|]; [|discriminate H]. simpl in H.
    injection H as <-. constructor; auto.
Qed.

Lemma mapR_Forall2 {A B} (f : A -> result B) (l : list A) (l' : list B) :
  Forall2 (fun x y => f x = Ok y) l l' -> mapR f l = Ok l'.
Proof.
  induction 1 as [|x y l l' Hx _ IH]; simpl; [reflexivity|].
  now rewrite Hx, IH.
Qed.

(** X6. [results] of ballots that are lists of one length [n], at least one
    ballot, is the vector of [n] scores whose [j]-th entry is [candScore] of
    the votes for candidate [j], in the order of the ballots; of no ballots
    it is the empty vector; and a ballot that is not a sequence (a flag, a
    number) makes it raise [TypeError]. *)
Theorem results_by_column (self : Method) (rows : list (list R)) (n : nat) :
  rows <> [] -> (forall r, In r rows -> length r = n) ->
  results self (map VList rows) =
    Ok (map (fun j => candScore self (map (fun r => nth j r 0) rows))
            (seq 0 n)) /\
  results self [] = Ok [] /\
  (forall b, results self (VBool b :: map VList rows) = Raise TypeError) /\
  (forall x, results self (VFloat x :: map VList rows) = Raise TypeError).
Proof.
  intros Hne Hlen. split; [|repeat split].
  unfold results.
  rewrite (mapR_ok as_row (fun b => match b with VList l => l | _ => [] end)).
  - simpl. rewrite map_map. simpl. rewrite map_id.
    rewrite (zip_star_columns rows n Hne Hlen), map_map. reflexivity.
  - intros b Hb. apply in_map_iff in Hb. now destruct Hb as (r & <- & _).
Qed.

Lemma results_by_column_witness :
  [[0; 10]; [10; 0]; [10; 5]] <> [] /\
  results Score (map VList [[0; 10]; [10; 0]; [10; 5]]) =
    Ok [mean [0; 10; 10]; mean [10; 0; 5]].
Proof.
  assert ([[0; 10]; [10; 0]; [10; 5]] <> []) as Hne by discriminate.
  split; [exact Hne|].
  refine (proj1 (results_by_column Score [[0; 10]; [10; 0]; [10; 5]] 2
                   Hne _)).
  intros r [<-|[<-|[<-|[]]]]; reflexivity.
Defined.

End Columns.

(** ** The electorate models *)

Section Models.
Local Open Scope R_scope.

Lemma repeatM_rand_spec vType ncand n w :
  exists e w',
    repeatM n (rand vType ncand) w = Ok (e, w') /\
    length e = n /\
    (forall v, In v e ->
               vclass v = vType /\ length (utils v) = Z.to_nat ncand) /\
    match vType with
    | VoterCls => cluster_count w' = cluster_count w
    | PersonalityVoterCls =>
        cluster_count w' = (cluster_count w + Z.of_nat n)%Z /\
        forall i v, e !! i = Some v ->
          attrs v !! "cluster" = Some (VInt (cluster_count w + Z.of_nat i))
    end.
Proof.
  revert w. induction n as [|n IH]; intros w.
  - exists [], w. simpl. split; [reflexivity|]. split; [reflexivity|].
    split; [intros v []|]. destruct vType; [reflexivity|].
    split; [lia | intros i v H; discriminate H].
  - destruct (rand_spec vType ncand w)
      as (v0 & w1 & Hr & Hcls & _ & Hlen & Hstamp).
    destruct (IH w1) as (e & w' & He & Hn & Hall & Hids).
    exists (v0 :: e), w'. split; [|split; [simpl; congruence | split]].
    + simpl repeatM. erewrite M_bind_ok by exact Hr.
      erewrite M_bind_ok by exact He. reflexivity.
    + intros v [<-|Hv]; [auto | now apply Hall].
    + destruct vType.
      * destruct Hstamp as [_ Hc]. congruence.
      * destruct Hstamp as (Hcl & _ & Hc). destruct Hids as [Hc' Hids].
        split; [lia|]. intros [|i] v Hv; simpl in Hv.
        -- injection Hv as <-. rewrite Hcl. do 2 f_equal. lia.
        -- rewrite (Hids i v Hv), Hc. do 2 f_equal. lia.
Qed.

(** X7. [RandomModel] never raises: it returns [max(0, nvot)] voters of the
    class asked for, each with [max(0, ncand)] utilities.  When the class is
    [PersonalityVoter], the voters' cluster ids are consecutive, from the
    counter's value on, and the counter ends that many higher. *)
Theorem RandomModel_electorate (vType : VoterClass) (nvot ncand : Z)
    (w : World) :
  exists (e : Electorate) (w' : World),
    Model_call RandomModel nvot ncand vType w = Ok (e, w') /\
    length e = Z.to_nat nvot /\
    (forall v, In v e ->
               vclass v = vType /\ length (utils v) = Z.to_nat ncand) /\
    match vType with
    | VoterCls => cluster_count w' = cluster_count w
    | PersonalityVoterCls =>
        cluster_count w' = (cluster_count w + Z.of_nat (Z.to_nat nvot))%Z /\
        forall i v, e !! i = Some v ->
          attrs v !! "cluster" = Some (VInt (cluster_count w + Z.of_nat i))
    end.
Proof. apply repeatM_rand_spec. Qed.

(** X8. [ReverseModel] raises [ValueError] on an odd [nvot], for every
    class.  On an even [nvot] it draws one base voter and returns [nvot/2]
    copies of it followed by [nvot/2] copies of its negation, [max(0, nvot)]
    voters in all; the negation is a new object without attributes, so
    that for [PersonalityVoter] the second camp has neither cluster nor
    personality. *)
Theorem ReverseModel_parity (vType : VoterClass) (nvot ncand : Z)
    (w : World) :
  ((nvot mod 2 <> 0)%Z ->
   Model_call ReverseModel nvot ncand vType w = Raise ValueError) /\
  ((nvot mod 2 = 0)%Z ->
   exists (base : Voter) (w' : World),
     let half := Z.to_nat (nvot / 2) in
     let mirror := new_voter vType (map Ropp (utils base)) in
     rand vType ncand w = Ok (base, w') /\
     Model_call ReverseModel nvot ncand vType w =
       Ok (replicate half base ++ replicate half mirror, w') /\
     attrs mirror = ∅ /\
     length (replicate half base ++ replicate half mirror) = Z.to_nat nvot).
Proof.
  split; intros Hpar; simpl; unfold ReverseModel_call.
  - destruct (Z.eqb_spec (nvot mod 2) 0); [contradiction | reflexivity].
  - rewrite Hpar. simpl.
    destruct (rand_spec vType ncand w) as (base & w' & Hr & _).
    exists base, w'. split; [exact Hr|]. split.
    + erewrite M_bind_ok by exact Hr. reflexivity.
    + split; [reflexivity|].
      rewrite length_app, !length_replicate.
      pose proof (Z.div_mod nvot 2 ltac:(lia)). lia.
Qed.

Lemma ReverseModel_parity_witness :
  (3 mod 2 <> 0)%Z /\ (4 mod 2 = 0)%Z /\
  Model_call ReverseModel 3 2 PersonalityVoterCls (const_world 1 0) =
    Raise ValueError /\
  exists e w',
    Model_call ReverseModel 4 2 PersonalityVoterCls (const_world 1 0) =
      Ok (e, w') /\ length e = 4%nat.
Proof.
  assert (3 mod 2 <> 0)%Z as Hodd by discriminate.
  split; [exact Hodd|]. split; [reflexivity|]. split.
  - exact (proj1 (ReverseModel_parity PersonalityVoterCls 3 2
                    (const_world 1 0)) Hodd).
  - destruct (proj2 (ReverseModel_parity PersonalityVoterCls 4 2
                       (const_world 1 0)) eq_refl)
      as (base & w' & _ & H & _ & Hlen).
    eexists. exists w'. split; [exact H | exact Hlen].
Defined.

Lemma hybridWith_keeps self v2 w2 v :
  hybridWith self v2 w2 = Ok v ->
  vclass v = vclass self /\ length (utils v) = length (utils self).
Proof.
  intros H. split; [eapply hybridWith_class, H|].
  unfold hybridWith, copyWithUtils in H.
  destruct (length (utils self) =? length (utils v2))%nat; [|discriminate H].
  destruct (vclass self); [|discriminate H].
  injection H as <-. simpl. now rewrite length_map, length_seq.
Qed.

Lemma mutantChild_keeps self mw w child w' :
  mutantChild self mw w = Ok (child, w') ->
  vclass child = vclass self /\ length (utils child) = length (utils self).
Proof.
  intros H. unfold mutantChild in H. apply M_bind_inv in H.
  destruct H as (other & w1 & _ & H). apply lift_inv in H.
  destruct H as [H _]. eapply hybridWith_keeps, H.
Qed.

Lemma polya_draw_uniform alpha mf ncand vType election w child w' :
  uniform vType (Z.to_nat ncand) election ->
  polya_draw alpha mf ncand vType election w = Ok (child, w') ->
  vclass child = vType /\ length (utils child) = Z.to_nat ncand.
Proof.
  intros Hu H. unfold uniform in Hu. unfold polya_draw in H.
  apply M_bind_inv in H. destruct H as (i & w1 & _ & H).
  destruct (i <? Z.of_nat (length election))%Z.
  - apply M_bind_inv in H. destruct H as (v & w2 & Hv & H).
    apply lift_inv in Hv. destruct Hv as [Hl ->].
    apply list_item_inv in Hl.
    rewrite List.Forall_forall in Hu.
    destruct (Hu v) as [Hc Hn].
    { eapply list_elem_of_In, list_elem_of_lookup_2, Hl. }
    apply mutantChild_keeps in H. destruct H as [-> ->]. auto.
  - destruct (rand_spec vType ncand w1)
      as (v0 & w0 & Hr & Hc & _ & Hn & _).
    rewrite Hr in H. injection H as <- <-. auto.
Qed.

Lemma polya_loop_uniform alpha mf nvot ncand vType election w e w' :
  uniform vType (Z.to_nat ncand) election ->
  polya_loop alpha mf nvot ncand vType election w = Ok (e, w') ->
  uniform vType (Z.to_nat ncand) e.
Proof.
  unfold uniform.
  remember (Z.to_nat nvot - length election)%nat as n eqn:Hn.
  revert election w Hn.
  induction n as [|n IH]; intros election w Hn Hu; simp polya_loop;
    destruct (Z_lt_dec (Z.of_nat (length election)) nvot) as [Hlt|Hge];
    simpl; try lia; try (now intros [= <- <-]).
  destruct (polya_draw alpha mf ncand vType election w)
    as [[child w1]|] eqn:Hd; [|discriminate].
  apply IH.
  - rewrite length_app. simpl. lia.
  - apply Forall_app. split; [exact Hu|]. constructor; [|constructor].
    eapply polya_draw_uniform; eauto.
Qed.

Lemma Model_call_keeps_shape (model : Model) (nvot ncand : Z)
    (vType : VoterClass) (w w' : World) (e : Electorate) :
  Model_call model nvot ncand vType w = Ok (e, w') ->
  forall v, In v e -> vclass v = vType /\ length (utils v) = Z.to_nat ncand.
Proof.
  intros H. apply List.Forall_forall. revert nvot w e w' H.
  induction model as [| |qWeight base IH|seedVoters alpha seed IH mf];
    intros nvot w e w' H.
  - destruct (repeatM_rand_spec vType ncand (Z.to_nat nvot) w)
      as (e0 & w0 & H0 & _ & Hall & _).
    simpl in H. unfold RandomModel_call in H.
    rewrite H0 in H. injection H as <- <-. now apply List.Forall_forall.
  - simpl in H. unfold ReverseModel_call in H.
    destruct (negb (nvot mod 2 =? 0)%Z); [discriminate H|].
    apply M_bind_inv in H. destruct H as (b & w1 & Hb & H).
    injection H as <- <-.
    destruct (rand_spec vType ncand w)
      as (v0 & w0 & Hr & Hc & _ & Hn & _).
    rewrite Hr in Hb. injection Hb as <- <-.
    apply Forall_app. split; apply List.Forall_forall; intros v Hv;
      apply list_elem_of_In, elem_of_replicate in Hv; destruct Hv as [-> _];
      simpl; [auto|]. now rewrite length_map.
  - simpl in H. apply M_bind_inv in H. destruct H as (q & w1 & _ & H).
    apply M_bind_inv in H. destruct H as (b & w2 & Hb & H).
    apply lift_inv in H. destruct H as [Hm _].
    apply IH in Hb. apply mapR_inv in Hm.
    induction Hm as [|x y l l' Hxy _ IHl]; [constructor|].
    inversion Hb as [|? ? [Hc Hn] Hrest]; subst.
    apply hybridWith_keeps in Hxy. destruct Hxy as [Hc' Hn'].
    constructor; [split; congruence | now apply IHl].
  - simpl in H. apply M_bind_inv in H. destruct H as (s & w1 & Hs & H).
    apply IH in Hs.
    exact (polya_loop_uniform _ _ _ _ _ _ _ _ _ Hs H).
Qed.

(** X9. Whatever the model (any nesting of the four), the class and the
    counts: when the call returns an electorate, every voter in it is of the
    class asked for and has exactly [max(0, ncand)] utilities. *)
Theorem Model_call_uniform (model : Model) (nvot ncand : Z)
    (vType : VoterClass) (w w' : World) (e : Electorate) :
  Model_call model nvot ncand vType w = Ok (e, w') ->
  forall v, In v e -> vclass v = vType /\ length (utils v) = Z.to_nat ncand.
Proof. apply Model_call_keeps_shape. Qed.

Lemma Model_call_uniform_witness :
  exists e w',
    Model_call QModel_default 2 3 VoterCls (const_world 1 0) = Ok (e, w') /\
    forall v, In v e -> vclass v = VoterCls /\ length (utils v) = 3%nat.
Proof.
  eexists. eexists. split; [reflexivity|].
  exact (Model_call_uniform QModel_default 2 3 VoterCls (const_world 1 0)
           _ _ eq_refl).
Defined.

(** X10. [QModel] on plain voters returns whenever its base model does: it
    draws the quality voter first, then the base electorate, and returns as
    many voters as the base electorate has, the [i]-th being the blend of
    the [i]-th base voter with the quality voter at [qWeight].  On
    [PersonalityVoter] it raises [TypeError] as soon as the base electorate
    has a voter. *)
Theorem QModel_blends_base (qWeight : R) (baseModel : Model)
    (nvot ncand : Z) (vType : VoterClass) (w w1 w2 : World) (q : Voter)
    (base : Electorate) :
  rand vType ncand w = Ok (q, w1) ->
  Model_call baseModel nvot ncand vType w1 = Ok (base, w2) ->
  match vType with
  | VoterCls =>
      exists e : Electorate,
        Model_call (QModel qWeight baseModel) nvot ncand vType w =
          Ok (e, w2) /\
        length e = length base /\
        Forall2 (fun b v => hybridWith b q qWeight = Ok v) base e
  | PersonalityVoterCls =>
      base <> [] ->
      Model_call (QModel qWeight baseModel) nvot ncand vType w =
        Raise TypeError
  end.
Proof.
  intros Hq Hb.
  pose proof (Model_call_keeps_shape _ _ _ _ _ _ _ Hb) as Hshape.
  destruct (rand_spec vType ncand w) as (q0 & w0 & Hr & _ & _ & Hqlen & _).
  rewrite Hr in Hq. injection Hq as -> ->.
  simpl Model_call. erewrite M_bind_ok by exact Hr.
  erewrite M_bind_ok by exact Hb.
  destruct vType.
  - assert (exists e, mapR (fun v => hybridWith v q qWeight) base = Ok e /\
                      Forall2 (fun b v => hybridWith b q qWeight = Ok v) base e)
      as (e & He & Hf).
    { clear Hb. induction base as [|b base IH].
      - exists []. split; [reflexivity | constructor].
      - destruct IH as (e & He & Hf).
        { intros v Hv. apply Hshape. now right. }
        destruct (Hshape b (or_introl eq_refl)) as [Hc Hn].
        eexists. simpl. rewrite hybridWith_Voter by congruence.
        simpl. rewrite He. simpl. split; [reflexivity|].
        constructor; [|exact Hf]. apply hybridWith_Voter; congruence. }
    exists e. unfold lift. rewrite He. split; [reflexivity|].
    split; [|exact Hf]. symmetry. eapply Forall2_length, Hf.
  - intros Hne. destruct base as [|b base]; [congruence|].
    destruct (Hshape b (or_introl eq_refl)) as [Hc Hn].
    unfold lift. simpl. rewrite hybridWith_Personality by congruence.
    reflexivity.
Qed.

Lemma QModel_blends_base_witness :
  exists q w1 base w2 e,
    rand VoterCls 2 (const_world 1 0) = Ok (q, w1) /\
    Model_call RandomModel 3 2 VoterCls w1 = Ok (base, w2) /\
    Model_call (QModel 1 RandomModel) 3 2 VoterCls (const_world 1 0) =
      Ok (e, w2) /\
    length e = 3%nat.
Proof.
  destruct (QModel_blends_base 1 RandomModel 3 2 VoterCls (const_world 1 0)
              _ _ _ _ eq_refl eq_refl) as (e & H & Hlen & _).
  eexists. eexists. eexists. eexists. exists e.
  split; [reflexivity|]. split; [reflexivity|]. split; [exact H|exact Hlen].
Defined.

End Models.

(** ** The ballot memo and Score's strategic ballot *)

Section ScoreStrategic.
Local Open Scope R_scope.

(** X11. A decorated ballot function returns what the function returns and
    leaves the ballot readable on the voter under the key made of the
    class name, an underscore and the function's name without its last six
    letters ([Score_hon] for [honBallot], [Score_strat] for [stratBallot]);
    it changes no other attribute.  When the function raises, so does the
    decorated one. *)
Theorem rememberBallot_memo (fun_name : string) (f : BallotFun)
    (cls : string) (voter : Voter) :
  let key := (cls +:+ "_") +:+ drop_last 6 fun_name in
  (forall ballot voter1, f cls voter = Ok (ballot, voter1) ->
     exists voter' : Voter,
       rememberBallot fun_name f cls voter = Ok (ballot, voter') /\
       getattr voter' key = Ok ballot /\
       utils voter' = utils voter1 /\ vclass voter' = vclass voter1 /\
       forall k, k <> key -> attrs voter' !! k = attrs voter1 !! k) /\
  (forall e, f cls voter = Raise e ->
             rememberBallot fun_name f cls voter = Raise e) /\
  ("Score" +:+ "_") +:+ drop_last 6 "honBallot" = "Score_hon" /\
  ("Score" +:+ "_") +:+ drop_last 6 "stratBallot" = "Score_strat".
Proof.
  intros key. split; [|split; [|split; reflexivity]].
  - intros ballot voter1 Hf. eexists. unfold rememberBallot. rewrite Hf.
    simpl. split; [reflexivity|]. fold key. split.
    + unfold getattr. simpl. now rewrite lookup_insert_eq.
    + split; [reflexivity|]. split; [reflexivity|].
      intros k Hk. simpl. now rewrite lookup_insert_ne.
  - intros e Hf. unfold rememberBallot. now rewrite Hf.
Qed.

Lemma rememberBallot_memo_witness :
  exists ballot voter',
    Score_stratBallot_body (0%nat, 1%nat) "Score" tied_voter =
      Ok (ballot, tied_voter) /\
    rememberBallot "stratBallot" (Score_stratBallot_body (0%nat, 1%nat))
                   "Score" tied_voter = Ok (ballot, voter') /\
    getattr voter' "Score_strat" = Ok ballot.
Proof.
  assert (Score_stratBallot_body (0%nat, 1%nat) "Score" tied_voter =
            Ok (VList (map (fun util => if Rleb 2 util then 10 else 0)
                           [2; 2; 1]), tied_voter)) as Hb.
  { unfold Score_stratBallot_body. simpl.
    now rewrite Reqb_true by reflexivity. }
  destruct (proj1 (rememberBallot_memo "stratBallot"
                     (Score_stratBallot_body (0%nat, 1%nat)) "Score"
                     tied_voter) _ _ Hb) as (voter' & Hr & Hg & _).
  eexists. exists voter'. split; [exact Hb|]. split; [exact Hr | exact Hg].
Defined.

(** The vote of the strategic ballot for utility [u], between the cuts
    [lo] and [hi]. *)
Lemma strat_vote_bounds lo hi u :
  lo < hi ->
  let vote := Rmax 0 (Rmin 10 (floor (1099 / 100 * (u - lo) / (hi - lo)))) in
  0 <= vote <= 10 /\ (hi <= u -> vote = 10) /\ (u <= lo -> vote = 0).
Proof.
  intros Hlt vote.
  assert (/ (hi - lo) > 0) as Hinv by (apply Rinv_0_lt_compat; lra).
  split; [|split].
  - unfold vote. split; [apply Rmax_l|].
    apply Rmax_lub; [lra | apply Rmin_l].
  - intros Hu. unfold vote.
    assert (10 <= floor (1099 / 100 * (u - lo) / (hi - lo))) as H10.
    { rewrite <- floor_1099. apply floor_mono.
      assert ((hi - lo) * / (hi - lo) = 1) by (field; lra).
      unfold Rdiv. nra. }
    rewrite Rmin_left by exact H10. apply Rmax_right. lra.
  - intros Hu. unfold vote.
    assert (floor (1099 / 100 * (u - lo) / (hi - lo)) <= 0) as H0.
    { rewrite <- floor_0. apply floor_mono. unfold Rdiv. nra. }
    rewrite Rmin_right by lra. apply Rmax_left. exact H0.
Qed.

Lemma strat_vote_mono lo hi u u' :
  lo < hi -> u <= u' ->
  Rmax 0 (Rmin 10 (floor (1099 / 100 * (u - lo) / (hi - lo)))) <=
  Rmax 0 (Rmin 10 (floor (1099 / 100 * (u' - lo) / (hi - lo)))).
Proof.
  intros Hlt Hu.
  assert (/ (hi - lo) > 0) as Hinv by (apply Rinv_0_lt_compat; lra).
  assert (floor (1099 / 100 * (u - lo) / (hi - lo)) <=
          floor (1099 / 100 * (u' - lo) / (hi - lo))) as Hf.
  { apply floor_mono. unfold Rdiv. nra. }
  apply Rmax_lub; [apply Rmax_l|].
  etransitivity; [|apply Rmax_r].
  apply Rmin_glb; [apply Rmin_l|]. etransitivity; [apply Rmin_r | exact Hf].
Qed.

Lemma stratBallot_value cls voter c0 c1 :
  list_item (utils voter) 0 = Ok c0 -> list_item (utils voter) 1 = Ok c1 ->
  c0 <> c1 ->
  let ballot :=
    map (fun u => Rmax 0 (Rmin 10 (floor (1099 / 100 * (u - Rmin c0 c1) /
                                          (Rmax c0 c1 - Rmin c0 c1)))))
        (utils voter) in
  rememberBallot "stratBallot" (Score_stratBallot_body (0%nat, 1%nat))
                 cls voter =
    Ok (VList ballot,
        setattr (setattr voter (cls +:+ "_isStrat") (VBool (Rltb c0 c1)))
                (cls +:+ "_strat") (VList ballot)).
Proof.
  intros H0 H1 Hne ballot.
  unfold rememberBallot, Score_stratBallot_body. simpl fst. simpl snd.
  rewrite H0, H1. simpl. rewrite Reqb_false by exact Hne.
  assert ((if Rltb c1 c0 then (c0, c1) else (c1, c0)) =
          (Rmax c0 c1, Rmin c0 c1) /\ negb (Rltb c1 c0) = Rltb c0 c1)
    as [-> ->].
  { unfold Rltb. destruct (Rlt_dec c1 c0), (Rlt_dec c0 c1); simpl;
      try lra; (split; [|reflexivity]).
    - now rewrite Rmax_left, Rmin_right by lra.
    - now rewrite Rmax_right, Rmin_left by lra. }
  simpl.
  assert (Rmax c0 c1 - Rmin c0 c1 <> 0) as Hspan.
  { unfold Rmax, Rmin. destruct (Rle_dec c0 c1); lra. }
  erewrite mapR_ok.
  - simpl. rewrite strat_key. reflexivity.
  - intros u _. simpl. now rewrite score_vote_ok by exact Hspan.
Qed.

(** X12. For a voter who has different utilities [c0] and [c1] for the
    frontrunners (candidates 0 and 1), Score's strategic ballot gives the
    candidate with utility [u] the score
    [floor(10.99 * (u - lo) / (hi - lo))] clamped into [0, 10], with [lo]
    and [hi] the smaller and the larger of [c0] and [c1].  Every score is
    in [0, 10], it is 10 from [hi] upwards and 0 from [lo] downwards, and
    it grows with the utility; the ballot is memoized as [cls_strat], and
    the flag [cls_isStrat] is set to whether the voter prefers candidate 1
    ([c0 < c1]). *)
Theorem Score_stratBallot_pivot (cls : string) (info : list R)
    (stratBallot : BallotFun) (voter : Voter) (c0 c1 : R) :
  Score_stratBallotFor info = Ok stratBallot ->
  list_item (utils voter) 0 = Ok c0 -> list_item (utils voter) 1 = Ok c1 ->
  c0 <> c1 ->
  exists (ballot : list R) (voter' : Voter),
    stratBallot cls voter = Ok (VList ballot, voter') /\
    ballot =
      map (fun u => Rmax 0 (Rmin 10 (floor (1099 / 100 * (u - Rmin c0 c1) /
                                            (Rmax c0 c1 - Rmin c0 c1)))))
          (utils voter) /\
    utils voter' = utils voter /\
    getattr voter' (cls +:+ "_strat") = Ok (VList ballot) /\
    getattr voter' (cls +:+ "_isStrat") = Ok (VBool (Rltb c0 c1)) /\
    (forall i : nat, (i < length (utils voter))%nat ->
       0 <= nth i ballot 0 <= 10 /\
       (Rmax c0 c1 <= nth i (utils voter) 0 -> nth i ballot 0 = 10) /\
       (nth i (utils voter) 0 <= Rmin c0 c1 -> nth i ballot 0 = 0)) /\
    (forall i j : nat,
       (i < length (utils voter))%nat -> (j < length (utils voter))%nat ->
       nth i (utils voter) 0 <= nth j (utils voter) 0 ->
       nth i ballot 0 <= nth j ballot 0).
Proof.
  intros Hsb H0 H1 Hne.
  unfold Score_stratBallotFor in Hsb.
  destruct (Score_frontrunners info) as [front|] eqn:Hf; [|discriminate Hsb].
  apply Score_frontrunners_inv in Hf. subst front.
  simpl in Hsb. injection Hsb as <-.
  set (vote := fun u => Rmax 0 (Rmin 10 (floor (1099 / 100 * (u - Rmin c0 c1) /
                                                (Rmax c0 c1 - Rmin c0 c1))))).
  assert (Rmin c0 c1 < Rmax c0 c1) as Hlt.
  { unfold Rmax, Rmin. destruct (Rle_dec c0 c1); lra. }
  assert (forall i, (i < length (utils voter))%nat ->
            nth i (map vote (utils voter)) 0 = vote (nth i (utils voter) 0))
    as Hnth.
  { intros i Hi. rewrite (nth_indep _ 0 (vote 0)) by now rewrite length_map.
    apply map_nth. }
  exists (map vote (utils voter)). eexists.
  split; [apply stratBallot_value; assumption|].
  split; [reflexivity|]. split; [reflexivity|]. split; [|split; [|split]].
  - unfold getattr. simpl. now rewrite lookup_insert_eq.
  - unfold getattr. simpl.
    rewrite lookup_insert_ne by apply strat_key_not_flag.
    now rewrite lookup_insert_eq.
  - intros i Hi. rewrite Hnth by exact Hi.
    apply strat_vote_bounds. exact Hlt.
  - intros i j Hi Hj Hle. rewrite !Hnth by assumption.
    apply strat_vote_mono; assumption.
Qed.

Lemma Score_stratBallot_pivot_witness :
  exists stratBallot ballot voter',
    Score_stratBallotFor [1; 2; 3] = Ok stratBallot /\
    list_item (utils hon_only_voter) 0 = Ok 1 /\
    list_item (utils hon_only_voter) 1 = Ok 2 /\ 1 <> 2 /\
    stratBallot "Score" hon_only_voter = Ok (VList ballot, voter') /\
    getattr voter' ("Score" +:+ "_isStrat") = Ok (VBool (Rltb 1 2)).
Proof.
  assert (1 <> 2) as Hne by lra.
  destruct (Score_stratBallot_pivot "Score" [1; 2; 3] _ hon_only_voter 1 2
              eq_refl eq_refl eq_refl Hne)
    as (ballot & voter' & Hs & _ & _ & _ & Hflag & _).
  eexists. exists ballot, voter'.
  split; [reflexivity|]. split; [reflexivity|]. split; [reflexivity|].
  split; [exact Hne|]. split; [exact Hs | exact Hflag].
Defined.

End ScoreStrategic.

(** ** The three elections of Score *)

Section ScorePipeline.
Local Open Scope R_scope.

Lemma two_utils (us : list R) x y :
  In x us -> In y us -> x <> y ->
  exists c0 c1, list_item us 0 = Ok c0 /\ list_item us 1 = Ok c1.
Proof.
  intros Hx Hy Hxy. destruct us as [|a [|b us]].
  - destruct Hx.
  - destruct Hx as [<-|[]], Hy as [<-|[]]. congruence.
  - exists a, b. split; reflexivity.
Qed.

Lemma Score_honBallot_returns cls v x y :
  In x (utils v) -> In y (utils v) -> x <> y ->
  exists hb,
    Score_honBallot cls v = Ok (VList hb, setattr v (cls +:+ "_hon") (VList hb))
    /\ length hb = length (utils v).
Proof.
  intros Hx Hy Hxy.
  destruct (py_min (utils v)) as [lo|] eqn:Hlo.
  2:{ destruct (utils v); [destruct Hx | discriminate]. }
  destruct (py_max (utils v)) as [hi|] eqn:Hhi.
  2:{ destruct (utils v); [destruct Hx | discriminate]. }
  destruct (py_min_spec _ _ Hlo) as [_ Hmin].
  destruct (py_max_inv _ _ Hhi) as [_ Hmax].
  assert (lo <> hi) as Hne.
  { pose proof (Hmin x Hx). pose proof (Hmin y Hy).
    pose proof (Hmax x Hx). pose proof (Hmax y Hy).
    intros ->. apply Hxy. lra. }
  eexists. split; [apply (Score_honBallot_value cls v lo hi); assumption|].
  apply length_map.
Qed.

(** The strategic ballot on any voter with two candidates or more. *)
Lemma Score_stratBallot_returns cls v c0 c1 :
  list_item (utils v) 0 = Ok c0 -> list_item (utils v) 1 = Ok c1 ->
  exists sb v',
    rememberBallot "stratBallot" (Score_stratBallot_body (0%nat, 1%nat))
                   cls v = Ok (VList sb, v') /\
    length sb = length (utils v) /\ utils v' = utils v /\
    attrs v' !! (cls +:+ "_strat") = Some (VList sb) /\
    attrs v' !! (cls +:+ "_hon") = attrs v !! (cls +:+ "_hon") /\
    (c0 <> c1 -> attrs v' !! (cls +:+ "_isStrat") = Some (VBool (Rltb c0 c1)))
    /\
    (c0 = c1 ->
     attrs v' !! (cls +:+ "_isStrat") = attrs v !! (cls +:+ "_isStrat")).
Proof.
  intros H0 H1. destruct (Req_dec_T c0 c1) as [Heq|Hne].
  - subst c1. eexists. eexists.
    split; [apply (stratBallot_tied cls v c0); assumption|].
    split; [apply length_map|]. split; [reflexivity|]. simpl.
    split; [apply lookup_insert_eq|].
    split; [apply lookup_insert_ne, strat_key_not_hon|].
    split; [congruence|]. intros _. apply lookup_insert_ne, strat_key_not_flag.
  - eexists. eexists.
    split; [apply (stratBallot_value cls v c0 c1); assumption|].
    split; [apply length_map|]. split; [reflexivity|]. simpl.
    split; [apply lookup_insert_eq|].
    split.
    { rewrite lookup_insert_ne by apply strat_key_not_hon.
      apply lookup_insert_ne. intros E. apply append_inj_l in E.
      discriminate. }
    split; [|congruence]. intros _.
    rewrite lookup_insert_ne by apply strat_key_not_flag.
    apply lookup_insert_eq.
Qed.

(** The one-sided ballot on a voter with both memos. *)
Lemma ossBallot_returns cls v hb sb :
  attrs v !! (cls +:+ "_hon") = Some (VList hb) ->
  attrs v !! (cls +:+ "_strat") = Some (VList sb) ->
  exists ob,
    ossBallot cls v = Ok (VList ob, v) /\ (ob = sb \/ ob = hb) /\
    (attrs v !! (cls +:+ "_isStrat") = Some (VBool true) -> ob = sb) /\
    (attrs v !! (cls +:+ "_isStrat") = Some (VBool false) \/
     attrs v !! (cls +:+ "_isStrat") = None -> ob = hb).
Proof.
  intros Hh Hs. unfold ossBallot, getattr_default, getattr.
  rewrite Hh, Hs.
  destruct (attrs v !! (cls +:+ "_isStrat")) as [f|] eqn:Hf.
  - destruct (truthy f) eqn:Ht; simpl.
    + exists sb. split; [reflexivity|]. split; [now left|].
      split; [reflexivity|]. intros [[= ->]|[=]]. discriminate Ht.
    + exists hb. split; [reflexivity|]. split; [now right|].
      split; [|reflexivity]. intros [= ->]. discriminate Ht.
  - simpl. exists hb. split; [reflexivity|]. split; [now right|].
    split; [discriminate | reflexivity].
Qed.

Lemma Rltb_lt_true x y : x < y -> Rltb x y = true.
Proof. intros H. unfold Rltb. destruct (Rlt_dec x y); tauto. Qed.

(** X13. One voter through the three ballots of Score, in the order of
    [multiResults]: a voter with two different utilities gets an honest
    ballot, then a strategic ballot for any poll with two candidates or
    more, then a one-sided ballot, none of which raises.  The one-sided
    ballot is the strategic one when the voter prefers candidate 1 to
    candidate 0, and the honest one when the voter prefers candidate 0; for
    a voter indifferent between the two it is the honest one, provided the
    flag was not set before. *)
Theorem Score_one_sided_regime (cls : string) (info : list R)
    (stratBallot : BallotFun) (v : Voter) (x y : R) :
  Score_stratBallotFor info = Ok stratBallot ->
  In x (utils v) -> In y (utils v) -> x <> y ->
  exists (c0 c1 : R) (hb sb ob : list R) (v1 v2 : Voter),
    list_item (utils v) 0 = Ok c0 /\ list_item (utils v) 1 = Ok c1 /\
    Score_honBallot cls v = Ok (VList hb, v1) /\
    stratBallot cls v1 = Ok (VList sb, v2) /\
    ossBallot cls v2 = Ok (VList ob, v2) /\
    utils v2 = utils v /\
    length hb = length (utils v) /\ length sb = length (utils v) /\
    (c0 < c1 -> ob = sb) /\
    (c1 < c0 -> ob = hb) /\
    (c0 = c1 -> attrs v !! (cls +:+ "_isStrat") = None -> ob = hb).
Proof.
  intros Hsb Hx Hy Hxy.
  unfold Score_stratBallotFor in Hsb.
  destruct (Score_frontrunners info) as [front|] eqn:Hf; [|discriminate Hsb].
  apply Score_frontrunners_inv in Hf. subst front.
  simpl in Hsb. injection Hsb as <-.
  destruct (two_utils _ _ _ Hx Hy Hxy) as (c0 & c1 & H0 & H1).
  destruct (Score_honBallot_returns cls v x y Hx Hy Hxy) as (hb & Hh & Hhl).
  set (v1 := setattr v (cls +:+ "_hon") (VList hb)) in *.
  destruct (Score_stratBallot_returns cls v1 c0 c1 H0 H1)
    as (sb & v2 & Hs & Hsl & Hu & Hms & Hmh & Hflag & Hkeep).
  assert (attrs v2 !! (cls +:+ "_hon") = Some (VList hb)) as Hmh'.
  { rewrite Hmh. unfold v1. simpl. apply lookup_insert_eq. }
  destruct (ossBallot_returns cls v2 hb sb Hmh' Hms)
    as (ob & Ho & _ & Hot & Hof).
  exists c0, c1, hb, sb, ob, v1, v2.
  split; [exact H0|]. split; [exact H1|]. split; [exact Hh|].
  split; [exact Hs|]. split; [exact Ho|]. split; [exact Hu|].
  split; [exact Hhl|]. split; [exact Hsl|]. split; [|split].
  - intros Hlt. apply Hot. rewrite Hflag by lra.
    now rewrite Rltb_lt_true.
  - intros Hlt. apply Hof. left. rewrite Hflag by lra.
    now rewrite Rltb_false by lra.
  - intros Heq Hnone. apply Hof. right. rewrite Hkeep by exact Heq.
    unfold v1. simpl. rewrite lookup_insert_ne; [exact Hnone|].
    intros E. apply append_inj_l in E. discriminate.
Qed.

Lemma Score_one_sided_regime_witness :
  exists stratBallot hb sb v1 v2,
    Score_stratBallotFor [1; 2; 3] = Ok stratBallot /\
    In 1 (utils (new_voter VoterCls [1; 2])) /\
    In 2 (utils (new_voter VoterCls [1; 2])) /\ 1 <> 2 /\
    Score_honBallot "Score" (new_voter VoterCls [1; 2]) = Ok (VList hb, v1) /\
    stratBallot "Score" v1 = Ok (VList sb, v2) /\
    ossBallot "Score" v2 = Ok (VList sb, v2).
Proof.
  assert (In 1 (utils (new_voter VoterCls [1; 2]))) as H1 by (simpl; auto).
  assert (In 2 (utils (new_voter VoterCls [1; 2]))) as H2 by (simpl; auto).
  assert (1 <> 2) as Hne by lra.
  destruct (Score_one_sided_regime "Score" [1; 2; 3] _
              (new_voter VoterCls [1; 2]) 1 2 eq_refl H1 H2 Hne)
    as (c0 & c1 & hb & sb & ob & v1 & v2 & H0 & H1' & Hh & Hs & Ho & _ & _ & _
        & Hlt & _).
  injection H0 as <-. injection H1' as <-.
  rewrite (Hlt ltac:(lra)) in Ho.
  eexists. exists hb, sb, v1, v2.
  split; [reflexivity|]. split; [exact H1|]. split; [exact H2|].
  split; [exact Hne|]. split; [exact Hh|]. split; [exact Hs | exact Ho].
Defined.

End ScorePipeline.

Section ScoreElections.
Local Open Scope R_scope.

Lemma mapR_Forall2_exists {A B} (f : A -> result B) (P : A -> B -> Prop)
    (l : list A) :
  (forall x, In x l -> exists y, f x = Ok y /\ P x y) ->
  exists l', mapR f l = Ok l' /\ Forall2 P l l'.
Proof.
  induction l as [|x l IH]; intros H.
  - exists []. split; [reflexivity | constructor].
  - destruct (H x (or_introl eq_refl)) as (y & Hy & Hp).
    destruct IH as (l' & Hl & Hf); [intros z Hz; apply H; now right|].
    exists (y :: l'). simpl. rewrite Hy. simpl. rewrite Hl. simpl.
    split; [reflexivity | now constructor].
Qed.

Lemma Forall2_right {A B} (P : A -> B -> Prop) (Q : B -> Prop) l l' :
  Forall2 P l l' -> (forall x y, In x l -> P x y -> Q y) ->
  forall y, In y l' -> Q y.
Proof.
  induction 1 as [|x y l l' Hp _ IH]; intros Himp z Hz; [destruct Hz|].
  destruct Hz as [<-|Hz].
  - apply (Himp x); [now left | exact Hp].
  - apply IH; [|exact Hz]. intros a b Ha. apply Himp. now right.
Qed.

Lemma Forall2_map_eq {A B C} (g : A -> C) (h : B -> C) l l' :
  Forall2 (fun x y => h y = g x) l l' -> map h l' = map g l.
Proof. induction 1 as [|x y l l' Hp _ IH]; simpl; congruence. Qed.

Lemma results_rows (self : Method) (ballots : list PyVal) (n : nat) :
  ballots <> [] ->
  (forall b, In b ballots -> exists l, b = VList l /\ length l = n) ->
  exists res, results self ballots = Ok res /\ length res = n.
Proof.
  intros Hne Hb.
  set (row := fun b => match b with VList l => l | _ => [] end).
  assert (mapR as_row ballots = Ok (map row ballots)) as Hrows.
  { apply mapR_ok. intros b Hin. destruct (Hb b Hin) as (l & -> & _).
    reflexivity. }
  eexists. unfold results. rewrite Hrows. simpl. split; [reflexivity|].
  rewrite (zip_star_columns _ n).
  - now rewrite !length_map, length_seq.
  - destruct ballots; [congruence | discriminate].
  - intros r Hr. apply in_map_iff in Hr. destruct Hr as (b & <- & Hin).
    destruct (Hb b Hin) as (l & -> & Hl). exact Hl.
Qed.

Lemma Score_stratBallotFor_poll info :
  (2 <= length info)%nat ->
  Score_stratBallotFor info =
    Ok (rememberBallot "stratBallot" (Score_stratBallot_body (0%nat, 1%nat))).
Proof.
  intros H. destruct info as [|a [|b info]]; simpl in H; try lia.
  unfold Score_stratBallotFor. now rewrite Score_frontrunners_first_two.
Qed.

Lemma resultsFor_rows self (f : BallotFun) voters rs n :
  voters <> [] ->
  mapR (f (class_name self)) voters = Ok rs ->
  (forall r, In r rs -> exists l, r.1 = VList l /\ length l = n) ->
  exists res,
    resultsFor self voters f = Ok (res, map snd rs) /\ length res = n.
Proof.
  intros Hne Hm Hrows.
  destruct (results_rows self (map fst rs) n) as (res & Hres & Hlen).
  - apply mapR_inv, Forall2_length in Hm.
    destruct voters; [congruence|]. destruct rs; [discriminate Hm|].
    discriminate.
  - intros b Hb. apply in_map_iff in Hb. destruct Hb as (r & <- & Hr).
    now apply Hrows.
  - exists res. split; [|exact Hlen].
    unfold resultsFor, make_ballots. rewrite Hm. simpl. rewrite Hres.
    reflexivity.
Qed.

(** X14. [multiResults] of Score returns on every non-empty electorate
    whose voters have [n] utilities each, two of them different, for any
    [media] that keeps the number of candidates: the honest, strategic and
    one-sided results have [n] entries each, and the voters come back with
    their utilities unchanged and with both ballots memoized. *)
Theorem Score_multiResults_returns (voters : Electorate)
    (media : list R -> list R) (n : nat) :
  voters <> [] ->
  (forall v, In v voters ->
     length (utils v) = n /\
     exists x y, In x (utils v) /\ In y (utils v) /\ x <> y) ->
  (forall l, length (media l) = length l) ->
  exists (hon strat oss : list R) (voters' : Electorate),
    multiResults Score voters media = Ok (hon, strat, oss, voters') /\
    length hon = n /\ length strat = n /\ length oss = n /\
    map utils voters' = map utils voters /\
    forall v', In v' voters' ->
      exists hb sb, getattr v' "Score_hon" = Ok (VList hb) /\
                    getattr v' "Score_strat" = Ok (VList sb).
Proof.
  intros Hne Hv Hmedia.
  assert (2 <= n)%nat as Hn.
  { destruct voters as [|v0 voters]; [congruence|].
    destruct (Hv v0 (or_introl eq_refl)) as (Hl & x & y & Hx & Hy & Hxy).
    rewrite <- Hl. destruct (utils v0) as [|a [|b us]]; simpl; try lia.
    - destruct Hx.
    - destruct Hx as [<-|[]], Hy as [<-|[]]. congruence. }
  (* the honest election *)
  destruct (mapR_Forall2_exists (Score_honBallot "Score")
              (fun v r => exists hb,
                   r = (VList hb, setattr v "Score_hon" (VList hb)) /\
                   length hb = n /\ length (utils v) = n) voters)
    as (rs1 & Hm1 & Hf1).
  { intros v Hin. destruct (Hv v Hin) as (Hl & x & y & Hx & Hy & Hxy).
    destruct (Score_honBallot_returns "Score" v x y Hx Hy Hxy)
      as (hb & Hh & Hhl).
    eexists. split; [exact Hh|]. exists hb. split; [reflexivity|].
    split; congruence. }
  destruct (resultsFor_rows Score Score_honBallot voters rs1 n Hne Hm1)
    as (hon & Hhon & Hhonl).
  { apply (Forall2_right _ _ _ _ Hf1). intros v r _ (hb & -> & Hl & _).
    exists hb. auto. }
  assert (voters1_ne : map snd rs1 <> []).
  { apply Forall2_length in Hf1. destruct voters; [congruence|].
    destruct rs1; [discriminate Hf1 | discriminate]. }
  (* the strategic election *)
  destruct (mapR_Forall2_exists
              (rememberBallot "stratBallot"
                 (Score_stratBallot_body (0%nat, 1%nat)) "Score")
              (fun v1 r => exists hb sb,
                   r.1 = VList sb /\ length sb = n /\
                   utils r.2 = utils v1 /\
                   attrs r.2 !! "Score_hon" = Some (VList hb) /\
                   length hb = n /\
                   attrs r.2 !! "Score_strat" = Some (VList sb))
              (map snd rs1))
    as (rs2 & Hm2 & Hf2).
  { intros v1 Hin. apply in_map_iff in Hin. destruct Hin as (r & <- & Hr).
    destruct (Forall2_right _
                (fun r => exists hb, attrs r.2 !! "Score_hon" = Some (VList hb)
                                     /\ length hb = n
                                     /\ length (utils r.2) = n)
                _ _ Hf1) with (y := r) as (hb & Hmh & Hhl & Hul);
      [|exact Hr|].
    { intros v r0 _ (hb & -> & Hl & Hu). exists hb. simpl.
      split; [apply lookup_insert_eq | auto]. }
    assert (exists c0 c1, list_item (utils r.2) 0 = Ok c0 /\
                          list_item (utils r.2) 1 = Ok c1)
      as (c0 & c1 & H0 & H1).
    { destruct (utils r.2) as [|a [|b us]]; simpl in Hul; try lia.
      exists a, b. split; reflexivity. }
    destruct (Score_stratBallot_returns "Score" r.2 c0 c1 H0 H1)
      as (sb & v2 & Hs & Hsl & Hu & Hms & Hkeep & _).
    eexists. split; [exact Hs|]. exists hb, sb. simpl.
    split; [reflexivity|]. split; [congruence|]. split; [exact Hu|].
    split; [exact (eq_trans Hkeep Hmh)|]. split; [exact Hhl | exact Hms]. }
  destruct (resultsFor_rows Score
              (rememberBallot "stratBallot"
                 (Score_stratBallot_body (0%nat, 1%nat)))
              (map snd rs1) rs2 n voters1_ne Hm2)
    as (strat & Hstrat & Hstratl).
  { apply (Forall2_right _ _ _ _ Hf2).
    intros v r _ (hb & sb & Hr & Hl & _). exists sb. auto. }
  assert (voters2_ne : map snd rs2 <> []).
  { apply Forall2_length in Hf2. destruct (map snd rs1); [congruence|].
    destruct rs2; [discriminate Hf2 | discriminate]. }
  (* the one-sided election *)
  destruct (mapR_Forall2_exists (ossBallot "Score")
              (fun v2 r => exists ob, r = (VList ob, v2) /\ length ob = n)
              (map snd rs2))
    as (rs3 & Hm3 & Hf3).
  { intros v2 Hin. apply in_map_iff in Hin. destruct Hin as (r & <- & Hr).
    destruct (Forall2_right _
                (fun r => exists hb sb,
                     attrs r.2 !! "Score_hon" = Some (VList hb) /\
                     length hb = n /\
                     attrs r.2 !! "Score_strat" = Some (VList sb) /\
                     length sb = n)
                _ _ Hf2) with (y := r) as (hb & sb & Hmh & Hhl & Hms & Hsl);
      [|exact Hr|].
    { intros v r0 _ (hb & sb & _ & Hl & _ & Hmh & Hhl & Hms).
      exists hb, sb. auto. }
    destruct (ossBallot_returns "Score" r.2 hb sb Hmh Hms)
      as (ob & Ho & Hor & _).
    eexists. split; [exact Ho|]. exists ob. split; [reflexivity|].
    destruct Hor as [-> | ->]; assumption. }
  destruct (resultsFor_rows Score ossBallot (map snd rs2) rs3 n
              voters2_ne Hm3) as (oss & Hoss & Hossl).
  { apply (Forall2_right _ _ _ _ Hf3). intros v r _ (ob & -> & Hl).
    exists ob. auto. }
  assert (map snd rs3 = map snd rs2) as Hsame.
  { rewrite <- (map_id (map snd rs2)). apply Forall2_map_eq.
    eapply Forall2_impl; [exact Hf3|]. now intros v r (ob & -> & _). }
  exists hon, strat, oss, (map snd rs3).
  split.
  { unfold multiResults.
    change (honBallot Score) with Score_honBallot.
    change (stratBallotFor Score) with Score_stratBallotFor.
    rewrite Hhon. simpl.
    rewrite Score_stratBallotFor_poll by (rewrite Hmedia; lia). simpl.
    rewrite Hstrat. simpl. rewrite Hoss. reflexivity. }
  split; [exact Hhonl|]. split; [exact Hstratl|]. split; [exact Hossl|].
  rewrite Hsame. split.
  - transitivity (map utils (map snd rs1)).
    + rewrite (map_map snd utils rs2).
      apply (Forall2_map_eq utils (fun r : PyVal * Voter => utils r.2)).
      eapply Forall2_impl; [exact Hf2|].
      intros v r (hb & sb & _ & _ & Hu & _). exact Hu.
    + rewrite (map_map snd utils rs1).
      apply (Forall2_map_eq utils (fun r : PyVal * Voter => utils r.2)).
      eapply Forall2_impl; [exact Hf1|]. now intros v r (hb & -> & _).
  - intros v' Hin. apply in_map_iff in Hin. destruct Hin as (r & <- & Hr).
    destruct (Forall2_right _
                (fun r => exists hb sb,
                     attrs r.2 !! "Score_hon" = Some (VList hb) /\
                     attrs r.2 !! "Score_strat" = Some (VList sb))
                _ _ Hf2) with (y := r) as (hb & sb & Hmh & Hms);
      [|exact Hr|].
    { intros v r0 _ (hb & sb & _ & _ & _ & Hmh & _ & Hms).
      exists hb, sb. auto. }
    exists hb, sb. unfold getattr. now rewrite Hmh, Hms.
Qed.

End ScoreElections.

Section ScoreElectionsEdge.
Local Open Scope R_scope.

Lemma Score_multiResults_returns_witness :
  [new_voter VoterCls [1; 2]; new_voter VoterCls [4; 3]] <> [] /\
  exists hon strat oss voters',
    multiResults Score [new_voter VoterCls [1; 2]; new_voter VoterCls [4; 3]]
                 (fun x => x) = Ok (hon, strat, oss, voters') /\
    length hon = 2%nat /\ length strat = 2%nat /\ length oss = 2%nat.
Proof.
  assert ([new_voter VoterCls [1; 2]; new_voter VoterCls [4; 3]] <> [])
    as Hne by discriminate.
  split; [exact Hne|].
  destruct (Score_multiResults_returns
              [new_voter VoterCls [1; 2]; new_voter VoterCls [4; 3]]
              (fun x => x) 2 Hne)
    as (hon & strat & oss & voters' & H & Hh & Hs & Ho & _).
  - intros v [<-|[<-|[]]]; (split; [reflexivity|]).
    + exists 1, 2. simpl. repeat split; auto. lra.
    + exists 4, 3. simpl. repeat split; auto. lra.
  - reflexivity.
  - exists hon, strat, oss, voters'. auto.
Defined.






End ScoreElectionsEdge.

(** ** Grades *)

Section Grades.
Local Open Scope R_scope.

Lemma Rleb_le x y : Rleb x y = true -> x <= y.
Proof. unfold Rleb. destruct (Rle_dec x y); [auto | discriminate]. Qed.

Lemma Rleb_gt x y : Rleb x y = false -> y < x.
Proof. unfold Rleb. destruct (Rle_dec x y); [discriminate | lra]. Qed.

Lemma toVote_loop_spec j cs util :
  exists v,
    toVote_loop (Some j) (S j) cs util = Ok v /\
    (S j <= v <= S j + length cs)%nat /\
    (forall i, (i < v - S j)%nat -> nth i cs 0 < util) /\
    ((v < S j + length cs)%nat -> util <= nth (v - S j) cs 0).
Proof.
  revert j. induction cs as [|c cs IH]; intros j; simpl.
  - exists (j + 1)%nat. split; [reflexivity|]. split; [lia|].
    split; [intros i Hi; lia | lia].
  - destruct (Rleb util c) eqn:Hc.
    + exists (S j). split; [reflexivity|]. split; [lia|].
      split; [intros i Hi; lia|]. intros _. rewrite Nat.sub_diag.
      now apply Rleb_le.
    + destruct (IH (S j)) as (v & Hv & Hr & Hbelow & Hat).
      exists v. split; [exact Hv|]. split; [lia|]. split.
      * intros i Hi. destruct i as [|i]; [now apply Rleb_gt|].
        apply Hbelow. lia.
      * intros Hlt. replace (v - S j)%nat with (S (v - S (S j))) by lia.
        apply Hat. lia.
Qed.

Lemma toVote_spec cutoffs util :
  cutoffs <> [] ->
  exists v,
    toVote cutoffs util = Ok v /\ (v <= length cutoffs)%nat /\
    (forall i, (i < v)%nat -> nth i cutoffs 0 < util) /\
    ((v < length cutoffs)%nat -> util <= nth v cutoffs 0).
Proof.
  destruct cutoffs as [|c cs]; [congruence|]. intros _.
  unfold toVote. simpl. destruct (Rleb util c) eqn:Hc.
  - exists 0%nat. split; [reflexivity|]. split; [lia|].
    split; [intros i Hi; lia|]. intros _. now apply Rleb_le.
  - destruct (toVote_loop_spec 0 cs util) as (v & Hv & Hr & Hbelow & Hat).
    exists v. split; [exact Hv|]. split; [lia|]. split.
    + intros i Hi. destruct i as [|i]; [now apply Rleb_gt|].
      apply Hbelow. lia.
    + intros Hlt. replace v with (S (v - 1)) by lia. apply Hat. lia.
Qed.

(** X16. [toVote] returns the position of the first cutoff that the
    utility does not exceed, and the number of cutoffs when it exceeds them
    all: the vote is at most [len(cutoffs)], every cutoff before it is
    below the utility, and the vote does not decrease when the utility
    grows (whether or not the cutoffs are sorted).  Without cutoffs the
    loop variable is never bound and the call raises. *)
Theorem toVote_first_cutoff (cutoffs : list R) (util : R) :
  (forall u, toVote [] u = Raise NameError) /\
  (cutoffs <> [] ->
   exists v : nat,
     toVote cutoffs util = Ok v /\ (v <= length cutoffs)%nat /\
     (forall i, (i < v)%nat -> nth i cutoffs 0 < util) /\
     ((v < length cutoffs)%nat -> util <= nth v cutoffs 0) /\
     forall util' v', util <= util' -> toVote cutoffs util' = Ok v' ->
                      (v <= v')%nat).
Proof.
  split; [reflexivity|]. intros Hne.
  destruct (toVote_spec cutoffs util Hne) as (v & Hv & Hle & Hbelow & Hat).
  exists v. repeat (split; [assumption|]).
  intros util' v' Hu Hv'.
  destruct (toVote_spec cutoffs util' Hne) as (v0 & Hv0 & Hle' & _ & Hat').
  rewrite Hv0 in Hv'. injection Hv' as <-.
  destruct (Nat.le_gt_cases v v0) as [|Hlt]; [assumption|].
  specialize (Hbelow v0 Hlt). specialize (Hat' ltac:(lia)). lra.
Qed.

Lemma toVote_first_cutoff_witness :
  [- (8 / 10); 0; 8 / 10; 16 / 10] <> [] /\
  toVote [- (8 / 10); 0; 8 / 10; 16 / 10] (1 / 2) = Ok 2%nat.
Proof.
  assert ([- (8 / 10); 0; 8 / 10; 16 / 10] <> []) as Hne by discriminate.
  split; [exact Hne|].
  destruct (proj2 (toVote_first_cutoff [- (8 / 10); 0; 8 / 10; 16 / 10]
                     (1 / 2)) Hne) as (v & Hv & Hle & Hbelow & Hat & _).
  rewrite Hv. f_equal.
  destruct v as [|[|[|v]]].
  - specialize (Hat ltac:(simpl; lia)). simpl in Hat. lra.
  - specialize (Hat ltac:(simpl; lia)). simpl in Hat. lra.
  - reflexivity.
  - specialize (Hbelow 2%nat ltac:(lia)). simpl in Hbelow. lra.
Defined.

Lemma class_baseCuts_Mav cls :
  cls = "Mav" \/ cls = "Mj" ->
  class_baseCuts cls = Ok [- (8 / 10); 0; 8 / 10; 16 / 10].
Proof. intros [-> | ->]; reflexivity. Qed.

Lemma grade_ballot_spec cutoffs us (bound : nat) :
  cutoffs <> [] ->
  (forall u v, In u us -> toVote cutoffs u = Ok v -> (v <= bound)%nat) ->
  exists ballot,
    grade_ballot cutoffs us = Ok ballot /\ length ballot = length us /\
    forall i, (i < length us)%nat ->
      exists g : nat, toVote cutoffs (nth i us 0) = Ok g /\
                      nth i ballot 0 = INR g /\ (g <= bound)%nat.
Proof.
  intros Hne. induction us as [|u us IH]; intros Hb.
  - exists []. split; [reflexivity|]. split; [reflexivity|].
    intros i Hi. simpl in Hi. lia.
  - destruct IH as (ballot & Hg & Hlen & Hnth).
    { intros x v Hx. apply Hb. now right. }
    destruct (toVote_spec cutoffs u Hne) as (g & Hv & _).
    exists (INR g :: ballot). unfold grade_ballot in *. simpl.
    rewrite Hv. simpl. rewrite Hg. simpl.
    split; [reflexivity|]. split; [congruence|].
    intros [|i] Hi.
    + exists g. split; [exact Hv|]. split; [reflexivity|].
      apply (Hb u); [now left | exact Hv].
    + apply Hnth. simpl in Hi. lia.
Qed.

(** X17. The honest ballot of [Mav] (and of [Mj], which inherits it) on a
    voter with at least one candidate gives every candidate a grade among
    0, 1, 2 and 3: the last cutoff is the voter's own maximum, which no
    utility exceeds, so that the grade 4 is never given.  The ballot is
    memoized as [cls_hon].  The same code called for [Bucklin], which has
    no [baseCuts], raises [AttributeError]; on a voter without candidates
    it raises [ValueError]. *)
Theorem Mav_honBallot_grades (cls : string) (voter : Voter) :
  (cls = "Mav" \/ cls = "Mj" -> utils voter <> [] ->
   exists ballot : list R,
     Mav_honBallot cls voter =
       Ok (VList ballot, setattr voter (cls +:+ "_hon") (VList ballot)) /\
     length ballot = length (utils voter) /\
     forall i : nat, (i < length (utils voter))%nat ->
       exists g : nat, nth i ballot 0 = INR g /\ (g <= 3)%nat) /\
  (cls = "Mav" \/ cls = "Mj" -> utils voter = [] ->
   Mav_honBallot cls voter = Raise ValueError) /\
  Mav_honBallot "Bucklin" voter = Raise AttributeError.
Proof.
  split; [|split].
  - intros Hcls Hne.
    destruct (py_max_spec (utils voter) Hne) as (top & Htop & _ & Hmax).
    set (cutoffs := [- (8 / 10); 0; 8 / 10; top]).
    destruct (grade_ballot_spec cutoffs (utils voter) 3)
      as (ballot & Hg & Hlen & Hnth); [discriminate| |].
    { intros u v Hu Hv.
      destruct (toVote_spec cutoffs u ltac:(discriminate))
        as (v0 & Hv0 & Hle & Hbelow & _).
      rewrite Hv0 in Hv. injection Hv as <-.
      destruct (Nat.le_gt_cases v0 3) as [|Hgt]; [assumption|].
      specialize (Hbelow 3%nat Hgt). simpl in Hbelow.
      pose proof (Hmax u Hu). lra. }
    exists ballot. split; [|split; [exact Hlen|]].
    + unfold Mav_honBallot, rememberBallot, Mav_honBallot_body.
      rewrite class_baseCuts_Mav by exact Hcls. simpl. rewrite Htop. simpl.
      fold cutoffs. rewrite Hg. simpl. now rewrite hon_key.
    + intros i Hi. destruct (Hnth i Hi) as (g & _ & Hb & Hle). eauto.
  - intros Hcls Hnil.
    unfold Mav_honBallot, rememberBallot, Mav_honBallot_body.
    rewrite class_baseCuts_Mav by exact Hcls. simpl. now rewrite Hnil.
  - reflexivity.
Qed.

Lemma Mav_honBallot_grades_witness :
  ("Mav" = "Mav" \/ "Mav" = "Mj") /\
  utils (new_voter VoterCls [1; 2]) <> [] /\
  exists ballot : list R,
    Mav_honBallot "Mav" (new_voter VoterCls [1; 2]) =
      Ok (VList ballot,
          setattr (new_voter VoterCls [1; 2]) "Mav_hon" (VList ballot)) /\
    length ballot = 2%nat.
Proof.
  assert (utils (new_voter VoterCls [1; 2]) <> []) as Hne by discriminate.
  split; [now left|]. split; [exact Hne|].
  destruct (proj1 (Mav_honBallot_grades "Mav" (new_voter VoterCls [1; 2]))
              (or_introl eq_refl) Hne) as (ballot & H & Hlen & _).
  exists ballot. split; [exact H | exact Hlen].
Defined.

End Grades.

(** ** Median scores *)

Section MedianScores.
Local Open Scope R_scope.

Lemma insert_R_length x l : length (insert_R x l) = S (length l).
Proof.
  induction l as [|y l IH]; simpl; [reflexivity|].
  destruct (Rleb x y); simpl; congruence.
Qed.

Lemma sorted_R_length l : length (sorted_R l) = length l.
Proof.
  induction l as [|x l IH]; simpl; [reflexivity|].
  unfold sorted_R in *. simpl. now rewrite insert_R_length, IH.
Qed.

Lemma list_item_ok {A} (l : list A) i :
  (i < length l)%nat -> exists x, list_item l i = Ok x.
Proof.
  intros H. destruct (lookup_lt_is_Some_2 l i H) as [x Hx].
  exists x. unfold list_item. now rewrite Hx.
Qed.

Lemma scan_up_spec scores base i :
  (i <= length scores)%nat ->
  exists i',
    scan_up scores base i = Ok i' /\ (i <= i' <= length scores)%nat /\
    (list_item scores i = Ok base -> (i < i')%nat).
Proof.
  remember (length scores - i)%nat as n eqn:Hn. revert i Hn.
  induction n as [|n IH]; intros i Hn Hi; simp scan_up;
    destruct (lt_dec i (length scores)) as [Hlt|Hge]; simpl; try lia.
  - exists i. split; [reflexivity|]. split; [lia|].
    intros H. unfold list_item in H.
    rewrite lookup_ge_None_2 in H by lia. discriminate H.
  - destruct (list_item_ok scores i Hlt) as [x Hx]. rewrite Hx.
    destruct (Reqb x base) eqn:Hxb.
    + destruct (IH (S i)) as (i' & Hs & Hr & _); [lia | lia|].
      exists i'. split; [exact Hs|]. split; lia.
    + exists i. split; [reflexivity|]. split; [lia|].
      intros [= ->]. rewrite Reqb_true in Hxb by reflexivity. discriminate.
Qed.

Lemma scan_down_spec scores base lo :
  (lo < length scores)%nat ->
  exists lo', scan_down scores base lo = Ok lo' /\ (lo' <= lo)%nat.
Proof.
  induction lo as [|lo IH]; intros Hlo; simpl.
  - exists 0%nat. auto.
  - destruct (list_item_ok scores (S lo) Hlo) as [x Hx]. rewrite Hx. simpl.
    destruct (Reqb x base).
    + destruct IH as (lo' & H & Hle); [lia|]. exists lo'. split; [exact H|lia].
    + exists (S lo). auto.
Qed.

Lemma bucklin_scan_idle scores base i :
  (i <= length scores)%nat -> bucklin_scan scores base i = Ok i.
Proof.
  intros Hi. simp bucklin_scan.
  destruct (lt_dec (length scores) i); [lia | reflexivity].
Qed.

Lemma INR_half_pos i : (1 <= i)%nat -> 0 < INR i - 1 / 2.
Proof. intros H. apply le_INR in H. simpl in H. lra. Qed.

Lemma median_score_spec mid i base :
  (mid < i)%nat ->
  exists s,
    median_score mid i base = Ok s /\
    (- (1 / 2) < base -> base - 1 < s < base + 1 / 2).
Proof.
  intros Hmi.
  pose proof (INR_half_pos i ltac:(lia)) as Hd.
  assert (INR mid <= INR i - 1) as Hmid.
  { assert (mid + 1 <= i)%nat as H by lia. apply le_INR in H.
    rewrite plus_INR in H. simpl in H. lra. }
  pose proof (pos_INR mid) as Hm0.
  unfold median_score. rewrite py_div_ok by lra. simpl.
  set (d := INR i - 1 / 2) in *.
  set (m := INR mid * (base + 1 / 2) / d).
  assert (INR mid + 1 / 2 <= d) as Hdm by (unfold d; lra).
  assert (m * d = INR mid * (base + 1 / 2)) as Hm
    by (unfold m; field; unfold d; lra).
  assert (- (1 / 2) < base -> 0 <= m < base + 1 / 2) as Hmb.
  { intros Hb.
    assert (0 < (base + 1 / 2) * (d - INR mid))
      by (apply Rmult_lt_0_compat; lra).
    assert (0 <= INR mid * (base + 1 / 2))
      by (apply Rmult_le_pos; lra).
    split.
    - apply (Rmult_le_reg_r d); [lra|]. rewrite Rmult_0_l, Hm. assumption.
    - apply (Rmult_lt_reg_r d); [lra|]. rewrite Hm. lra. }
  destruct (Rltb base m) eqn:Hbm.
  - exists m. split; [reflexivity|]. intros Hb.
    unfold Rltb in Hbm. destruct (Rlt_dec base m); [|discriminate].
    specialize (Hmb Hb). lra.
  - apply Rltb_nlt in Hbm.
    assert (base + 1 / 2 <> 0) as HB.
    { intros E. rewrite E, Rmult_0_r in Hm.
      assert (m = 0) as Hm0' by (apply (Rmult_eq_reg_r d); lra). lra. }
    rewrite py_div_ok by exact HB. simpl.
    eexists. split; [reflexivity|]. intros Hb.
    specialize (Hmb Hb).
    set (q := (base - m) / (base + 1 / 2)).
    assert (q * (base + 1 / 2) = base - m) as Hq by (unfold q; field; lra).
    assert (0 <= q).
    { apply (Rmult_le_reg_r (base + 1 / 2)); [lra|]. rewrite Hq. lra. }
    assert (q < 1).
    { apply (Rmult_lt_reg_r (base + 1 / 2)); [lra|]. rewrite Hq. lra. }
    lra.
Qed.

(** X18. [Mav.candScore] returns a score for every non-empty list of
    votes, and raises [IndexError] for the empty one.  When the median vote
    (the middle entry of the sorted votes, the upper one of the two for an
    even number) is above -0.5, as every grade is, the score lies strictly
    between the median minus 1 and the median plus 0.5. *)
Theorem Mav_candScore_near_median (scores : list R) :
  Mav_candScore [] = Raise IndexError /\
  (scores <> [] ->
   let base := nth (length scores / 2) (sorted_R scores) 0 in
   exists s : R,
     Mav_candScore scores = Ok s /\
     (- (1 / 2) < base -> base - 1 < s < base + 1 / 2)).
Proof.
  split; [reflexivity|]. intros Hne base.
  assert (0 < length scores)%nat as Hlen
    by (destruct scores; [congruence | simpl; lia]).
  assert (length scores / 2 < length (sorted_R scores))%nat as Hmid.
  { rewrite sorted_R_length. apply Nat.div_lt; lia. }
  assert (list_item (sorted_R scores) (length scores / 2) = Ok base) as Hb.
  { unfold list_item, base.
    destruct (lookup_lt_is_Some_2 _ _ Hmid) as [x Hx]. rewrite Hx.
    f_equal. symmetry. now apply nth_lookup_Some with (d := 0). }
  destruct (scan_up_spec (sorted_R scores) base (length scores / 2))
    as (i & Hi & Hr & Hgt); [lia|].
  destruct (median_score_spec (length scores / 2) i base (Hgt Hb))
    as (s & Hs & Hbound).
  exists s. split; [|exact Hbound].
  unfold Mav_candScore. cbv zeta. rewrite sorted_R_length, Hb.
  unfold mbind, result_bind. cbv beta iota. rewrite Hi. exact Hs.
Qed.

Lemma Mav_candScore_near_median_witness :
  [2; 3; 3; 1; 4] <> [] /\
  exists s, Mav_candScore [2; 3; 3; 1; 4] = Ok s.
Proof.
  assert ([2; 3; 3; 1; 4] <> []) as Hne by discriminate.
  split; [exact Hne|].
  destruct (proj2 (Mav_candScore_near_median [2; 3; 3; 1; 4]) Hne)
    as (s & H & _).
  exists s. exact H.
Defined.

(** X19. [Mj.candScore] returns a score for every non-empty list of votes,
    and the score is within 0.5 of the median vote, as its docstring
    says: at least the median minus 0.5 and below the median plus 0.5.  It
    raises [IndexError] for the empty list. *)
Theorem Mj_candScore_within_half (scores : list R) :
  Mj_candScore [] = Raise IndexError /\
  (scores <> [] ->
   let base := nth (length scores / 2) (sorted_R scores) 0 in
   exists s : R,
     Mj_candScore scores = Ok s /\ base - 1 / 2 <= s < base + 1 / 2).
Proof.
  split; [reflexivity|]. intros Hne base.
  assert (0 < length scores)%nat as Hlen
    by (destruct scores; [congruence | simpl; lia]).
  assert (length scores / 2 < length (sorted_R scores))%nat as Hmid.
  { rewrite sorted_R_length. apply Nat.div_lt; lia. }
  assert (list_item (sorted_R scores) (length scores / 2) = Ok base) as Hb.
  { unfold list_item, base.
    destruct (lookup_lt_is_Some_2 _ _ Hmid) as [x Hx]. rewrite Hx.
    f_equal. symmetry. now apply nth_lookup_Some with (d := 0). }
  destruct (scan_up_spec (sorted_R scores) base (length scores / 2))
    as (hi & Hhi & Hr & Hgt); [lia|]. specialize (Hgt Hb).
  destruct (scan_down_spec (sorted_R scores) base (length scores / 2) Hmid)
    as (lo & Hlo & Hle).
  rewrite sorted_R_length in Hr.
  unfold Mj_candScore. cbv zeta. rewrite sorted_R_length, Hb.
  unfold mbind, result_bind. cbv beta iota. rewrite Hhi, Hlo.
  set (n := length scores) in *.
  assert (2 * (n / 2) <= n)%nat as Hhalf
    by (pose proof (Nat.div_mod n 2 ltac:(lia)); lia).
  assert (0 < INR n) as Hn by (apply lt_0_INR; lia).
  assert (2 * INR (n / 2) <= INR n) as Hhalf'.
  { apply le_INR in Hhalf. rewrite mult_INR in Hhalf.
    replace (INR 2) with 2 in Hhalf by (simpl; lra). lra. }
  assert (/ INR n > 0) as Hinv by (apply Rinv_0_lt_compat; lra).
  assert (INR n * / INR n = 1) as Hone by (field; lra).
  destruct (Z.eqb_spec (Z.of_nat hi - Z.of_nat (n / 2))
                       (Z.of_nat (n / 2) - Z.of_nat lo)) as [Heq|Hneq].
  - exists base. split; [reflexivity | lra].
  - destruct (Z.ltb_spec (Z.of_nat hi - Z.of_nat (n / 2))
                         (Z.of_nat (n / 2) - Z.of_nat lo)) as [Hlt|Hge].
    + rewrite py_div_ok by lra. eexists. split; [reflexivity|].
      assert (0 < IZR (Z.of_nat hi - Z.of_nat (n / 2))) as Hpos
        by (apply IZR_lt; lia).
      assert (IZR (Z.of_nat hi - Z.of_nat (n / 2)) + 1 <= INR (n / 2)) as Hup.
      { rewrite INR_IZR_INZ, <- plus_IZR. apply IZR_le. lia. }
      unfold Rdiv. nra.
    + rewrite py_div_ok by lra. eexists. split; [reflexivity|].
      assert (0 <= IZR (Z.of_nat (n / 2) - Z.of_nat lo)) as Hpos
        by (apply IZR_le; lia).
      assert (IZR (Z.of_nat (n / 2) - Z.of_nat lo) <= INR (n / 2)) as Hup.
      { rewrite INR_IZR_INZ. apply IZR_le. lia. }
      unfold Rdiv. nra.
Qed.

Lemma Mj_candScore_within_half_witness :
  [2; 3; 3; 1; 4] <> [] /\
  exists s, Mj_candScore [2; 3; 3; 1; 4] = Ok s.
Proof.
  assert ([2; 3; 3; 1; 4] <> []) as Hne by discriminate.
  split; [exact Hne|].
  destruct (proj2 (Mj_candScore_within_half [2; 3; 3; 1; 4]) Hne)
    as (s & H & _).
  exists s. exact H.
Defined.

End MedianScores.

Section BucklinAndMavStrategic.
Local Open Scope R_scope.

(** X20. The loop of [Bucklin.candScore] never takes a turn (its guard
    [i > nvot] is false from the start), so the votes tied with the median
    do not count: the score is computed from the median and the number of
    votes alone.  For two votes or more and a median above -0.5 it is
    [mid * (median + 0.5) / (mid - 0.5)] with [mid = nvot // 2], which is
    above the median plus 0.5.  The empty list raises [IndexError]. *)
Theorem Bucklin_candScore_ignores_ties (scores : list R) :
  Bucklin_candScore [] = Raise IndexError /\
  (scores <> [] ->
   let mid := (length scores / 2)%nat in
   let base := nth mid (sorted_R scores) 0 in
   Bucklin_candScore scores = median_score mid mid base /\
   ((2 <= length scores)%nat -> - (1 / 2) < base ->
    Bucklin_candScore scores =
      Ok (INR mid * (base + 1 / 2) / (INR mid - 1 / 2)) /\
    base + 1 / 2 < INR mid * (base + 1 / 2) / (INR mid - 1 / 2))).
Proof.
  split; [reflexivity|]. intros Hne mid base.
  assert (0 < length scores)%nat as Hlen
    by (destruct scores; [congruence | simpl; lia]).
  assert (mid < length (sorted_R scores))%nat as Hmid.
  { rewrite sorted_R_length. apply Nat.div_lt; lia. }
  assert (list_item (sorted_R scores) mid = Ok base) as Hb.
  { unfold list_item, base.
    destruct (lookup_lt_is_Some_2 _ _ Hmid) as [x Hx]. rewrite Hx.
    f_equal. symmetry. now apply nth_lookup_Some with (d := 0). }
  assert (Bucklin_candScore scores = median_score mid mid base) as Hscore.
  { unfold Bucklin_candScore. cbv zeta. rewrite sorted_R_length.
    fold mid. rewrite Hb. unfold mbind, result_bind. cbv beta iota.
    rewrite bucklin_scan_idle by lia. reflexivity. }
  split; [exact Hscore|]. intros H2 Hbase.
  assert (1 <= mid)%nat as Hm1.
  { unfold mid. change 1%nat with (2 / 2)%nat.
    apply Nat.Div0.div_le_mono. exact H2. }
  pose proof (INR_half_pos mid Hm1) as Hd.
  set (d := INR mid - 1 / 2) in *.
  set (m := INR mid * (base + 1 / 2) / d).
  assert (m * d = INR mid * (base + 1 / 2)) as Hm
    by (unfold m; field; lra).
  assert (base + 1 / 2 < m) as Hgt.
  { apply (Rmult_lt_reg_r d); [lra|]. rewrite Hm.
    assert (0 < (base + 1 / 2) * (INR mid - d))
      by (apply Rmult_lt_0_compat; unfold d; lra).
    lra. }
  split; [|exact Hgt].
  rewrite Hscore. unfold median_score.
  rewrite py_div_ok by (fold d; lra).
  unfold mbind, result_bind. cbv beta iota. fold d. fold m.
  now rewrite Rltb_lt_true by lra.
Qed.

Lemma Bucklin_candScore_ignores_ties_witness :
  [2; 3; 3; 1; 4] <> [] /\ (2 <= length [2; 3; 3; 1; 4])%nat /\
  Bucklin_candScore [2; 3; 3; 1; 4] =
    median_score 2 2 (nth 2 (sorted_R [2; 3; 3; 1; 4]) 0).
Proof.
  assert ([2; 3; 3; 1; 4] <> []) as Hne by discriminate.
  split; [exact Hne|]. split; [simpl; lia|].
  exact (proj1 (proj2 (Bucklin_candScore_ignores_ties [2; 3; 3; 1; 4]) Hne)).
Defined.

Lemma Mav_strat_cutoff_ok self_cls front hi lo top i :
  self_cls = "Mav" \/ self_cls = "Mj" -> (i < 4)%nat ->
  exists c, Mav_strat_cutoff self_cls front hi lo top i = Ok c.
Proof.
  intros Hcls Hi. unfold Mav_strat_cutoff.
  rewrite class_baseCuts_Mav by exact Hcls.
  destruct (list_item_ok [- (8 / 10); 0; 8 / 10; 16 / 10] i) as [c Hc];
    [simpl; lia|].
  destruct (Rltb (INR i) (floor front.2 - 1)); simpl.
  - rewrite Hc. simpl. eauto.
  - destruct (Rltb (INR i) (floor front.1.2 + 1)); simpl; [eauto|].
    rewrite Hc. simpl. eauto.
Qed.

Lemma result_bind_Ok {A B} (a : A) (f : A -> result B) : (Ok a ≫= f) = f a.
Proof. reflexivity. Qed.

Lemma Mav_stratBallot_body_tied self_cls front cls voter c :
  list_item (utils voter) front.1.1.1 = Ok c ->
  list_item (utils voter) front.1.1.2 = Ok c ->
  Mav_stratBallot_body self_cls front cls voter =
    Ok (VList (map (fun util => if Rleb c util then 4 else 0) (utils voter)),
        voter).
Proof.
  intros H0 H1. unfold Mav_stratBallot_body.
  rewrite H0, result_bind_Ok. cbv beta. rewrite H1, result_bind_Ok. cbv beta.
  now rewrite Reqb_true by reflexivity.
Qed.

Lemma Mav_stratBallot_body_untied self_cls front cls voter c0 c1 :
  self_cls = "Mav" \/ self_cls = "Mj" ->
  list_item (utils voter) front.1.1.1 = Ok c0 ->
  list_item (utils voter) front.1.1.2 = Ok c1 ->
  c0 <> c1 ->
  exists ballot,
    Mav_stratBallot_body self_cls front cls voter =
      Ok (VList ballot,
          setattr voter (cls +:+ "_isStrat") (VBool (negb (Rltb c1 c0)))) /\
    length ballot = length (utils voter) /\
    forall i, (i < length (utils voter))%nat ->
      exists g : nat, nth i ballot 0 = INR g /\ (g <= 4)%nat.
Proof.
  intros Hcls H0 H1 Hne.
  assert (utils voter <> []) as Hus.
  { intros E. rewrite E in H0. unfold list_item in H0.
    rewrite lookup_nil in H0. discriminate H0. }
  destruct (py_max_spec (utils voter) Hus) as (top & Htop & _).
  set (cuts := if Rltb c1 c0 then (c0, c1) else (c1, c0)).
  destruct (mapR_Forall2_exists
              (Mav_strat_cutoff self_cls front cuts.1 cuts.2 top)
              (fun _ _ => True) (seq 0 4)) as (cutoffs & Hc & Hf).
  { intros i Hi. apply in_seq in Hi.
    destruct (Mav_strat_cutoff_ok self_cls front cuts.1 cuts.2 top i Hcls)
      as [c Hci]; [lia|].
    exists c. auto. }
  assert (length cutoffs = 4%nat) as Hcl
    by (apply Forall2_length in Hf; simpl in Hf; lia).
  assert (cutoffs <> []) as Hcne
    by (intros E; rewrite E in Hcl; discriminate).
  destruct (grade_ballot_spec cutoffs (utils voter) 4 Hcne)
    as (ballot & Hg & Hlen & Hnth).
  { intros u v _ Hv.
    destruct (toVote_spec cutoffs u Hcne) as (v0 & Hv0 & Hle & _).
    rewrite Hv0 in Hv. injection Hv as <-. lia. }
  exists ballot. split; [|split; [exact Hlen|]].
  - unfold Mav_stratBallot_body.
    rewrite H0, result_bind_Ok. cbv beta.
    rewrite H1, result_bind_Ok. cbv beta.
    rewrite Reqb_false by exact Hne. cbv zeta. fold cuts.
    change (utils (setattr voter (cls +:+ "_isStrat")
                           (VBool (negb (Rltb c1 c0)))))
      with (utils voter).
    rewrite Htop, result_bind_Ok. cbv beta.
    rewrite Hc, result_bind_Ok. cbv beta.
    rewrite Hg, result_bind_Ok. reflexivity.
  - intros i Hi. destruct (Hnth i Hi) as (g & _ & Hb & Hle). eauto.
Qed.

(** X21. The strategic ballot of [Mav] (and [Mj]) on a voter with two
    candidates or more, for any poll with two candidates or more, is a
    ballot of grades among 0, 1, 2, 3 and 4, memoized as [cls_strat].  When
    the voter's utilities [c0] and [c1] for candidates 0 and 1 are equal it
    is 4 for the candidates at or above that utility and 0 for the others,
    and the flag is not written; otherwise the flag [cls_isStrat] is set to
    whether the voter prefers candidate 1. *)
Theorem Mav_stratBallot_grades (self_cls cls : string) (info : list R)
    (stratBallot : BallotFun) (voter : Voter) (c0 c1 : R) :
  self_cls = "Mav" \/ self_cls = "Mj" ->
  Mav_stratBallotFor self_cls info = Ok stratBallot ->
  list_item (utils voter) 0 = Ok c0 -> list_item (utils voter) 1 = Ok c1 ->
  exists (ballot : list R) (voter' : Voter),
    stratBallot cls voter = Ok (VList ballot, voter') /\
    length ballot = length (utils voter) /\
    utils voter' = utils voter /\
    getattr voter' (cls +:+ "_strat") = Ok (VList ballot) /\
    (forall i : nat, (i < length (utils voter))%nat ->
       exists g : nat, nth i ballot 0 = INR g /\ (g <= 4)%nat) /\
    (c0 = c1 ->
     ballot = map (fun util => if Rleb c0 util then 4 else 0) (utils voter) /\
     attrs voter' !! (cls +:+ "_isStrat") =
       attrs voter !! (cls +:+ "_isStrat")) /\
    (c0 <> c1 ->
     getattr voter' (cls +:+ "_isStrat") = Ok (VBool (Rltb c0 c1))).
Proof.
  intros Hcls Hsb H0 H1.
  unfold Mav_stratBallotFor in Hsb.
  destruct info as [|p0 [|p1 info]]; [discriminate Hsb | discriminate Hsb|].
  unfold Mav_frontrunners in Hsb. rewrite places_enumerate in Hsb.
  simpl in Hsb. injection Hsb as <-.
  unfold rememberBallot. rewrite strat_key.
  destruct (Req_dec_T c0 c1) as [Heq|Hne].
  - subst c1.
    rewrite (Mav_stratBallot_body_tied self_cls (0%nat, 1%nat, p0, p1)
               cls voter c0 H0 H1).
    eexists. eexists. split; [reflexivity|].
    split; [apply length_map|]. split; [reflexivity|].
    split; [unfold getattr; simpl; now rewrite lookup_insert_eq|].
    split; [|split; [|congruence]].
    + intros i Hi.
      rewrite (nth_indep _ 0 ((fun util => if Rleb c0 util then 4 else 0) 0))
        by now rewrite length_map.
      rewrite (map_nth (fun util => if Rleb c0 util then 4 else 0)).
      destruct (Rleb c0 (nth i (utils voter) 0)).
      * exists 4%nat. split; [simpl; lra | lia].
      * exists 0%nat. split; [reflexivity | lia].
    + intros _. split; [reflexivity|]. simpl.
      apply lookup_insert_ne, strat_key_not_flag.
  - destruct (Mav_stratBallot_body_untied self_cls (0%nat, 1%nat, p0, p1)
                cls voter c0 c1 Hcls H0 H1 Hne)
      as (ballot & Hb & Hlen & Hgr).
    rewrite Hb. exists ballot. eexists. split; [reflexivity|].
    split; [exact Hlen|]. split; [reflexivity|].
    split; [unfold getattr; simpl; now rewrite lookup_insert_eq|].
    split; [exact Hgr|]. split; [congruence|].
    intros _. unfold getattr. simpl.
    rewrite lookup_insert_ne by apply strat_key_not_flag.
    rewrite lookup_insert_eq. do 2 f_equal.
    unfold Rltb. destruct (Rlt_dec c1 c0), (Rlt_dec c0 c1); simpl;
      try reflexivity; lra.
Qed.

Lemma Mav_stratBallot_grades_witness :
  exists stratBallot ballot voter',
    ("Mav" = "Mav" \/ "Mav" = "Mj") /\
    Mav_stratBallotFor "Mav" [3; 2; 1] = Ok stratBallot /\
    list_item (utils (new_voter VoterCls [1; 2; 0])) 0 = Ok 1 /\
    list_item (utils (new_voter VoterCls [1; 2; 0])) 1 = Ok 2 /\
    stratBallot "Mav" (new_voter VoterCls [1; 2; 0]) =
      Ok (VList ballot, voter') /\
    length ballot = 3%nat.
Proof.
  destruct (Mav_stratBallot_grades "Mav" "Mav" [3; 2; 1] _
              (new_voter VoterCls [1; 2; 0]) 1 2
              (or_introl eq_refl) eq_refl eq_refl eq_refl)
    as (ballot & voter' & H & Hlen & _).
  eexists. exists ballot, voter'.
  split; [now left|]. split; [reflexivity|]. split; [reflexivity|].
  split; [reflexivity|]. split; [exact H | exact Hlen].
Defined.

End BucklinAndMavStrategic.

(** ** The order of the votes *)

Section VoteOrder.
Local Open Scope R_scope.

Lemma insert_R_perm x l : Permutation (insert_R x l) (x :: l).
Proof.
  induction l as [|y l IH]; simpl; [reflexivity|].
  destruct (Rleb x y); [reflexivity|].
  rewrite IH. apply perm_swap.
Qed.

Lemma sorted_R_perm l : Permutation (sorted_R l) l.
Proof.
  induction l as [|x l IH]; [reflexivity|].
  unfold sorted_R in *. simpl. rewrite insert_R_perm. now constructor.
Qed.

Lemma insert_R_sorted x l :
  StronglySorted Rle l -> StronglySorted Rle (insert_R x l).
Proof.
  induction 1 as [|y l Hs IH Hall]; simpl.
  - repeat constructor.
  - destruct (Rleb x y) eqn:Hxy.
    + apply Rleb_le in Hxy. constructor; [now constructor|].
      constructor; [exact Hxy|].
      eapply List.Forall_impl; [|exact Hall]. intros z Hz. simpl in Hz. lra.
    + apply Rleb_gt in Hxy. constructor; [exact IH|].
      apply List.Forall_forall. intros z Hz.
      apply (Permutation_in _ (insert_R_perm x l)) in Hz.
      destruct Hz as [<-|Hz]; [lra|].
      rewrite List.Forall_forall in Hall. now apply Hall.
Qed.

Lemma sorted_R_sorted l : StronglySorted Rle (sorted_R l).
Proof.
  induction l as [|x l IH]; [constructor|].
  unfold sorted_R in *. simpl. now apply insert_R_sorted.
Qed.

Lemma sorted_R_order_free l l' :
  Permutation l l' -> sorted_R l = sorted_R l'.
Proof.
  intros Hp.
  assert (AntiSymm eq Rle) as Hanti by (intros x y ? ?; lra).
  apply (StronglySorted_unique Rle); try apply sorted_R_sorted.
  now rewrite !sorted_R_perm.
Qed.

Lemma Rsum_perm l l' : Permutation l l' -> Rsum l = Rsum l'.
Proof.
  induction 1 as [|x l l' _ IH|x y l|l l' l'' _ IH1 _ IH2]; simpl;
    [reflexivity | now rewrite IH | lra | congruence].
Qed.

(** X22. The score of a candidate does not depend on the order in which
    the votes come, for none of the four methods: votes that are a
    rearrangement of one another get the same [mean] (Score), the same
    [Mav.candScore], the same [Mj.candScore] and the same
    [Bucklin.candScore], also when that is an exception.  The votes that
    the grade methods sort are in ascending order and are the votes
    given. *)
Theorem candScore_order_free (scores scores' : list R) :
  Permutation scores scores' ->
  mean scores = mean scores' /\
  Mav_candScore scores = Mav_candScore scores' /\
  Mj_candScore scores = Mj_candScore scores' /\
  Bucklin_candScore scores = Bucklin_candScore scores' /\
  StronglySorted Rle (sorted_R scores) /\
  Permutation (sorted_R scores) scores.
Proof.
  intros Hp. pose proof (sorted_R_order_free _ _ Hp) as Hs.
  split; [|split; [|split; [|split; [|split]]]].
  - unfold mean. now rewrite (Rsum_perm _ _ Hp), (Permutation_length Hp).
  - unfold Mav_candScore. now rewrite Hs.
  - unfold Mj_candScore. now rewrite Hs.
  - unfold Bucklin_candScore. now rewrite Hs.
  - apply sorted_R_sorted.
  - apply sorted_R_perm.
Qed.

Lemma candScore_order_free_witness :
  Permutation [2; 3; 1] [1; 2; 3] /\
  Mav_candScore [2; 3; 1] = Mav_candScore [1; 2; 3] /\
  mean [2; 3; 1] = mean [1; 2; 3].
Proof.
  assert (Permutation [2; 3; 1] [1; 2; 3]) as Hp.
  { apply (perm_trans (l' := [2; 1; 3])).
    - apply perm_skip, perm_swap.
    - apply perm_swap. }
  destruct (candScore_order_free _ _ Hp) as (Hm & Hmav & _).
  split; [exact Hp|]. split; [exact Hmav | exact Hm].
Defined.

End VoteOrder.

(** ** The urn *)

Section Urn.
Local Open Scope R_scope.

Lemma polya_draw_urn alpha mutantFactor ncand election w :
  (0 < Z.of_nat (length election) + alpha)%Z -> all_plain election ->
  exists child w',
    polya_draw alpha mutantFactor ncand VoterCls election w = Ok (child, w') /\
    vclass child = VoterCls.
Proof.
  intros Hurn Hplain.
  destruct (random_randrange_ok (Z.of_nat (length election) + alpha) w Hurn)
    as (i & w1 & Hi & Hrange).
  unfold polya_draw. erewrite M_bind_ok by exact Hi.
  destruct (Z.ltb_spec i (Z.of_nat (length election))) as [Hlt|Hge].
  - destruct (lookup_lt_is_Some_2 election (Z.to_nat i)) as [v Hv]; [lia|].
    assert (vclass v = VoterCls) as Hcls.
    { unfold all_plain in Hplain. rewrite List.Forall_forall in Hplain.
      apply Hplain. eapply list_elem_of_In, list_elem_of_lookup_2, Hv. }
    destruct (mutantChild_Voter v mutantFactor w1 Hcls)
      as (child & w' & Hm & Hc & _).
    exists child, w'. split; [|exact Hc].
    erewrite M_bind_ok; [exact Hm|]. unfold list_item. now rewrite Hv.
  - destruct (rand_ok VoterCls ncand w1) as (child & w' & Hr & Hc & _).
    exists child, w'. auto.
Qed.

Lemma polya_loop_urn_grows alpha mutantFactor nvot ncand election w :
  (0 < Z.of_nat (length election) + alpha)%Z -> all_plain election ->
  exists extra w',
    polya_loop alpha mutantFactor nvot ncand VoterCls election w =
      Ok (election ++ extra, w') /\
    length extra = (Z.to_nat nvot - length election)%nat.
Proof.
  remember (Z.to_nat nvot - length election)%nat as n eqn:Hn.
  revert election w Hn.
  induction n as [|n IH]; intros election w Hn Hurn Hplain; simp polya_loop;
    destruct (Z_lt_dec (Z.of_nat (length election)) nvot) as [Hlt|Hge];
    simpl; try lia.
  - exists [], w. rewrite app_nil_r. auto.
  - destruct (polya_draw_urn alpha mutantFactor ncand election w Hurn Hplain)
      as (child & w1 & Hd & Hc).
    rewrite Hd.
    destruct (IH (election ++ [child]) w1) as (extra & w' & Hl & Hlen).
    { rewrite length_app. simpl. lia. }
    { rewrite length_app. simpl. lia. }
    { apply Forall_app. split; [exact Hplain|]. now constructor. }
    exists (child :: extra), w'. rewrite <- app_assoc in Hl.
    split; [exact Hl|]. simpl. now rewrite Hlen.
Qed.

(** X23. What [alpha] the loop of [PolyaModel] needs.  The loop draws from
    [randrange(len(election) + alpha)]: when that number is positive for the
    seed electorate (a positive [alpha], or a zero or negative one with
    enough seed voters), the loop on plain voters never raises and appends
    exactly [max(0, nvot - len(election))] voters; when it is not positive
    and voters are still missing, the first draw raises [ValueError] (so
    does [PolyaModel] with [alpha = 0] and no seed voters). *)
Theorem polya_loop_urn (alpha : Z) (mutantFactor : R) (nvot ncand : Z)
    (election : Electorate) (w : World) :
  ((0 < Z.of_nat (length election) + alpha)%Z -> all_plain election ->
   exists (extra : list Voter) (w' : World),
     polya_loop alpha mutantFactor nvot ncand VoterCls election w =
       Ok (election ++ extra, w') /\
     length extra = (Z.to_nat nvot - length election)%nat) /\
  ((Z.of_nat (length election) + alpha <= 0)%Z ->
   (Z.of_nat (length election) < nvot)%Z ->
   forall vType,
     polya_loop alpha mutantFactor nvot ncand vType election w =
       Raise ValueError).
Proof.
  split.
  - apply polya_loop_urn_grows.
  - intros Hurn Hlt vType. rewrite polya_loop_equation_1.
    destruct (Z_lt_dec (Z.of_nat (length election)) nvot); [|lia].
    simpl. unfold polya_draw, random_randrange.
    destruct (Z.leb_spec (Z.of_nat (length election) + alpha) 0); [|lia].
    reflexivity.
Qed.

Lemma polya_loop_urn_witness :
  (0 < Z.of_nat (length [hon_only_voter]) + 0)%Z /\
  all_plain [hon_only_voter] /\
  (Z.of_nat (length (@nil Voter)) + 0 <= 0)%Z /\
  (Z.of_nat (length (@nil Voter)) < 3)%Z /\
  (exists extra w',
     polya_loop 0 (1 / 5) 3 2 VoterCls [hon_only_voter] (const_world 1 0) =
       Ok ([hon_only_voter] ++ extra, w') /\
     length extra = 2%nat) /\
  polya_loop 0 (1 / 5) 3 2 VoterCls [] (const_world 1 0) = Raise ValueError.
Proof.
  assert (all_plain [hon_only_voter]) as Hp by (repeat constructor).
  assert (Z.of_nat (length (@nil Voter)) + 0 <= 0)%Z as Hz by (simpl; lia).
  split; [reflexivity|]. split; [exact Hp|]. split; [exact Hz|].
  split; [reflexivity|]. split.
  - exact (proj1 (polya_loop_urn 0 (1 / 5) 3 2 [hon_only_voter]
                    (const_world 1 0)) eq_refl Hp).
  - exact (proj2 (polya_loop_urn 0 (1 / 5) 3 2 [] (const_world 1 0))
             Hz eq_refl VoterCls).
Defined.

End Urn.
